(** * tex3ds: the BCFNT font-atlas builder and serializer (bcfnt.cpp)

    A shallow embedding of [BCFNT::BCFNT] and [BCFNT::serialize] together
    with the stream operators of the anonymous namespace, followed by the
    properties of the atlas layout, the glyph indexer, the range coalescer,
    the sheet accounting and the persistence loop.

    Conventions.  Machine integers are [Z] with the conversions of the
    source written out ([to_u8], [to_u16], [to_u32], [to_i8], [to_i32]).
    Code points returned by FreeType are [FT_ULong], modelled as [N].
    Byte buffers ([std::vector<std::uint8_t>]) are [list Z].  A loop that
    the source does not bound runs on fuel and yields [OutOfFuel] when the
    fuel is exhausted; [assert] and [abort] yield [Aborted]. *)

From Stdlib Require Import String Ascii ZArith List Bool Lia Permutation.
Import ListNotations.
Local Open Scope Z_scope.
Local Open Scope list_scope.

(* ------------------------------------------------------------------ *)
(** ** Integer conversions *)

Definition to_u8 (z : Z) : Z := z mod 2 ^ 8.
Definition to_u16 (z : Z) : Z := z mod 2 ^ 16.
Definition to_u32 (z : Z) : Z := z mod 2 ^ 32.
Definition to_i8 (z : Z) : Z := (z + 2 ^ 7) mod 2 ^ 8 - 2 ^ 7.
Definition to_i32 (z : Z) : Z := (z + 2 ^ 31) mod 2 ^ 32 - 2 ^ 31.

(** [std::numeric_limits<std::uint16_t>::max()] *)
Definition u16_max : Z := 65535.

(* ------------------------------------------------------------------ *)
(** ** Outcomes of a run *)

Inductive outcome (A : Type) : Type :=
| Done (a : A)
| Aborted
| OutOfFuel.

Arguments Done {A} a.
Arguments Aborted {A}.
Arguments OutOfFuel {A}.

Definition bind {A B : Type} (m : outcome A) (k : A -> outcome B) : outcome B :=
  match m with
  | Done a => k a
  | Aborted => Aborted
  | OutOfFuel => OutOfFuel
  end.

Notation "x <- m ;; k" := (bind m (fun x => k))
  (at level 61, m at next level, right associativity).

(** [assert(c)] *)
Definition asserting (c : bool) : outcome unit := if c then Done tt else Aborted.

(* ------------------------------------------------------------------ *)
(** ** The rasterizer face (FreeType) *)

(** What [FT_Load_Glyph (.., FT_LOAD_RENDER)] leaves in [face->glyph]. *)
Record Glyph : Type := {
  horiBearingX : Z;          (* glyph->metrics.horiBearingX, 26.6 *)
  metrics_width : Z;         (* glyph->metrics.width, 26.6 *)
  horiAdvance : Z;           (* glyph->metrics.horiAdvance, 26.6 *)
  bitmap_rows : Z;           (* glyph->bitmap.rows *)
  bitmap_width : Z;          (* glyph->bitmap.width *)
  bitmap_buffer : list Z;    (* glyph->bitmap.buffer, coverage bytes *)
  bitmap_left : Z;           (* glyph->bitmap_left *)
  bitmap_top : Z             (* glyph->bitmap_top *)
}.

Record FT_Face : Type := {
  metrics_height : Z;        (* size->metrics.height *)
  metrics_max_advance : Z;   (* size->metrics.max_advance *)
  metrics_ascender : Z;      (* size->metrics.ascender *)
  bbox_xMin : Z;
  bbox_xMax : Z;
  bbox_yMin : Z;
  bbox_yMax : Z;
  (** [FT_Get_First_Char (face, &faceIndex)]: the code and the face index. *)
  FT_Get_First_Char : N * Z;
  (** [FT_Get_Next_Char (face, code, &faceIndex)] *)
  FT_Get_Next_Char : N -> N * Z;
  (** [FT_Load_Glyph (face, faceIndex, FT_LOAD_RENDER)]; [None] is a
      non-zero [FT_Error]. *)
  FT_Load_Glyph : Z -> option Glyph
}.

(* ------------------------------------------------------------------ *)
(** ** The code-point map ([std::map<FT_ULong, CharMap>]) *)

Record CharMap : Type := {
  code : Z;        (* Code point. *)
  faceIndex : Z;   (* FreeType face index. *)
  cfntIndex : Z    (* CFNT glyph index. *)
}.

(** A value-initialised [CharMap], as [operator[]] would insert. *)
Definition CharMap_default : CharMap :=
  {| code := 0; faceIndex := 0; cfntIndex := 0 |}.

(** The map is kept as the sequence of its entries in ascending key order,
    which is the order a range-for visits them in. *)
Definition FaceMap : Type := list (Z * CharMap).

(** [faceMap.emplace (k, v)]: inserts unless the key is present. *)
Fixpoint emplace (k : Z) (v : CharMap) (m : FaceMap) : FaceMap :=
  match m with
  | [] => [(k, v)]
  | (k', v') :: m' =>
      if k <? k' then (k, v) :: m
      else if k =? k' then m
      else (k', v') :: emplace k v m'
  end.

(** [faceMap.count (k)] *)
Fixpoint count (k : Z) (m : FaceMap) : bool :=
  match m with
  | [] => false
  | (k', _) :: m' => (k =? k') || count k m'
  end.

(** [faceMap[k]]; on a missing key the source inserts a value-initialised
    entry and returns it.  The map is not iterated after the first such
    access, so only the returned value is observable. *)
Fixpoint at_key (k : Z) (m : FaceMap) : CharMap :=
  match m with
  | [] => CharMap_default
  | (k', v) :: m' => if k =? k' then v else at_key k m'
  end.

(* ------------------------------------------------------------------ *)
(** ** GlyphIndexer: the enumeration loop of the constructor *)

(** [while (code != 0) { ... }] of lines 123-133.  The [continue] on an
    out-of-range code re-enters the loop with [code] unchanged. *)
Fixpoint index_loop (face : FT_Face) (fuel : nat) (c : N) (fi : Z)
    (faceMap : FaceMap) (idx : Z) : outcome FaceMap :=
  match fuel with
  | O => OutOfFuel
  | S fuel' =>
      if (c =? 0)%N then Done faceMap
      else if u16_max <=? Z.of_N c then
        index_loop face fuel' c fi faceMap idx
      else
        _ <- asserting (negb (idx =? u16_max)) ;;
        let faceMap' :=
          emplace (Z.of_N c)
            {| code := Z.of_N c; faceIndex := fi; cfntIndex := idx |} faceMap in
        let '(c', fi') := FT_Get_Next_Char face c in
        index_loop face fuel' c' fi' faceMap' (to_u16 (idx + 1))
  end.

Definition build_faceMap (face : FT_Face) (fuel : nat) : outcome FaceMap :=
  let '(c, fi) := FT_Get_First_Char face in
  index_loop face fuel c fi [] 0.

(** Lines 138-146: the replacement character. *)
Definition select_altIndex (faceMap : FaceMap) : Z :=
  if count 65533 faceMap then cfntIndex (at_key 65533 faceMap)
  else if count 63 faceMap then cfntIndex (at_key 63 faceMap)
  else if count 32 faceMap then cfntIndex (at_key 32 faceMap)
  else 0.

(* ------------------------------------------------------------------ *)
(** ** RangeCoalescer: character mappings *)

(** Modelled from the spec: bcfnt.h, which declares [CMAPData] and its
    subclasses, is not part of the sources; the payload is the tagged
    union over Direct, Table and Scan of the data model. *)
Inductive CMAPData : Type :=
| CMAPDirect (offset : Z)
| CMAPTable (table : list Z)
| CMAPScan (entries : list (Z * Z)).

(** Modelled from the spec: the enumerators of [CMAPData::Type]. *)
Inductive MappingMethod : Type :=
| CMAP_TYPE_DIRECT
| CMAP_TYPE_TABLE
| CMAP_TYPE_SCAN.

(** [data->type ()] *)
Definition type_of (d : CMAPData) : MappingMethod :=
  match d with
  | CMAPDirect _ => CMAP_TYPE_DIRECT
  | CMAPTable _ => CMAP_TYPE_TABLE
  | CMAPScan _ => CMAP_TYPE_SCAN
  end.

(** Modelled from the spec: the numeric value of a mapping method, as the
    serializer's [static_cast<std::uint16_t>] sees it (bcfnt.h). *)
Definition method_tag (m : MappingMethod) : Z :=
  match m with
  | CMAP_TYPE_DIRECT => 0
  | CMAP_TYPE_TABLE => 1
  | CMAP_TYPE_SCAN => 2
  end.

(** Modelled from the spec: a code range, declared in bcfnt.h. *)
Record CMAP : Type := {
  codeBegin : Z;                 (* std::uint16_t *)
  codeEnd : Z;                   (* std::uint16_t *)
  mappingMethod : MappingMethod;
  data : CMAPData
}.

(** A placeholder for [back] of an empty vector, which the source never
    evaluates. *)
Definition CMAP_default : CMAP :=
  {| codeBegin := 0; codeEnd := 0; mappingMethod := CMAP_TYPE_DIRECT;
     data := CMAPDirect 0 |}.

(** [cmaps.back ()] *)
Definition back (cmaps : list CMAP) : CMAP := last cmaps CMAP_default.

(** Lines 156-160: the range a code point opens. *)
Definition new_cmap (c : Z) (charMap : CharMap) : CMAP :=
  let d := CMAPDirect (cfntIndex charMap) in
  {| codeBegin := to_u16 c; codeEnd := to_u16 c;
     mappingMethod := type_of d; data := d |}.

(** [cmaps.back ().codeEnd = code] *)
Definition extend_back (cmaps : list CMAP) (c : Z) : list CMAP :=
  let b := back cmaps in
  removelast cmaps ++
  [{| codeBegin := codeBegin b; codeEnd := to_u16 c;
      mappingMethod := mappingMethod b; data := data b |}].

(** The body of the loop of lines 149-164.  [code - 1] is evaluated only
    when [code] is not 0, so the unsigned subtraction does not wrap. *)
Definition collect_step (cmaps : list CMAP) (pair : Z * CharMap) : list CMAP :=
  let c := fst pair in
  let charMap := snd pair in
  if (c =? 0) || match cmaps with [] => true | _ => false end
     || negb (codeEnd (back cmaps) =? c - 1)
  then cmaps ++ [new_cmap c charMap]
  else extend_back cmaps c.

Definition collect_cmaps (faceMap : FaceMap) : list CMAP :=
  fold_left collect_step faceMap [].

(** Line 59: the seam for a later pass; it does nothing. *)
Definition coalesceCMAP (cmaps : list CMAP) : list CMAP := cmaps.

(* ------------------------------------------------------------------ *)
(** ** Sheets *)

(** A pixel: the quanta of its four channels. *)
Record Pixel : Type := { red : Z; green : Z; blue : Z; alpha : Z }.

(** A [Magick::Image]: its geometry and its pixels by column and row. *)
Record Image : Type := {
  columns : Z;
  rows : Z;
  pixel_at : Z -> Z -> Pixel
}.

(** The image collaborators, whose sources are outside this file:
    [transparent ()] and the quantum conversions of quantum.h and
    magick_compat.h, and [swizzle] of swizzle.h.

    Modelled from the spec: the swizzle reorders the pixel tiles of a
    sheet, so it leaves the geometry as it is. *)
Class Imaging : Type := {
  transparent : Pixel;
  bits_to_quantum8 : Z -> Z;
  quantum_to_bits4 : Z -> Z;
  swizzle : Image -> Image;
  swizzle_columns : forall s, columns (swizzle s) = columns s;
  swizzle_rows : forall s, rows (swizzle s) = rows s
}.

(** One entry of the width table. *)
Record CharWidthInfo : Type := {
  left : Z;         (* std::int8_t *)
  glyphWidth : Z;   (* std::uint8_t *)
  charWidth : Z     (* std::uint8_t *)
}.

(** The values [start, start + n) of a counting loop. *)
Fixpoint zrange_from (start : Z) (n : nat) : list Z :=
  match n with
  | O => []
  | S n' => start :: zrange_from (start + 1) n'
  end.

(** The values of [for (unsigned i = 0; i < n; ++i)]. *)
Definition zrange (n : Z) : list Z := zrange_from 0 (Z.to_nat n).

(** Modelled from the spec: the atlas holds five global metrics, whose
    members bcfnt.h declares; that header is not part of the sources, so
    the conversion of a shifted [FT_Pos] value to the members' type is
    taken as given. *)
Class Members : Type := {
  metric_member : Z -> Z
}.

Section Atlas.

Context {IM : Imaging} {MB : Members}.

(** [Magick::Image (Magick::Geometry (256, 512), transparent ())] *)
Definition new_sheet : Image :=
  {| columns := 256; rows := 512; pixel_at := fun _ _ => transparent |}.

(** The image with the pixel at column [x] of row [y] replaced by [c]. *)
Definition set_pixel (s : Image) (x y : Z) (c : Pixel) : Image :=
  {| columns := columns s; rows := rows s;
     pixel_at := fun x' y' =>
       if (x' =? x) && (y' =? y) then c else pixel_at s x' y' |}.

(** [appendSheet]: one byte for each pair of pixels of the swizzled sheet,
    the even pixel in the low nibble.  [p[i]] is the pixel at column
    [i mod w] of row [i / w]. *)
Definition appendSheet (sheetData : list Z) (sheet : Image) : list Z :=
  let sheet := swizzle sheet in
  let w := columns sheet in
  let h := rows sheet in
  let p := fun i => pixel_at sheet (i mod w) (i / w) in
  sheetData ++
  map (fun i =>
         to_u8 (Z.lor (Z.shiftl (quantum_to_bits4 (alpha (p (i + 1)))) 4)
                      (Z.shiftl (quantum_to_bits4 (alpha (p (i + 0)))) 0)))
      (map (fun k => 2 * k) (zrange ((to_u32 (w * h) + 1) / 2))).

(** Lines 208-233: the glyph bitmap drawn into the 24x30 cell at
    [(sheetX, sheetY)], clipped to the cell. *)
Definition draw_glyph (sheet : Image) (sheetX sheetY baseline : Z) (g : Glyph)
  : Image :=
  fold_left (fun s y =>
    fold_left (fun s x =>
      let px := to_i32 (x + bitmap_left g) in
      let py := to_i32 (y + (baseline - bitmap_top g)) in
      if (px <? 0) || (px >=? 24) || (py <? 0) || (py >=? 30) then s
      else
        let v := nth (Z.to_nat (y * bitmap_width g + x)) (bitmap_buffer g) 0 in
        let c := {| red := bits_to_quantum8 0; green := bits_to_quantum8 0;
                    blue := bits_to_quantum8 0; alpha := bits_to_quantum8 v |} in
        set_pixel s (sheetX + px) (sheetY + py) c)
      (zrange (bitmap_width g)) s)
    (zrange (bitmap_rows g)) sheet.

(** The state the loops of lines 170-241 work on. *)
Record AtlasState : Type := {
  st_widths : list CharWidthInfo;
  st_sheet : option Image;          (* std::unique_ptr<Magick::Image> *)
  st_sheetData : list Z;
  st_numSheets : Z
}.

(** Lines 184-186 *)
Definition width_info (g : Glyph) : CharWidthInfo :=
  {| left := to_i8 (Z.shiftr (horiBearingX g) 6);
     glyphWidth := to_u8 (Z.shiftr (metrics_width g) 6);
     charWidth := to_u8 (Z.shiftr (horiAdvance g) 6) |}.

(** [appendSheet (sheetData, *sheet); ++numSheets;] when a sheet is open. *)
Definition flush_sheet (st : AtlasState) : AtlasState :=
  match st_sheet st with
  | Some s =>
      {| st_widths := st_widths st; st_sheet := st_sheet st;
         st_sheetData := appendSheet (st_sheetData st) s;
         st_numSheets := st_numSheets st + 1 |}
  | None => st
  end.

(** The body of the inner loop, lines 175-233, for one code point. *)
Definition glyph_body (face : FT_Face) (faceMap : FaceMap) (baseline : Z)
    (c : Z) (st : AtlasState) : outcome AtlasState :=
  match FT_Load_Glyph face (faceIndex (at_key c faceMap)) with
  | None => Done st
  | Some g =>
      let widths := st_widths st ++ [width_info g] in
      let idx := cfntIndex (at_key c faceMap) in
      let st1 :=
        if idx mod 170 =? 0 then
          let f := flush_sheet st in
          {| st_widths := widths; st_sheet := Some new_sheet;
             st_sheetData := st_sheetData f; st_numSheets := st_numSheets f |}
        else
          {| st_widths := widths; st_sheet := st_sheet st;
             st_sheetData := st_sheetData st; st_numSheets := st_numSheets st |} in
      match st_sheet st1 with
      | None => Aborted
      | Some sheet =>
          let sheetIndex := idx mod 170 in
          let sheetX := (sheetIndex mod 10) * 24 in
          let sheetY := (sheetIndex / 10) * 30 in
          _ <- asserting (sheetX + 24 <? columns sheet) ;;
          _ <- asserting (sheetY + 30 <? rows sheet) ;;
          Done {| st_widths := widths;
                  st_sheet := Some (draw_glyph sheet sheetX sheetY baseline g);
                  st_sheetData := st_sheetData st1;
                  st_numSheets := st_numSheets st1 |}
      end
  end.

(** [for (std::uint16_t code = cmap.codeBegin; code <= cmap.codeEnd; ++code)] *)
Fixpoint code_loop (face : FT_Face) (faceMap : FaceMap) (baseline : Z)
    (fuel : nat) (c cEnd : Z) (st : AtlasState) : outcome AtlasState :=
  match fuel with
  | O => OutOfFuel
  | S fuel' =>
      if c <=? cEnd then
        st' <- glyph_body face faceMap baseline c st ;;
        code_loop face faceMap baseline fuel' (to_u16 (c + 1)) cEnd st'
      else Done st
  end.

(** [for (const auto &cmap: cmaps)] of line 171. *)
Fixpoint cmap_loop (face : FT_Face) (faceMap : FaceMap) (baseline : Z)
    (fuel : nat) (cmaps : list CMAP) (st : AtlasState) : outcome AtlasState :=
  match cmaps with
  | [] => Done st
  | cmap :: rest =>
      st' <- code_loop face faceMap baseline fuel (codeBegin cmap) (codeEnd cmap) st ;;
      cmap_loop face faceMap baseline fuel rest st'
  end.

(* ------------------------------------------------------------------ *)
(** ** The atlas and its constructor *)

(** The members of the atlas that the two functions use. *)
Record BCFNT : Type := {
  lineFeed : Z;
  height : Z;
  width : Z;
  maxWidth : Z;
  ascent : Z;
  altIndex : Z;
  cmaps : list CMAP;
  widths : list CharWidthInfo;
  sheetData : list Z;
  numSheets : Z
}.

(** Line 170 and the members before the loops: nothing recorded, no sheet. *)
Definition atlas_init : AtlasState :=
  {| st_widths := []; st_sheet := None; st_sheetData := []; st_numSheets := 0 |}.

(** [BCFNT::BCFNT (FT_Face face)].

    Modelled from the spec: an atlas whose map is empty has replacement
    index 0, no ranges, no metrics and no sheets (the members' initial
    values are declared in bcfnt.h).  [altIndex] takes a 16-bit glyph
    index and [numSheets] counts up from 0. *)
Definition BCFNT_ctor (face : FT_Face) (fuel : nat) : outcome BCFNT :=
  let lineFeed := metric_member (Z.shiftr (metrics_height face) 6) in
  let height := metric_member (Z.shiftr (bbox_yMax face - bbox_yMin face) 6) in
  let width := metric_member (Z.shiftr (bbox_xMax face - bbox_xMin face) 6) in
  let maxWidth := metric_member (Z.shiftr (metrics_max_advance face) 6) in
  let ascent := metric_member (Z.shiftr (metrics_ascender face) 6) in
  faceMap <- build_faceMap face fuel ;;
  match faceMap with
  | [] =>
      Done {| lineFeed := lineFeed; height := height; width := width;
              maxWidth := maxWidth; ascent := ascent; altIndex := 0;
              cmaps := []; widths := []; sheetData := []; numSheets := 0 |}
  | _ =>
      let altIndex := select_altIndex faceMap in
      let cmaps := collect_cmaps faceMap in
      let baseline := to_i32 (Z.shiftr (metrics_ascender face) 6) in
      st <- cmap_loop face faceMap baseline fuel cmaps atlas_init ;;
      let st := flush_sheet st in
      Done {| lineFeed := lineFeed; height := height; width := width;
              maxWidth := maxWidth; ascent := ascent; altIndex := altIndex;
              cmaps := coalesceCMAP cmaps; widths := st_widths st;
              sheetData := st_sheetData st; numSheets := st_numSheets st |}
  end.

End Atlas.

(* ------------------------------------------------------------------ *)
(** ** The stream operators (lines 63-98) *)

Definition bytes_of_string (s : string) : list Z :=
  map (fun a => Z.of_N (N_of_ascii a)) (list_ascii_of_string s).

(** [operator<<] on a C string *)
Definition put_str (o : list Z) (s : string) : list Z := o ++ bytes_of_string s.

(** [operator<< (o, std::uint8_t)] *)
Definition put_u8 (o : list Z) (v : Z) : list Z := o ++ [v].

(** [operator<< (o, std::uint16_t)] *)
Definition put_u16 (o : list Z) (v : Z) : list Z :=
  (o ++ [Z.land (Z.shiftr v 0) 0xFF]) ++ [Z.land (Z.shiftr v 8) 0xFF].

(** [operator<< (o, std::uint32_t)] *)
Definition put_u32 (o : list Z) (v : Z) : list Z :=
  (((o ++ [Z.land (Z.shiftr v 0) 0xFF]) ++ [Z.land (Z.shiftr v 8) 0xFF])
     ++ [Z.land (Z.shiftr v 16) 0xFF]) ++ [Z.land (Z.shiftr v 24) 0xFF].

(** [output << static_cast<T> (v)]: each operand is converted to the type
    the source casts it to before the operator for that type appends it. *)
Declare Scope stream_scope.
Delimit Scope stream_scope with stream.
Notation "o <<str s" := (put_str o s) (at level 40, left associativity) : stream_scope.
Notation "o <<u8 v" := (put_u8 o (to_u8 v)) (at level 40, left associativity) : stream_scope.
Notation "o <<u16 v" := (put_u16 o (to_u16 v)) (at level 40, left associativity) : stream_scope.
Notation "o <<u32 v" := (put_u32 o (to_u32 v)) (at level 40, left associativity) : stream_scope.

(** [v.size ()] *)
Definition size {A : Type} (v : list A) : Z := Z.of_nat (length v).

(* ------------------------------------------------------------------ *)
(** ** ContainerSerializer: the buffer of [BCFNT::serialize] *)

(** The offsets of lines 250-284. *)
Record Layout : Type := {
  finfOffset : Z;
  tglpOffset : Z;
  cwdhOffset : Z;
  cmapOffset : Z;
  sheetOffset : Z;
  fileSize : Z
}.

(** Lines 266-281: the size of the CMAP blocks; a method other than
    Direct reaches [abort ()]. *)
Fixpoint cmap_sizes (cmaps : list CMAP) (fileSize : Z) : outcome Z :=
  match cmaps with
  | [] => Done fileSize
  | cmap :: rest =>
      let fileSize := to_u32 (fileSize + 0x14) in
      match mappingMethod cmap with
      | CMAP_TYPE_DIRECT => cmap_sizes rest (to_u32 (fileSize + 0x2))
      | _ => Aborted
      end
  end.

Definition compute_layout (b : BCFNT) : outcome Layout :=
  let fileSize := 0 in
  let fileSize := to_u32 (fileSize + 0x14) in
  let finfOffset := fileSize in
  let fileSize := to_u32 (fileSize + 0x20) in
  let tglpOffset := fileSize in
  let fileSize := to_u32 (fileSize + 0x20) in
  let cwdhOffset := fileSize in
  let fileSize := to_u32 (fileSize + 0x10) in
  let fileSize := to_u32 (fileSize + 3 * size (widths b)) in
  let cmapOffset := fileSize in
  fileSize <- cmap_sizes (cmaps b) fileSize ;;
  let sheetOffset := fileSize in
  let fileSize := to_u32 (fileSize + size (sheetData b)) in
  Done {| finfOffset := finfOffset; tglpOffset := tglpOffset;
          cwdhOffset := cwdhOffset; cmapOffset := cmapOffset;
          sheetOffset := sheetOffset; fileSize := fileSize |}.

Local Open Scope stream_scope.

(** Lines 290-295 *)
Definition write_cfnt (output : list Z) (fileSize numBlocks : Z) : list Z :=
  output <<str "CFNT"
         <<u16 0xFEFF
         <<u16 0x14
         <<u32 0x3
         <<u32 fileSize
         <<u32 numBlocks.

(** Lines 299-314 *)
Definition write_finf (output : list Z) (b : BCFNT) (l : Layout) : list Z :=
  output <<str "FINF"
         <<u32 0x20
         <<u8 0x1
         <<u8 lineFeed b
         <<u16 altIndex b
         <<u8 0x0
         <<u8 0x0
         <<u8 0x0
         <<u8 0x1
         <<u32 to_u32 (tglpOffset l + 8)
         <<u32 to_u32 (cwdhOffset l + 8)
         <<u32 to_u32 (cmapOffset l + 8)
         <<u8 height b
         <<u8 width b
         <<u8 ascent b
         <<u8 0x0.

(** Lines 318-331 *)
Definition write_tglp (output : list Z) (b : BCFNT) (l : Layout) : list Z :=
  output <<str "TGLP"
         <<u32 0x20
         <<u8 24
         <<u8 30
         <<u8 ascent b
         <<u8 maxWidth b
         <<u32 size (sheetData b)
         <<u16 numSheets b
         <<u16 0xB
         <<u16 10
         <<u16 10
         <<u16 256
         <<u16 512
         <<u32 sheetOffset l.

(** Lines 342-347 *)
Definition write_widths (output : list Z) (ws : list CharWidthInfo) : list Z :=
  fold_left (fun o info =>
               o <<u8 left info <<u8 glyphWidth info <<u8 charWidth info)
            ws output.

(** Lines 336-347 *)
Definition write_cwdh (output : list Z) (b : BCFNT) : list Z :=
  write_widths
    (output <<str "CWDH"
            <<u32 (0x10 + 3 * size (widths b))
            <<u16 0
            <<u16 size (widths b)
            <<u32 0)
    (widths b).

(** Lines 356-367: the header of one CMAP block; [is_last] is
    [&cmap == &cmaps.back ()]. *)
Definition write_cmap_header (output : list Z) (cmap : CMAP)
    (cmapOffset sz : Z) (is_last : bool) : list Z :=
  let output :=
    output <<str "CMAP"
           <<u32 sz
           <<u16 codeBegin cmap
           <<u16 codeEnd cmap
           <<u16 method_tag (mappingMethod cmap)
           <<u16 0x0 in
  if is_last then output <<u32 0
  else output <<u32 (cmapOffset + sz + 8).

(** Lines 349-385.  The last element is the one with nothing after it;
    a [dynamic_cast] to a reference of the wrong class throws, which ends
    the run as [abort ()] does. *)
Fixpoint write_cmaps (cmaps : list CMAP) (cmapOffset : Z) (output : list Z)
  : outcome (list Z) :=
  match cmaps with
  | [] => Done output
  | cmap :: rest =>
      _ <- asserting (size output =? cmapOffset) ;;
      let sz := to_u32 (0x14 + 0x2) in
      let output :=
        write_cmap_header output cmap cmapOffset sz
          (match rest with [] => true | _ => false end) in
      output <-
        match mappingMethod cmap with
        | CMAP_TYPE_DIRECT =>
            match data cmap with
            | CMAPDirect offset => Done (output <<u16 offset)
            | _ => Aborted
            end
        | _ => Aborted
        end ;;
      write_cmaps rest (to_u32 (cmapOffset + sz)) output
  end.

(** Lines 248-391: the buffer, with every [assert] of the source. *)
Definition serialize_buffer (b : BCFNT) : outcome (list Z) :=
  l <- compute_layout b ;;
  let numBlocks := to_u32 (3 + size (cmaps b)) in
  let output := write_cfnt [] (fileSize l) numBlocks in
  _ <- asserting (size output =? finfOffset l) ;;
  let output := write_finf output b l in
  _ <- asserting (size output =? tglpOffset l) ;;
  let output := write_tglp output b l in
  _ <- asserting (size output =? cwdhOffset l) ;;
  let output := write_cwdh output b in
  output <- write_cmaps (cmaps b) (cmapOffset l) output ;;
  _ <- asserting (size output =? sheetOffset l) ;;
  let output := output ++ sheetData b in
  _ <- asserting (size output =? fileSize l) ;;
  Done output.

Local Close Scope stream_scope.

(* ------------------------------------------------------------------ *)
(** ** Persistence: lines 393-424 *)

(** The C library as the run meets it: whether [fopen] and [fclose]
    succeed, and for the n-th call of [fwrite] how many bytes the stream
    takes at most and whether [ferror] holds after it. *)
Record IOEnv : Type := {
  fopen_ok : bool;
  fwrite_accepts : nat -> nat;
  fwrite_error : nat -> bool;
  fclose_ok : bool
}.

(** One call of [fwrite] as the loop saw it. *)
Record WriteCall : Type := {
  wc_offset : Z;      (* the first byte offered *)
  wc_requested : Z;   (* output.size () - offset *)
  wc_rc : Z;          (* the return value *)
  wc_error : bool     (* std::ferror (fp) after the call *)
}.

(** The destination file. *)
Record File : Type := {
  content : list Z;
  calls : list WriteCall;
  closed : bool
}.

Definition fclose (f : File) : File :=
  {| content := content f; calls := calls f; closed := true |}.

(** [std::fwrite (&output[offset], 1, output.size () - offset, fp)] *)
Definition fwrite (env : IOEnv) (output : list Z) (offset : Z) (f : File)
  : Z * File :=
  let n := length (calls f) in
  let requested := size output - offset in
  let rc := Z.min requested (Z.of_nat (fwrite_accepts env n)) in
  (rc,
   {| content := content f ++ firstn (Z.to_nat rc) (skipn (Z.to_nat offset) output);
      calls := calls f ++ [{| wc_offset := offset; wc_requested := requested;
                              wc_rc := rc; wc_error := fwrite_error env n |}];
      closed := closed f |}).

(** The [while] loop of lines 398-416 and the [fclose] after it. *)
Fixpoint write_loop (env : IOEnv) (fuel : nat) (output : list Z) (offset : Z)
    (f : File) : outcome (bool * File) :=
  match fuel with
  | O => OutOfFuel
  | S fuel' =>
      if offset <? size output then
        let '(rc, f') := fwrite env output offset f in
        let err := fwrite_error env (length (calls f)) in
        if negb (rc =? size output - offset) && ((rc =? 0) || err)
        then Done (false, fclose f')
        else write_loop env fuel' output (offset + rc) f'
      else
        if fclose_ok env then Done (true, fclose f) else Done (false, fclose f)
  end.

(** [fopen (path, "wb")] and what follows it; [None] when the file could
    not be opened. *)
Definition persist (env : IOEnv) (fuel : nat) (output : list Z)
  : outcome (bool * option File) :=
  if fopen_ok env then
    r <- write_loop env fuel output 0
           {| content := []; calls := []; closed := false |} ;;
    Done (fst r, Some (snd r))
  else Done (false, None).

(** [BCFNT::serialize (path)] *)
Definition serialize (env : IOEnv) (fuel : nat) (b : BCFNT)
  : outcome (bool * option File) :=
  output <- serialize_buffer b ;;
  persist env fuel output.

(* ------------------------------------------------------------------ *)
(** ** Little-endian encodings, as a reader of the container sees them *)

(** The [n] bytes of [v], least-significant byte first. *)
Fixpoint le_bytes (n : nat) (v : Z) : list Z :=
  match n with
  | O => []
  | S n' => v mod 256 :: le_bytes n' (v / 256)
  end.

(** The value of a byte string whose first byte is the least significant. *)
Fixpoint le_value (bs : list Z) : Z :=
  match bs with
  | [] => 0
  | b :: bs' => b + 256 * le_value bs'
  end.

(** A value that fits one byte. *)
Definition is_byte (b : Z) : Prop := 0 <= b < 256.

(* ------------------------------------------------------------------ *)
(** ** The vocabulary of the statements *)

(** [above lo l]: [l] ascends strictly and starts above [lo]. *)
Fixpoint above (lo : Z) (l : list Z) : Prop :=
  match l with
  | [] => True
  | a :: l' => lo < a /\ above a l'
  end.

(** The code points of a map, in ascending order. *)
Definition keys (m : FaceMap) : list Z := map fst m.

(** The glyph indices of a map, in ascending order of the code points. *)
Definition indices (m : FaceMap) : list Z := map (fun kv => cfntIndex (snd kv)) m.

(** [enumerates next cur l]: from the answer [cur] on, the face reports the
    pairs of [l] one after the other and then the code 0. *)
Fixpoint enumerates (next : N -> N * Z) (cur : N * Z) (l : list (N * Z)) : Prop :=
  match l with
  | [] => fst cur = 0%N
  | p :: l' => cur = p /\ fst p <> 0%N /\ enumerates next (next (fst p)) l'
  end.

(** The face reports exactly the pairs of [l], from its first one on. *)
Definition face_enumerates (face : FT_Face) (l : list (N * Z)) : Prop :=
  enumerates (FT_Get_Next_Char face) (FT_Get_First_Char face) l.

(** The code points of an enumeration, in its order. *)
Definition codes (l : list (N * Z)) : list Z := map (fun p => Z.of_N (fst p)) l.

(** The entries of an enumeration numbered from [n] on in its order. *)
Fixpoint number_from (n : Z) (l : list (N * Z)) : FaceMap :=
  match l with
  | [] => []
  | (c, fi) :: l' =>
      (Z.of_N c, {| code := Z.of_N c; faceIndex := fi; cfntIndex := n |})
        :: number_from (n + 1) l'
  end.

(** The test of line 191 on a glyph index. *)
Definition opens_sheet (idx : Z) : bool := idx mod 170 =? 0.

(** Whether the glyph of an entry rasterizes. *)
Definition loads (face : FT_Face) (cm : CharMap) : bool :=
  match FT_Load_Glyph face (faceIndex cm) with Some _ => true | None => false end.

(** A width entry made of the metrics of a glyph the face loaded, each
    divided by 64 rounding down and narrowed to its 8-bit field. *)
Definition floored_entry (face : FT_Face) (w : CharWidthInfo) : Prop :=
  exists fi g,
    FT_Load_Glyph face fi = Some g /\
    left w = to_i8 (horiBearingX g / 64) /\
    glyphWidth w = to_u8 (metrics_width g / 64) /\
    charWidth w = to_u8 (horiAdvance g / 64).

(** The width entry of a glyph with each of its three metrics divided by
    64 rounding down and narrowed to its 8-bit field, the left bearing to
    a signed one. *)
Definition floored (g : Glyph) : CharWidthInfo :=
  {| left := to_i8 (horiBearingX g / 64);
     glyphWidth := to_u8 (metrics_width g / 64);
     charWidth := to_u8 (horiAdvance g / 64) |}.

(** The floored entries of the glyphs the face returns for the entries of
    a map, in the order of the code points; a glyph that does not load
    returns no metrics. *)
Definition floored_widths (face : FT_Face) (m : FaceMap) : list CharWidthInfo :=
  flat_map (fun kv =>
              match FT_Load_Glyph face (faceIndex (snd kv)) with
              | Some g => [floored g]
              | None => []
              end) m.

(** The sections of the file as a reader meets them, every multi-byte
    field least-significant byte first. *)
Definition cfnt_block (fileSize numBlocks : Z) : list Z :=
  bytes_of_string "CFNT" ++ le_bytes 2 0xFEFF ++ le_bytes 2 0x14 ++
  le_bytes 4 0x3 ++ le_bytes 4 fileSize ++ le_bytes 4 numBlocks.

(** The font-info block. *)
Definition finf_block (b : BCFNT) (l : Layout) : list Z :=
  bytes_of_string "FINF" ++ le_bytes 4 0x20 ++ le_bytes 1 0x1 ++
  le_bytes 1 (lineFeed b) ++ le_bytes 2 (altIndex b) ++
  le_bytes 1 0 ++ le_bytes 1 0 ++ le_bytes 1 0 ++ le_bytes 1 0x1 ++
  le_bytes 4 (to_u32 (tglpOffset l + 8)) ++
  le_bytes 4 (to_u32 (cwdhOffset l + 8)) ++
  le_bytes 4 (to_u32 (cmapOffset l + 8)) ++
  le_bytes 1 (height b) ++ le_bytes 1 (width b) ++ le_bytes 1 (ascent b) ++
  le_bytes 1 0.

(** The texture-parameters block. *)
Definition tglp_block (b : BCFNT) (l : Layout) : list Z :=
  bytes_of_string "TGLP" ++ le_bytes 4 0x20 ++ le_bytes 1 24 ++ le_bytes 1 30 ++
  le_bytes 1 (ascent b) ++ le_bytes 1 (maxWidth b) ++
  le_bytes 4 (size (sheetData b)) ++ le_bytes 2 (numSheets b) ++
  le_bytes 2 0xB ++ le_bytes 2 10 ++ le_bytes 2 10 ++ le_bytes 2 256 ++
  le_bytes 2 512 ++ le_bytes 4 (sheetOffset l).

(** The 16-byte header of the width block. *)
Definition cwdh_header (b : BCFNT) : list Z :=
  bytes_of_string "CWDH" ++ le_bytes 4 (0x10 + 3 * size (widths b)) ++
  le_bytes 2 0 ++ le_bytes 2 (size (widths b)) ++ le_bytes 4 0.

(** Three bytes for each glyph: left bearing, glyph width, advance. *)
Definition width_bytes (ws : list CharWidthInfo) : list Z :=
  flat_map (fun w => [to_u8 (left w); to_u8 (glyphWidth w); to_u8 (charWidth w)]) ws.

(** The width block. *)
Definition cwdh_block (b : BCFNT) : list Z := cwdh_header b ++ width_bytes (widths b).

(** The payload of a Direct range. *)
Definition direct_offset (cm : CMAP) : Z :=
  match data cm with CMAPDirect o => o | _ => 0 end.

(** One character-map block, 22 bytes, at offset [off]. *)
Definition cmap_block (cm : CMAP) (off : Z) (is_last : bool) : list Z :=
  bytes_of_string "CMAP" ++ le_bytes 4 (to_u32 (0x14 + 0x2)) ++
  le_bytes 2 (codeBegin cm) ++ le_bytes 2 (codeEnd cm) ++
  le_bytes 2 (method_tag (mappingMethod cm)) ++ le_bytes 2 0 ++
  le_bytes 4 (if is_last then 0 else off + to_u32 (0x14 + 0x2) + 8) ++
  le_bytes 2 (direct_offset cm).

(** The CMAP blocks, the first one at [off]. *)
Fixpoint cmap_block_list (cms : list CMAP) (off : Z) : list (list Z) :=
  match cms with
  | [] => []
  | cm :: rest =>
      cmap_block cm off (match rest with [] => true | _ => false end)
        :: cmap_block_list rest (to_u32 (off + to_u32 (0x14 + 0x2)))
  end.

(** The whole file. *)
Definition container (b : BCFNT) (l : Layout) : list Z :=
  cfnt_block (fileSize l) (3 + size (cmaps b)) ++ finf_block b l ++
  tglp_block b l ++ cwdh_block b ++
  concat (cmap_block_list (cmaps b) (cmapOffset l)) ++ sheetData b.

(** The [n] entries of a width block: three bytes each, the first one a
    signed byte. *)
Fixpoint decode_widths (n : nat) (bs : list Z) : list CharWidthInfo :=
  match n, bs with
  | S n', b0 :: b1 :: b2 :: rest =>
      {| left := to_i8 b0; glyphWidth := b1; charWidth := b2 |}
        :: decode_widths n' rest
  | _, _ => []
  end.

(** The test of lines 401-403 on one call of [fwrite]: it wrote less than
    it was asked to, and either nothing at all or with the error
    indicator set. *)
Definition unrecoverable (w : WriteCall) : bool :=
  negb (wc_rc w =? wc_requested w) && ((wc_rc w =? 0) || wc_error w).

(** The bytes the calls wrote. *)
Fixpoint written (ws : list WriteCall) : Z :=
  match ws with
  | [] => 0
  | w :: ws' => wc_rc w + written ws'
  end.

(** [retries output off ws]: each call of [ws] offered the whole suffix of
    [output] that the calls before it had left unwritten, [off] bytes
    having been written before the first of them. *)
Fixpoint retries (output : list Z) (off : Z) (ws : list WriteCall) : Prop :=
  match ws with
  | [] => True
  | w :: ws' =>
      wc_offset w = off /\ wc_requested w = size output - off /\
      retries output (off + wc_rc w) ws'
  end.

(** Whether a run returned. *)
Definition finished {A : Type} (o : outcome A) : bool :=
  match o with Done _ => true | _ => false end.

(** An atlas with nothing in it. *)
Definition empty_atlas : BCFNT :=
  {| lineFeed := 0; height := 0; width := 0; maxWidth := 0; ascent := 0;
     altIndex := 0; cmaps := []; widths := []; sheetData := []; numSheets := 0 |}.

(** The atlas a run of the constructor returned. *)
Definition the_atlas (o : outcome BCFNT) : BCFNT :=
  match o with Done b => b | _ => empty_atlas end.

(** The buffer a run of the serializer built. *)
Definition the_buffer (o : outcome (list Z)) : list Z :=
  match o with Done out => out | _ => [] end.

(** What a run returned, seen through [f]. *)
Definition omap {A B : Type} (f : A -> B) (o : outcome A) : outcome B :=
  match o with
  | Done a => Done (f a)
  | Aborted => Aborted
  | OutOfFuel => OutOfFuel
  end.

(* ------------------------------------------------------------------ *)
(** ** Invariants of the loops *)

(** What holds of the map while the enumeration loop runs with the next
    glyph index at [n]. *)
Record indexed (m : FaceMap) (n : Z) : Prop := {
  ix_keys : above 0 (keys m);
  ix_entries :
    Forall (fun kv => fst kv < u16_max /\ code (snd kv) = fst kv /\
                      0 <= cfntIndex (snd kv) < n) m;
  ix_nodup : NoDup (indices m)
}.

(** The test of line 154 against a last range that exists. *)
Definition starts_range (b : CMAP) (c : Z) : bool :=
  (c =? 0) || negb (codeEnd b =? c - 1).

(** The range [b] with its last code point moved to [e]. *)
Definition with_end (b : CMAP) (e : Z) : CMAP :=
  {| codeBegin := codeBegin b; codeEnd := e;
     mappingMethod := mappingMethod b; data := data b |}.

(** The code points the loop of line 173 visits for one range. *)
Definition range_codes (cm : CMAP) : list Z :=
  zrange_from (codeBegin cm) (Z.to_nat (codeEnd cm - codeBegin cm + 1)).

(** The code points the loops of lines 171-173 visit in all. *)
Definition visited (cms : list CMAP) : list Z := flat_map range_codes cms.

(** What every range the constructor makes satisfies. *)
Definition range_ok (cm : CMAP) : Prop :=
  0 < codeBegin cm <= codeEnd cm /\ codeEnd cm < u16_max /\
  mappingMethod cm = CMAP_TYPE_DIRECT /\ exists o, data cm = CMAPDirect o.

(** The loops of lines 171-235 as one pass over the code points they
    visit. *)
Fixpoint glyph_fold {IM : Imaging} (face : FT_Face) (faceMap : FaceMap)
    (baseline : Z) (ks : list Z) (st : AtlasState) : outcome AtlasState :=
  match ks with
  | [] => Done st
  | k :: ks' =>
      st' <- glyph_body face faceMap baseline k st ;;
      glyph_fold face faceMap baseline ks' st'
  end.

(** A width entry that fits its three fields. *)
Definition width_ok (w : CharWidthInfo) : Prop :=
  -128 <= left w < 128 /\ 0 <= glyphWidth w < 256 /\ 0 <= charWidth w < 256.

(** What holds of the state between two glyphs. *)
Record atlas_inv (st : AtlasState) : Prop := {
  ai_sheet : forall s, st_sheet st = Some s -> columns s = 256 /\ rows s = 512;
  ai_data : size (st_sheetData st) = 65536 * st_numSheets st;
  ai_count : 0 <= st_numSheets st;
  ai_widths : Forall width_ok (st_widths st)
}.

(** 1 when a sheet is in progress. *)
Definition opened (st : AtlasState) : Z :=
  match st_sheet st with Some _ => 1 | None => 0 end.

(** What holds of every atlas the constructor returns. *)
Record atlas_ok (b : BCFNT) : Prop := {
  ok_cmaps : Forall range_ok (cmaps b);
  ok_widths : Forall width_ok (widths b);
  ok_nwidths : size (widths b) < u16_max;
  ok_ncmaps : size (cmaps b) < u16_max;
  ok_data : size (sheetData b) = 65536 * numSheets b;
  ok_sheets : 0 <= numSheets b <= 386
}.

(** The layout of an atlas the constructor made: no offset wraps. *)
Definition layout_of (b : BCFNT) : Layout :=
  {| finfOffset := 0x14; tglpOffset := 0x34; cwdhOffset := 0x54;
     cmapOffset := 0x64 + 3 * size (widths b);
     sheetOffset := 0x64 + 3 * size (widths b) + 22 * size (cmaps b);
     fileSize := 0x64 + 3 * size (widths b) + 22 * size (cmaps b)
                 + size (sheetData b) |}.

(** What holds of the sheets once the glyph indices below [k] have been
    dealt with. *)
Definition sheet_inv (k : Z) (st : AtlasState) : Prop :=
  atlas_inv st /\
  (k = 0 -> st_sheet st = None /\ st_numSheets st = 0) /\
  (0 < k -> st_sheet st <> None /\ st_numSheets st = (k - 1) / 170).

(** What holds of the file each time the loop tests its condition. *)
Record writing (output : list Z) (offset : Z) (f : File) : Prop := {
  wr_offset : 0 <= offset <= size output;
  wr_written : written (calls f) = offset;
  wr_content : content f = firstn (Z.to_nat offset) output;
  wr_retries : retries output 0 (calls f);
  wr_sound : Forall (fun w => unrecoverable w = false) (calls f)
}.

(* ------------------------------------------------------------------ *)
(** ** Sample collaborators, faces and streams *)

(** An 8-bit-to-16-bit quantum and an identity swizzle. *)
#[local] Instance sample_imaging : Imaging := {|
  transparent := {| red := 0; green := 0; blue := 0; alpha := 0 |};
  bits_to_quantum8 := fun v => v * 257;
  quantum_to_bits4 := fun q => q / 4369;
  swizzle := fun s => s;
  swizzle_columns := fun _ => eq_refl;
  swizzle_rows := fun _ => eq_refl
|}.

(** Metrics kept in [std::uint8_t] members. *)
#[local] Instance sample_members : Members := {| metric_member := to_u8 |}.

(** The successor of [c] in an enumeration given as a list; [0] after the
    last one. *)
Fixpoint next_in (chars : list (N * Z)) (c : N) : N * Z :=
  match chars with
  | (c1, _) :: tl =>
      if (c =? c1)%N then hd (0%N, 0) tl else next_in tl c
  | [] => (0%N, 0)
  end.

(** A face that enumerates [chars] and loads glyphs by [glyphs]. *)
Definition sample_face (chars : list (N * Z)) (glyphs : Z -> option Glyph)
  : FT_Face :=
  {| metrics_height := 1216; metrics_max_advance := 1024;
     metrics_ascender := 960;
     bbox_xMin := -64; bbox_xMax := 1088; bbox_yMin := -256; bbox_yMax := 1024;
     FT_Get_First_Char := hd (0%N, 0) chars;
     FT_Get_Next_Char := next_in chars;
     FT_Load_Glyph := glyphs |}.

(** A 2x2 glyph with a left bearing of -1/64 pixel. *)
Definition sample_glyph : Glyph :=
  {| horiBearingX := -1; metrics_width := 128; horiAdvance := 200;
     bitmap_rows := 2; bitmap_width := 2; bitmap_buffer := [255; 128; 64; 0];
     bitmap_left := 0; bitmap_top := 14 |}.

(** The code points [first, first + n). *)
Definition code_run (first : N) (n : nat) : list (N * Z) :=
  map (fun k => ((first + N.of_nat k)%N, Z.of_nat k + 1)) (seq 0 n).

(** A face with the code points 'A', 'B', 'C', all of which rasterize. *)
Definition face_ABC : FT_Face := sample_face (code_run 65 3) (fun _ => Some sample_glyph).

(** A face with the code points 'A', 'B', 'C', none of which rasterizes. *)
Definition face_ABC_unrendered : FT_Face :=
  sample_face (code_run 65 3) (fun _ => None).

(** A face that reports 'C' before 'A'; the glyph of 'A' does not load. *)
Definition face_CA : FT_Face :=
  sample_face [(67%N, 1); (65%N, 2)]
              (fun i => if i =? 2 then None else Some sample_glyph).

(** A face that reports 'A' and then the code point 0x10000. *)
Definition face_A_10000 : FT_Face :=
  sample_face [(65%N, 1); (65536%N, 2)] (fun _ => Some sample_glyph).

(** A face with the space, '?' and 'A', in this order. *)
Definition face_space_question_A : FT_Face :=
  sample_face [(32%N, 1); (63%N, 2); (65%N, 3)] (fun _ => Some sample_glyph).

(** 171 consecutive code points from 'A' on; the second glyph, whose
    glyph index is 1, does not rasterize. *)
Definition face_171 : FT_Face :=
  sample_face (code_run 65 171)
              (fun i => if i =? 2 then None else Some sample_glyph).

(** The map of a face with the code points 10, 'A', 'B', 'C' and 100. *)
Definition map_10_ABC_100 : FaceMap :=
  number_from 0 [(10%N, 1); (65%N, 2); (66%N, 3); (67%N, 4); (100%N, 5)].

(** Its map. *)
Definition map_space_question_A : FaceMap :=
  number_from 0 [(32%N, 1); (63%N, 2); (65%N, 3)].

(** The atlas of such a face: one range, no width entry, no sheet. *)
Definition atlas_ABC_unrendered : BCFNT :=
  the_atlas (BCFNT_ctor face_ABC_unrendered 10).

(** A stream that takes at most 50 bytes at a time, without error. *)
Definition env_50 : IOEnv :=
  {| fopen_ok := true; fwrite_accepts := fun _ => 50%nat;
     fwrite_error := fun _ => false; fclose_ok := true |}.

(** A stream that takes 50 bytes and then fails. *)
Definition env_disk_full : IOEnv :=
  {| fopen_ok := true;
     fwrite_accepts := fun n => match n with O => 50%nat | _ => O end;
     fwrite_error := fun n => match n with O => false | _ => true end;
     fclose_ok := true |}.

(* ------------------------------------------------------------------ *)
(** ** The vocabulary of the further properties *)

(** The width entries the loops of lines 171-189 record for the entries
    of a map: one for each glyph that rasterizes, in the order of the
    code points. *)
Definition recorded_widths (face : FT_Face) (m : FaceMap) : list CharWidthInfo :=
  flat_map (fun kv =>
              match FT_Load_Glyph face (faceIndex (snd kv)) with
              | Some g => [width_info g]
              | None => []
              end) m.

(** The entries whose glyph rasterizes and whose glyph index passes the
    test of line 191. *)
Definition sheet_openers (face : FT_Face) (m : FaceMap) : FaceMap :=
  filter (fun kv => loads face (snd kv) && opens_sheet (cfntIndex (snd kv))) m.

(** The first entry, in the order of the code points, whose glyph
    rasterizes. *)
Definition first_loaded (face : FT_Face) (m : FaceMap) : option (Z * CharMap) :=
  find (fun kv => loads face (snd kv)) m.

(** A face without any code point. *)
Definition face_empty : FT_Face := sample_face [] (fun _ => None).

(** A face with 'A', 'B' and 'C' whose first glyph does not rasterize. *)
Definition face_ABC_first_missing : FT_Face :=
  sample_face (code_run 65 3)
              (fun i => if i =? 1 then None else Some sample_glyph).

(** An atlas with one Table range, as a later pass over the ranges could
    leave it. *)
Definition atlas_with_table : BCFNT :=
  {| lineFeed := 19; height := 20; width := 18; maxWidth := 16; ascent := 15;
     altIndex := 0;
     cmaps := [{| codeBegin := 65; codeEnd := 66;
                  mappingMethod := CMAP_TYPE_TABLE; data := CMAPTable [0; 1] |}];
     widths := []; sheetData := []; numSheets := 0 |}.

(** [ranges_apart cms]: between the last code point of a range and the
    first code point of the next one at least one code point is left
    out. *)
Fixpoint ranges_apart (cms : list CMAP) : Prop :=
  match cms with
  | a :: (b :: _) as rest => codeEnd a + 1 < codeBegin b /\ ranges_apart rest
  | _ => True
  end.

(** A reader of the character maps: the first range that holds the code
    point gives its glyph index, the payload of the range plus the
    distance of the code point from the first one of the range, as a
    16-bit value. *)
Fixpoint lookup_cmaps (cms : list CMAP) (c : Z) : option Z :=
  match cms with
  | [] => None
  | cm :: rest =>
      if (codeBegin cm <=? c) && (c <=? codeEnd cm)
      then Some (to_u16 (direct_offset cm + (c - codeBegin cm)))
      else lookup_cmaps rest c
  end.

(** The glyph index the enumeration loop gave a code point, if it is in
    the map. *)
Definition glyph_index (m : FaceMap) (c : Z) : option Z :=
  if count c m then Some (cfntIndex (at_key c m)) else None.

(** A call of [fwrite] after which the loop of lines 398-416 goes on: it
    wrote at least one byte, no more than it was asked to, and did not
    meet the test of lines 401-403. *)
Definition advancing (w : WriteCall) : Prop :=
  0 < wc_rc w <= wc_requested w /\ unrecoverable w = false.

(** What holds of any call of [fwrite] the loop makes: it is asked for at
    least one byte and writes no more than it is asked to. *)
Definition well_formed_call (w : WriteCall) : Prop :=
  0 < wc_requested w /\ 0 <= wc_rc w <= wc_requested w.

(** A reader of the file: the [n]-byte little-endian field at offset
    [off]. *)
Definition read_le (n : nat) (out : list Z) (off : Z) : Z :=
  le_value (firstn n (skipn (Z.to_nat off) out)).

(** The [n] bytes at offset [off]. *)
Definition read_bytes (n : nat) (out : list Z) (off : Z) : list Z :=
  firstn n (skipn (Z.to_nat off) out).

(** A reader of the character maps: from the pointer [ptr], which leads
    eight bytes into a CMAP block, it takes the first and the last code
    point, the mapping method and the first 16-bit word of the payload,
    and follows the pointer to the next block until that pointer is 0.
    [n] bounds the number of blocks read. *)
Fixpoint read_cmaps (n : nat) (out : list Z) (ptr : Z) : list (Z * Z * Z * Z) :=
  match n with
  | O => []
  | S n' =>
      (read_le 2 out ptr, read_le 2 out (ptr + 2), read_le 2 out (ptr + 4),
       read_le 2 out (ptr + 12))
        :: (let next := read_le 4 out (ptr + 8) in
            if next =? 0 then [] else read_cmaps n' out next)
  end.

(** What the reader is to find for a range. *)
Definition cmap_fields (cm : CMAP) : Z * Z * Z * Z :=
  (codeBegin cm, codeEnd cm, method_tag (mappingMethod cm), direct_offset cm).

(** The cell of a glyph index on its sheet (lines 204-206): ten cells of
    24 pixels in a row, rows of 30 pixels, 170 cells on a sheet. *)
Definition cell_of (idx : Z) : Z * Z :=
  ((idx mod 170) mod 10 * 24, (idx mod 170) / 10 * 30).

(** The pixel at column [X] of row [Y] lies in the cell of [idx]. *)
Definition in_cell_of (idx X Y : Z) : Prop :=
  fst (cell_of idx) <= X < fst (cell_of idx) + 24 /\
  snd (cell_of idx) <= Y < snd (cell_of idx) + 30.

(** Where the bitmap pixel at column [x] of row [y] goes within the cell
    (lines 216-217). *)
Definition cell_pos (baseline : Z) (g : Glyph) (x y : Z) : Z * Z :=
  (to_i32 (x + bitmap_left g), to_i32 (y + (baseline - bitmap_top g))).

(** The test of line 219, negated: the position is inside the cell. *)
Definition in_cell (p : Z * Z) : bool :=
  negb ((fst p <? 0) || (fst p >=? 24) || (snd p <? 0) || (snd p >=? 30)).

(** The colour of lines 224-228 for the bitmap pixel at column [x] of row
    [y]: black, with the coverage as its alpha. *)
Definition coverage_pixel {IM : Imaging} (g : Glyph) (x y : Z) : Pixel :=
  {| red := bits_to_quantum8 0; green := bits_to_quantum8 0;
     blue := bits_to_quantum8 0;
     alpha := bits_to_quantum8
                (nth (Z.to_nat (y * bitmap_width g + x)) (bitmap_buffer g) 0) |}.

(** The 4-bit alpha of the pixel at column [x] of row [y] of a sheet. *)
Definition alpha4 {IM : Imaging} (s : Image) (x y : Z) : Z :=
  quantum_to_bits4 (alpha (pixel_at s x y)).

(** The bitmap positions in the order the loops of lines 212-214 visit
    them. *)
Definition bitmap_positions (g : Glyph) : list (Z * Z) :=
  flat_map (fun y => map (fun x => (y, x)) (zrange (bitmap_width g)))
           (zrange (bitmap_rows g)).

(** One pass of the inner loop, lines 216-230, on the position [(y, x)]. *)
Definition blit {IM : Imaging} (sheetX sheetY baseline : Z) (g : Glyph)
    (s : Image) (yx : Z * Z) : Image :=
  let p := cell_pos baseline g (snd yx) (fst yx) in
  if in_cell p
  then set_pixel s (sheetX + fst p) (sheetY + snd p) (coverage_pixel g (snd yx) (fst yx))
  else s.

(** Whether the pass on [(y, x)] writes the pixel at column [X] of row [Y]. *)
Definition writes (sheetX sheetY baseline : Z) (g : Glyph) (X Y : Z)
    (yx : Z * Z) : bool :=
  let p := cell_pos baseline g (snd yx) (fst yx) in
  in_cell p && (X =? sheetX + fst p) && (Y =? sheetY + snd p).

(** A 256x512 sheet whose pixel at column [x] of row [y] has the 16-bit
    alpha [4369 * ((x + y) mod 16)]. *)
Definition gradient_sheet : Image :=
  {| columns := 256; rows := 512;
     pixel_at := fun x y => {| red := 0; green := 0; blue := 0;
                               alpha := 4369 * ((x + y) mod 16) |} |}.

(** The sheet a glyph is drawn on (lines 191-202): a new one when its
    glyph index is a multiple of 170, else the one in progress. *)
Definition sheet_before {IM : Imaging} (st : AtlasState) (idx : Z) : option Image :=
  if opens_sheet idx then Some new_sheet else st_sheet st.

(** [drawn baseline g idx s]: the sheet [s] shows the glyph [g] in the
    cell of the glyph index [idx]: every pixel of its bitmap that falls
    inside the cell is where the bearing and the baseline put it, with its
    coverage as alpha. *)
Definition drawn {IM : Imaging} (baseline : Z) (g : Glyph) (idx : Z) (s : Image)
  : Prop :=
  forall x y,
    0 <= x < bitmap_width g -> 0 <= y < bitmap_rows g ->
    in_cell (cell_pos baseline g x y) = true ->
    pixel_at s (fst (cell_of idx) + fst (cell_pos baseline g x y))
               (snd (cell_of idx) + snd (cell_pos baseline g x y)) =
    coverage_pixel g x y.

(** The sheets of a run so far: the finished ones and the one in
    progress. *)
Definition sheets_so_far (st : AtlasState) (finished_sheets : list Image)
  : list Image :=
  finished_sheets ++ match st_sheet st with Some s => [s] | None => [] end.

(** What holds of the texture once the glyph indices below [k], those of
    the entries [pre], have been dealt with. *)
Record texture_inv {IM : Imaging} (face : FT_Face) (baseline k : Z)
    (pre : FaceMap) (st : AtlasState) (finished_sheets : list Image) : Prop := {
  ti_inv : atlas_inv st;
  ti_data : st_sheetData st = flat_map (appendSheet []) finished_sheets;
  ti_count : st_numSheets st = Z.of_nat (length finished_sheets);
  ti_geometry :
    Forall (fun s => columns s = 256 /\ rows s = 512) finished_sheets;
  ti_first : k = 0 -> st_sheet st = None /\ finished_sheets = [];
  ti_open :
    0 < k ->
    st_sheet st <> None /\ Z.of_nat (length finished_sheets) = (k - 1) / 170;
  ti_indices : Forall (fun kv => 0 <= cfntIndex (snd kv) < k) pre;
  ti_glyphs :
    forall kv g,
      In kv pre ->
      FT_Load_Glyph face (faceIndex (snd kv)) = Some g ->
      bitmap_width g <= 2 ^ 32 -> bitmap_rows g <= 2 ^ 32 ->
      exists s,
        nth_error (sheets_so_far st finished_sheets)
                  (Z.to_nat (cfntIndex (snd kv) / 170)) = Some s /\
        drawn baseline g (cfntIndex (snd kv)) s
}.

(* ================================================================== *)
(** * Properties *)

(** ** Integer conversions *)

Lemma to_u8_range z : 0 <= to_u8 z < 256.
Proof. unfold to_u8. change (2 ^ 8) with 256. apply Z.mod_pos_bound. lia. Qed.

Lemma to_u16_range z : 0 <= to_u16 z < 65536.
Proof. unfold to_u16. change (2 ^ 16) with 65536. apply Z.mod_pos_bound. lia. Qed.

Lemma to_u32_range z : 0 <= to_u32 z < 4294967296.
Proof. unfold to_u32. change (2 ^ 32) with 4294967296. apply Z.mod_pos_bound. lia. Qed.

Lemma to_i8_range z : -128 <= to_i8 z < 128.
Proof.
  unfold to_i8. change (2 ^ 8) with 256. change (2 ^ 7) with 128.
  pose proof (Z.mod_pos_bound (z + 128) 256). lia.
Qed.

Lemma to_u8_id z : 0 <= z < 256 -> to_u8 z = z.
Proof. intros. unfold to_u8. apply Z.mod_small. change (2 ^ 8) with 256. lia. Qed.

Lemma to_u16_id z : 0 <= z < 65536 -> to_u16 z = z.
Proof. intros. unfold to_u16. apply Z.mod_small. change (2 ^ 16) with 65536. lia. Qed.

Lemma to_u32_id z : 0 <= z < 4294967296 -> to_u32 z = z.
Proof. intros. unfold to_u32. apply Z.mod_small. change (2 ^ 32) with 4294967296. lia. Qed.

(** A signed byte written as an unsigned one and read back. *)
Lemma to_i8_to_u8 z : -128 <= z < 128 -> to_i8 (to_u8 z) = z.
Proof.
  intros. unfold to_i8, to_u8. change (2 ^ 8) with 256. change (2 ^ 7) with 128.
  destruct (Z_lt_le_dec z 0).
  - replace (z mod 256) with (z + 256).
    + replace ((z + 256 + 128) mod 256) with (z + 128); [lia|].
      apply Z.mod_unique with 1; lia.
    + apply Z.mod_unique with (-1); lia.
  - rewrite (Z.mod_small z) by lia. rewrite Z.mod_small; lia.
Qed.

(** ** The stream operators against [le_bytes] *)

Lemma byte_mask x k : 0 <= k -> Z.land (Z.shiftr x k) 0xFF = (x / 2 ^ k) mod 256.
Proof.
  intros. change 0xFF with (Z.ones 8).
  rewrite Z.land_ones by lia. rewrite Z.shiftr_div_pow2 by lia. reflexivity.
Qed.

Lemma le_bytes_mod n v : le_bytes n (v mod 256 ^ Z.of_nat n) = le_bytes n v.
Proof.
  revert v. induction n as [|n IH]; intros v; [reflexivity|].
  cbn [le_bytes].
  replace (256 ^ Z.of_nat (S n)) with (256 * 256 ^ Z.of_nat n)
    by (rewrite Nat2Z.inj_succ, Z.pow_succ_r; lia).
  assert (Hp : 0 < 256 ^ Z.of_nat n) by (apply Z.pow_pos_nonneg; lia).
  rewrite Z.rem_mul_r by lia.
  set (x := (v / 256) mod 256 ^ Z.of_nat n).
  replace (v mod 256 + 256 * x) with (v mod 256 + x * 256) by lia.
  rewrite Z.mod_add, Z.div_add by lia.
  rewrite Z.mod_mod by lia.
  rewrite (Z.div_small (v mod 256)) by (apply Z.mod_pos_bound; lia).
  rewrite Z.add_0_l. subst x. rewrite IH. reflexivity.
Qed.

Lemma put_u8_le o v : put_u8 o (to_u8 v) = o ++ le_bytes 1 v.
Proof. reflexivity. Qed.

Lemma put_u16_le o v : put_u16 o (to_u16 v) = o ++ le_bytes 2 v.
Proof.
  unfold put_u16. rewrite !byte_mask by lia.
  rewrite <- (le_bytes_mod 2 v). fold (to_u16 v).
  change (256 ^ Z.of_nat 2) with (2 ^ 16). fold (to_u16 v).
  rewrite <- app_assoc. cbn [le_bytes app].
  change (2 ^ 0) with 1. change (2 ^ 8) with 256. rewrite Z.div_1_r.
  reflexivity.
Qed.

Lemma put_u32_le o v : put_u32 o (to_u32 v) = o ++ le_bytes 4 v.
Proof.
  unfold put_u32. rewrite !byte_mask by lia.
  rewrite <- (le_bytes_mod 4 v).
  change (256 ^ Z.of_nat 4) with (2 ^ 32). fold (to_u32 v).
  rewrite <- !app_assoc. cbn [le_bytes app].
  change (2 ^ 0) with 1. change (2 ^ 8) with 256.
  change (2 ^ 16) with (256 * 256). change (2 ^ 24) with (256 * 256 * 256).
  rewrite Z.div_1_r, <- !Z.div_div by lia.
  reflexivity.
Qed.

Lemma le_bytes_to_u32 v : le_bytes 4 (to_u32 v) = le_bytes 4 v.
Proof. exact (le_bytes_mod 4 v). Qed.

Lemma le_value_le_bytes n v : le_value (le_bytes n v) = v mod 256 ^ Z.of_nat n.
Proof.
  revert v. induction n as [|n IH]; intros v.
  - cbn. symmetry. apply Z.mod_1_r.
  - cbn [le_bytes le_value]. rewrite IH.
    replace (256 ^ Z.of_nat (S n)) with (256 * 256 ^ Z.of_nat n)
      by (rewrite Nat2Z.inj_succ, Z.pow_succ_r; lia).
    assert (Hp : 0 < 256 ^ Z.of_nat n) by (apply Z.pow_pos_nonneg; lia).
    rewrite Z.rem_mul_r by lia. reflexivity.
Qed.

Lemma le_bytes_is_byte n v : Forall is_byte (le_bytes n v).
Proof.
  revert v. induction n; intros v; cbn; constructor; auto.
  unfold is_byte. apply Z.mod_pos_bound. lia.
Qed.

(* ------------------------------------------------------------------ *)
(** ** The code-point map *)

Lemma above_In lo l x : above lo l -> In x l -> lo < x.
Proof.
  revert lo. induction l as [|a l IH]; cbn; intros lo H Hin; [contradiction|].
  destruct H as [Ha Hl]. destruct Hin as [->|Hin]; [assumption|].
  specialize (IH a Hl Hin). lia.
Qed.

Lemma above_app lo l1 l2 :
  above lo (l1 ++ l2) <->
  above lo l1 /\ above (last l1 lo) l2.
Proof.
  revert lo. induction l1 as [|a l1 IH]; intros lo.
  - cbn. tauto.
  - cbn [app above]. rewrite IH.
    destruct l1 as [|b l1]; [cbn; tauto|].
    change (last (a :: b :: l1) lo) with (last (b :: l1) lo).
    assert (Hl : forall d d', last (b :: l1) d = last (b :: l1) d').
    { clear. revert b. induction l1 as [|x l1 IH]; intros b d d'; [reflexivity|].
      change (last (b :: x :: l1) d) with (last (x :: l1) d).
      change (last (b :: x :: l1) d') with (last (x :: l1) d'). apply IH. }
    rewrite (Hl lo a). tauto.
Qed.

Lemma above_length lo hi l :
  above lo l -> (forall x, In x l -> x < hi) -> lo < hi ->
  Z.of_nat (length l) <= hi - lo - 1.
Proof.
  revert lo. induction l as [|a l IH]; cbn [length above]; intros lo H Hhi Hlt.
  - lia.
  - destruct H as [Ha Hl].
    assert (a < hi) by (apply Hhi; left; reflexivity).
    specialize (IH a Hl (fun x Hx => Hhi x (or_intror Hx)) ltac:(lia)). lia.
Qed.

Lemma above_NoDup lo l : above lo l -> NoDup l.
Proof.
  revert lo. induction l as [|a l IH]; cbn; intros lo H; constructor.
  - intros Hin. destruct H as [_ H]. pose proof (above_In _ _ _ H Hin). lia.
  - destruct H as [_ H]. eauto.
Qed.

Lemma emplace_cases k v m :
  emplace k v m = m \/ Permutation (emplace k v m) ((k, v) :: m).
Proof.
  induction m as [|[k' v'] m IH]; cbn.
  - right. reflexivity.
  - destruct (k <? k'); [right; reflexivity|].
    destruct (k =? k'); [left; reflexivity|].
    destruct IH as [->|IH]; [left; reflexivity|right].
    rewrite IH. apply perm_swap.
Qed.

Lemma emplace_above lo k v m :
  lo < k -> above lo (keys m) -> above lo (keys (emplace k v m)).
Proof.
  revert lo. induction m as [|[k' v'] m IH]; cbn; intros lo Hk H.
  - auto.
  - destruct H as [Hlo H].
    destruct (Z.ltb_spec k k'); [cbn; auto|].
    destruct (Z.eqb_spec k k'); [cbn; auto|].
    cbn. split; [assumption|]. apply IH; [lia|assumption].
Qed.

(** On a map all of whose keys are below [k], [emplace] appends. *)
Lemma emplace_last k v m :
  (forall x, In x (keys m) -> x < k) -> emplace k v m = m ++ [(k, v)].
Proof.
  induction m as [|[k' v'] m IH]; cbn; intros H; [reflexivity|].
  assert (k' < k) by (apply H; left; reflexivity).
  destruct (Z.ltb_spec k k'); [lia|].
  destruct (Z.eqb_spec k k'); [lia|].
  rewrite IH; auto.
Qed.

Lemma count_In k m : count k m = true <-> In k (keys m).
Proof.
  induction m as [|[k' v'] m IH]; cbn; [intuition discriminate|].
  rewrite orb_true_iff, IH, Z.eqb_eq. intuition congruence.
Qed.

(** With distinct keys, [faceMap[k]] is the value stored under [k]. *)
Lemma at_key_In lo m k v : above lo (keys m) -> In (k, v) m -> at_key k m = v.
Proof.
  revert lo. induction m as [|[k' v'] m IH]; cbn; intros lo H Hin; [contradiction|].
  destruct H as [_ H]. destruct Hin as [Heq|Hin].
  - inversion Heq; subst. rewrite Z.eqb_refl. reflexivity.
  - assert (k' < k) by (apply (above_In _ _ _ H); apply (in_map fst _ _ Hin)).
    destruct (Z.eqb_spec k k'); [lia|]. eauto.
Qed.

Lemma at_key_keys lo m :
  above lo (keys m) -> map (fun k => at_key k m) (keys m) = map snd m.
Proof.
  intros H. unfold keys. rewrite map_map. apply map_ext_in.
  intros [k v] Hin. cbn. eapply at_key_In; eauto.
Qed.

(* ------------------------------------------------------------------ *)
(** ** GlyphIndexer *)

Lemma indexed_nil : indexed [] 0.
Proof. split; cbn; auto using NoDup_nil. Qed.

Lemma indexed_emplace m n k fi :
  indexed m n -> 0 < k < u16_max -> 0 <= n ->
  indexed (emplace k {| code := k; faceIndex := fi; cfntIndex := n |} m) (n + 1).
Proof.
  intros [Hk He Hn] Hr Hn0.
  assert (He' : Forall (fun kv => fst kv < u16_max /\ code (snd kv) = fst kv /\
                                  0 <= cfntIndex (snd kv) < n + 1) m).
  { eapply Forall_impl; [|exact He]. cbn. intuition lia. }
  split.
  - apply emplace_above; [lia|assumption].
  - destruct (emplace_cases k {| code := k; faceIndex := fi; cfntIndex := n |} m)
      as [->|HP]; [assumption|].
    eapply Permutation_Forall; [symmetry; exact HP|].
    constructor; [cbn; lia|assumption].
  - destruct (emplace_cases k {| code := k; faceIndex := fi; cfntIndex := n |} m)
      as [->|HP]; [assumption|].
    unfold indices. eapply Permutation_NoDup.
    + symmetry. apply Permutation_map. exact HP.
    + cbn. constructor; [|assumption].
      intros Hin. apply in_map_iff in Hin. destruct Hin as [kv [Heq Hin]].
      rewrite Forall_forall in He. specialize (He kv Hin). lia.
Qed.

Lemma index_loop_indexed face fuel :
  forall c fi m n m',
    indexed m n -> 0 <= n <= u16_max ->
    index_loop face fuel c fi m n = Done m' ->
    exists n', indexed m' n' /\ 0 <= n' <= u16_max.
Proof.
  induction fuel as [|fuel IH]; intros c fi m n m' Hi Hn Hrun; [discriminate|].
  cbn [index_loop] in Hrun.
  destruct (N.eqb_spec c 0).
  - inversion Hrun; subst. eauto.
  - destruct (Z.leb_spec u16_max (Z.of_N c)); [eauto|].
    destruct (Z.eqb_spec n u16_max); [discriminate|]. cbn in Hrun.
    destruct (FT_Get_Next_Char face c) as [c' fi'].
    assert (Hu : to_u16 (n + 1) = n + 1)
      by (apply to_u16_id; unfold u16_max in *; lia).
    rewrite Hu in Hrun.
    eapply IH; [| |exact Hrun].
    + apply indexed_emplace; auto; lia.
    + lia.
Qed.

Lemma build_faceMap_indexed face fuel m :
  build_faceMap face fuel = Done m -> exists n, indexed m n /\ 0 <= n <= u16_max.
Proof.
  unfold build_faceMap. destruct (FT_Get_First_Char face) as [c fi].
  apply index_loop_indexed; [exact indexed_nil|unfold u16_max; lia].
Qed.

(** An out-of-range code keeps the loop where it is, whatever the fuel. *)
Lemma index_loop_stuck face fuel c fi m n :
  u16_max <= Z.of_N c -> index_loop face fuel c fi m n = OutOfFuel.
Proof.
  intros H. induction fuel as [|fuel IH]; [reflexivity|].
  cbn [index_loop].
  destruct (N.eqb_spec c 0); [unfold u16_max in H; lia|].
  destruct (Z.leb_spec u16_max (Z.of_N c)); [assumption|lia].
Qed.

Lemma keys_number_from n l : keys (number_from n l) = codes l.
Proof.
  revert n. induction l as [|[c fi] l IH]; intros n; cbn; [reflexivity|].
  f_equal. apply IH.
Qed.

Lemma indices_number_from n l :
  indices (number_from n l) = zrange_from n (length l).
Proof.
  revert n. induction l as [|[c fi] l IH]; intros n; cbn; [reflexivity|].
  f_equal. apply IH.
Qed.

Lemma length_number_from n l : length (number_from n l) = length l.
Proof.
  revert n. induction l as [|[c fi] l IH]; intros n; cbn; [reflexivity|].
  f_equal. apply IH.
Qed.

Lemma above_app_lt lo l1 c l2 x :
  above lo (l1 ++ c :: l2) -> In x l1 -> x < c.
Proof.
  revert lo. induction l1 as [|a l1 IH]; cbn; intros lo H Hin; [contradiction|].
  destruct H as [_ H]. destruct Hin as [->|Hin]; [|eauto].
  apply (above_In _ _ _ H). apply in_or_app. right. left. reflexivity.
Qed.

Lemma length_codes_eq l : length (codes l) = length l.
Proof. apply length_map. Qed.

(** An ascending enumeration is numbered in its own order. *)
Lemma index_loop_ascending face :
  forall l fuel cur m n,
    enumerates (FT_Get_Next_Char face) cur l ->
    above 0 (keys m ++ codes l) ->
    (forall x, In x (codes l) -> x < u16_max) ->
    0 <= n -> n + Z.of_nat (length l) <= u16_max ->
    (length l < fuel)%nat ->
    index_loop face fuel (fst cur) (snd cur) m n = Done (m ++ number_from n l).
Proof.
  induction l as [|[c fi] l IH]; intros fuel cur m n He Ha Hr Hn Hlen Hf;
    (destruct fuel as [|fuel]; [cbn in Hf; lia|]); cbn [index_loop].
  - cbn in He. rewrite He. cbn. rewrite app_nil_r. reflexivity.
  - cbn in He. destruct He as [-> [Hc He]]. cbn [fst snd] in *.
    destruct (N.eqb_spec c 0); [contradiction|].
    assert (Z.of_N c < u16_max) by (apply Hr; left; reflexivity).
    destruct (Z.leb_spec u16_max (Z.of_N c)); [lia|].
    cbn [length] in Hlen.
    destruct (Z.eqb_spec n u16_max); [lia|]. cbn [negb asserting bind].
    rewrite emplace_last
      by (intros x Hx; apply (above_app_lt _ _ _ _ _ Ha Hx)).
    rewrite to_u16_id by (unfold u16_max in *; lia).
    destruct (FT_Get_Next_Char face c) as [c' fi'] eqn:Hnext.
    change c' with (fst (c', fi')). change fi' with (snd (c', fi')) at 2.
    rewrite IH.
    + rewrite <- app_assoc. reflexivity.
    + exact He.
    + unfold keys. rewrite map_app, <- app_assoc. exact Ha.
    + intros x Hx. apply Hr. right. exact Hx.
    + lia.
    + lia.
    + cbn in Hf. lia.
Qed.

Lemma build_faceMap_ascending face l fuel :
  face_enumerates face l ->
  above 0 (codes l) ->
  (forall x, In x (codes l) -> x < u16_max) ->
  (length l < fuel)%nat ->
  build_faceMap face fuel = Done (number_from 0 l).
Proof.
  intros He Ha Hr Hf. unfold build_faceMap.
  pose proof (above_length 0 u16_max _ Ha Hr ltac:(unfold u16_max; lia)) as Hlen.
  rewrite (length_codes_eq l) in Hlen.
  destruct (FT_Get_First_Char face) as [c fi] eqn:Hfirst.
  change c with (fst (c, fi)). change fi with (snd (c, fi)) at 2.
  rewrite <- Hfirst.
  rewrite (index_loop_ascending face l fuel); auto; try lia.
Qed.

(* ------------------------------------------------------------------ *)
(** ** RangeCoalescer *)

Lemma back_snoc pre b : back (pre ++ [b]) = b.
Proof. unfold back. apply last_last. Qed.

Lemma collect_step_nil p : collect_step [] p = [new_cmap (fst p) (snd p)].
Proof. unfold collect_step. cbn. rewrite orb_true_r. reflexivity. Qed.

Lemma collect_step_snoc pre b p :
  collect_step (pre ++ [b]) p =
  if starts_range b (fst p)
  then (pre ++ [b]) ++ [new_cmap (fst p) (snd p)]
  else pre ++ [with_end b (to_u16 (fst p))].
Proof.
  unfold collect_step, starts_range, extend_back.
  rewrite back_snoc, removelast_last.
  replace (match pre ++ [b] with [] => true | _ :: _ => false end) with false
    by (destruct pre; reflexivity).
  rewrite orb_false_r. reflexivity.
Qed.

Lemma collect_step_single b p :
  collect_step [b] p =
  if starts_range b (fst p)
  then [b; new_cmap (fst p) (snd p)]
  else [with_end b (to_u16 (fst p))].
Proof. exact (collect_step_snoc [] b p). Qed.

Lemma collect_fold_snoc l : forall pre b,
  fold_left collect_step l (pre ++ [b]) = pre ++ fold_left collect_step l [b].
Proof.
  induction l as [|p l IH]; intros pre b; cbn [fold_left]; [reflexivity|].
  rewrite collect_step_snoc. rewrite collect_step_single.
  destruct (starts_range b (fst p)).
  - rewrite IH.
    change [b; new_cmap (fst p) (snd p)] with ([b] ++ [new_cmap (fst p) (snd p)]).
    rewrite (IH [b]). rewrite <- app_assoc. reflexivity.
  - rewrite IH. reflexivity.
Qed.

Lemma collect_cmaps_cons p l :
  collect_cmaps (p :: l) = fold_left collect_step l [new_cmap (fst p) (snd p)].
Proof. unfold collect_cmaps. cbn [fold_left]. rewrite collect_step_nil. reflexivity. Qed.

Lemma collect_cmaps_snoc l p :
  collect_cmaps (l ++ [p]) = collect_step (collect_cmaps l) p.
Proof. unfold collect_cmaps. rewrite fold_left_app. reflexivity. Qed.

(** The range a code point opened keeps its first code and its payload. *)
Lemma collect_fold_head l : forall b,
  exists e rest, fold_left collect_step l [b] = with_end b e :: rest.
Proof.
  induction l as [|p l IH]; intros b; cbn [fold_left].
  - exists (codeEnd b), []. destruct b; reflexivity.
  - rewrite collect_step_single.
    destruct (starts_range b (fst p)).
    + change [b; new_cmap (fst p) (snd p)] with ([b] ++ [new_cmap (fst p) (snd p)]).
      rewrite (collect_fold_snoc l [b]).
      exists (codeEnd b). eexists. cbn [app]. destruct b; reflexivity.
    + destruct (IH (with_end b (to_u16 (fst p)))) as [e [rest H]].
      exists e, rest. rewrite H. reflexivity.
Qed.

Lemma collect_cmaps_nonempty l : l <> [] -> collect_cmaps l <> [].
Proof.
  destruct l as [|p l]; [congruence|]. intros _.
  rewrite collect_cmaps_cons.
  destruct (collect_fold_head l (new_cmap (fst p) (snd p))) as [e [rest ->]].
  discriminate.
Qed.

Lemma collect_back_end l p :
  codeEnd (back (collect_cmaps (l ++ [p]))) = to_u16 (fst p).
Proof.
  rewrite collect_cmaps_snoc.
  destruct (collect_cmaps l) as [|x xs] eqn:Hc.
  - rewrite collect_step_nil. reflexivity.
  - destruct (@exists_last _ (x :: xs) ltac:(discriminate)) as [pre [b ->]].
    rewrite collect_step_snoc.
    destruct (starts_range b (fst p)); rewrite back_snoc; reflexivity.
Qed.

(** A code point that does not continue the last range splits the map:
    what comes before and what comes from it on are coalesced apart. *)
Lemma collect_cmaps_split l1 a p l2 :
  0 <= fst a < 65536 -> fst p <> fst a + 1 ->
  collect_cmaps ((l1 ++ [a]) ++ p :: l2) =
  collect_cmaps (l1 ++ [a]) ++ collect_cmaps (p :: l2).
Proof.
  intros Ha Hp.
  unfold collect_cmaps at 1. rewrite fold_left_app. cbn [fold_left].
  fold (collect_cmaps (l1 ++ [a])).
  pose proof (collect_back_end l1 a) as Hend.
  destruct (@exists_last _ (collect_cmaps (l1 ++ [a])))
    as [pre [b Hb]]; [apply collect_cmaps_nonempty; destruct l1; discriminate|].
  rewrite Hb in *. rewrite back_snoc in Hend.
  rewrite collect_step_snoc.
  assert (Hs : starts_range b (fst p) = true).
  { unfold starts_range. rewrite Hend, to_u16_id by lia.
    destruct (Z.eqb_spec (fst a) (fst p - 1)); [lia|]. apply orb_true_r. }
  rewrite Hs, collect_fold_snoc, collect_cmaps_cons. reflexivity.
Qed.

(** Code points that continue the last range only move its end. *)
Lemma collect_fold_run l : forall b,
  0 <= codeEnd b ->
  keys l = zrange_from (codeEnd b + 1) (length l) ->
  codeEnd b + Z.of_nat (length l) < 65536 ->
  fold_left collect_step l [b] = [with_end b (codeEnd b + Z.of_nat (length l))].
Proof.
  induction l as [|p l IH]; intros b Hb Hk Hr.
  - cbn. rewrite Z.add_0_r. destruct b; reflexivity.
  - cbn [fold_left]. cbn [keys map length zrange_from] in Hk.
    inversion Hk as [[Hp Hl]]. rewrite collect_step_single.
    assert (Hs : starts_range b (fst p) = false).
    { unfold starts_range. rewrite Hp.
      destruct (Z.eqb_spec (codeEnd b + 1) 0); [lia|].
      destruct (Z.eqb_spec (codeEnd b) (codeEnd b + 1 - 1)); [reflexivity|lia]. }
    rewrite Hs. cbn [length] in Hr |- *.
    rewrite Nat2Z.inj_succ in Hr |- *.
    rewrite Hp, to_u16_id by lia.
    rewrite IH; cbn [with_end codeEnd]; try lia.
    + unfold with_end. cbn. f_equal. f_equal. lia.
    + rewrite <- Hp. exact Hl.
Qed.

Lemma collect_cmaps_run c p l :
  fst p = c -> 0 < c ->
  keys l = zrange_from (c + 1) (length l) ->
  c + Z.of_nat (length l) < 65536 ->
  collect_cmaps (p :: l) =
  [{| codeBegin := c; codeEnd := c + Z.of_nat (length l);
      mappingMethod := CMAP_TYPE_DIRECT; data := CMAPDirect (cfntIndex (snd p)) |}].
Proof.
  intros Hp Hc Hk Hr. rewrite collect_cmaps_cons.
  assert (He : codeEnd (new_cmap (fst p) (snd p)) = c)
    by (cbn; rewrite Hp; apply to_u16_id; lia).
  rewrite collect_fold_run; rewrite ?He; auto; try lia.
  unfold with_end, new_cmap. cbn. rewrite Hp, to_u16_id by lia. reflexivity.
Qed.

Lemma zrange_from_In c n x :
  In x (zrange_from c n) <-> c <= x < c + Z.of_nat n.
Proof.
  revert c. induction n as [|n IH]; intros c.
  - cbn. lia.
  - cbn [zrange_from In]. rewrite IH, Nat2Z.inj_succ. lia.
Qed.

Lemma zrange_from_snoc c n :
  zrange_from c (S n) = zrange_from c n ++ [c + Z.of_nat n].
Proof.
  revert c. induction n as [|n IH]; intros c.
  - cbn. rewrite Z.add_0_r. reflexivity.
  - change (zrange_from c (S (S n))) with (c :: zrange_from (c + 1) (S n)).
    rewrite IH. cbn [zrange_from app]. rewrite Nat2Z.inj_succ.
    do 3 f_equal. lia.
Qed.

Lemma zrange_from_length c n : length (zrange_from c n) = n.
Proof. revert c. induction n; intros; cbn; auto. Qed.

Lemma keys_app m1 m2 : keys (m1 ++ m2) = keys m1 ++ keys m2.
Proof. apply map_app. Qed.

(** The last entry of a run of consecutive code points. *)
Lemma run_last c l a :
  keys (l ++ [a]) = zrange_from c (length (l ++ [a])) ->
  fst a = c + Z.of_nat (length l) /\ keys l = zrange_from c (length l).
Proof.
  rewrite keys_app, length_app. cbn [length keys map].
  rewrite Nat.add_1_r, zrange_from_snoc. intros H.
  apply app_inj_tail in H. destruct H as [H1 H2]. auto.
Qed.

(** C3: in an ascending map of 16-bit code points, a run of N consecutive
    code points [c, c + N) that neither [c - 1] precedes nor [c + N]
    follows is coalesced into exactly one range, from [c] to [c + N - 1]
    with the glyph index of [c] as its payload, between the ranges of the
    code points before it and those of the code points after it; and
    wherever two adjacent code points are not consecutive, the ranges up
    to the first are followed by a range that begins at the second and
    carries its glyph index. *)
Theorem coalescer_emits_one_range_per_run (faceMap : FaceMap) :
  above 0 (keys faceMap) ->
  (forall k, In k (keys faceMap) -> k < 65536) ->
  (forall pre run post c,
      faceMap = pre ++ run ++ post ->
      run <> [] ->
      keys run = zrange_from c (length run) ->
      ~ In (c - 1) (keys faceMap) ->
      ~ In (c + Z.of_nat (length run)) (keys faceMap) ->
      collect_cmaps faceMap =
      collect_cmaps pre ++
      [{| codeBegin := c; codeEnd := c + Z.of_nat (length run) - 1;
          mappingMethod := CMAP_TYPE_DIRECT;
          data := CMAPDirect (cfntIndex (snd (hd (0, CharMap_default) run))) |}]
      ++ collect_cmaps post) /\
  (forall pre a b post,
      faceMap = pre ++ a :: b :: post ->
      fst b <> fst a + 1 ->
      exists e rest,
        collect_cmaps faceMap =
        collect_cmaps (pre ++ [a]) ++
        {| codeBegin := fst b; codeEnd := e;
           mappingMethod := CMAP_TYPE_DIRECT;
           data := CMAPDirect (cfntIndex (snd b)) |} :: rest).
Proof.
  intros Hasc Hhi.
  assert (Hrange : forall k, In k (keys faceMap) -> 0 < k < 65536).
  { intros k Hk. split; [apply (above_In _ _ _ Hasc Hk)|auto]. }
  split.
  - intros pre run post c -> Hne Hrun Hlo Hup.
    destruct run as [|p r]; [congruence|]. clear Hne.
    cbn [hd snd]. pose proof Hrun as Hrun0.
    cbn [keys map length zrange_from] in Hrun.
    injection Hrun as Hp Hr.
    assert (Hc : 0 < c).
    { rewrite <- Hp. apply Hrange. rewrite !keys_app. apply in_or_app. right.
      left. reflexivity. }
    assert (Hlast : c + Z.of_nat (length r) < 65536).
    { apply Hrange. rewrite !keys_app. apply in_or_app. right.
      apply in_or_app. left. cbn [keys map]. rewrite Hp.
      destruct (Nat.eq_dec (length r) 0) as [E|E].
      - left. rewrite E. cbn. lia.
      - right. rewrite Hr. apply zrange_from_In. lia. }
    assert (Hrun1 :
      collect_cmaps (p :: r) =
      [{| codeBegin := c; codeEnd := c + Z.of_nat (length (p :: r)) - 1;
          mappingMethod := CMAP_TYPE_DIRECT;
          data := CMAPDirect (cfntIndex (snd p)) |}]).
    { rewrite (collect_cmaps_run c p r Hp Hc Hr Hlast).
      cbn [length]. rewrite Nat2Z.inj_succ. do 2 f_equal. lia. }
    assert (Hsplit2 : collect_cmaps ((p :: r) ++ post) =
                      collect_cmaps (p :: r) ++ collect_cmaps post).
    { destruct post as [|q post]; [rewrite !app_nil_r; reflexivity|].
      destruct (@exists_last _ (p :: r) ltac:(discriminate)) as [l1 [a Hla]].
      rewrite Hla in *.
      destruct (run_last c l1 a) as [Ha _].
      { exact Hrun0. }
      rewrite length_app in Hup. cbn [length] in Hup.
      rewrite Nat.add_1_r, Nat2Z.inj_succ in Hup.
      apply collect_cmaps_split.
      - assert (0 < fst a < 65536); [|lia]. apply Hrange.
        rewrite !keys_app. apply in_or_app. right. apply in_or_app. left.
        apply in_or_app. right. left. reflexivity.
      - intros Hq. apply Hup. rewrite !keys_app. apply in_or_app. right.
        apply in_or_app. right. left. cbn. lia. }
    destruct pre as [|x pre].
    + change (collect_cmaps []) with (@nil CMAP).
      change ([] ++ (p :: r) ++ post) with ((p :: r) ++ post).
      rewrite Hsplit2, Hrun1. reflexivity.
    + destruct (@exists_last _ (x :: pre) ltac:(discriminate)) as [l1 [a Hla]].
      rewrite Hla in *.
      change ((p :: r) ++ post) with (p :: (r ++ post)).
      rewrite collect_cmaps_split.
      * change (p :: (r ++ post)) with ((p :: r) ++ post).
        rewrite Hsplit2, Hrun1. reflexivity.
      * assert (0 < fst a < 65536); [|lia]. apply Hrange.
        rewrite !keys_app. apply in_or_app. left. apply in_or_app. right.
        left. reflexivity.
      * intros Hq. apply Hlo. rewrite !keys_app. apply in_or_app. left.
        apply in_or_app. right. left. cbn. lia.
  - intros pre a b post -> Hgap.
    replace (pre ++ a :: b :: post) with ((pre ++ [a]) ++ b :: post)
      by (rewrite <- app_assoc; reflexivity).
    rewrite collect_cmaps_split.
    + rewrite collect_cmaps_cons.
      destruct (collect_fold_head post (new_cmap (fst b) (snd b))) as [e [rest ->]].
      exists e, rest. unfold with_end, new_cmap. cbn.
      rewrite to_u16_id; [reflexivity|].
      assert (0 < fst b < 65536); [|lia]. apply Hrange.
      rewrite keys_app. apply in_or_app. right. right. left. reflexivity.
    + assert (0 < fst a < 65536); [|lia]. apply Hrange.
      rewrite keys_app. apply in_or_app. right. left. reflexivity.
    + exact Hgap.
Qed.

Lemma visited_app l1 l2 : visited (l1 ++ l2) = visited l1 ++ visited l2.
Proof. apply flat_map_app. Qed.

Lemma range_codes_extend b :
  codeBegin b <= codeEnd b ->
  range_codes (with_end b (codeEnd b + 1)) = range_codes b ++ [codeEnd b + 1].
Proof.
  intros H. unfold range_codes. cbn [with_end codeBegin codeEnd].
  replace (Z.to_nat (codeEnd b + 1 - codeBegin b + 1))
    with (S (Z.to_nat (codeEnd b - codeBegin b + 1))) by lia.
  rewrite zrange_from_snoc. f_equal. f_equal. lia.
Qed.

(** The ranges of an ascending map cover its code points in order, and
    there are no more ranges than code points. *)
Lemma collect_cmaps_visits m :
  above 0 (keys m) ->
  (forall k, In k (keys m) -> k < u16_max) ->
  visited (collect_cmaps m) = keys m /\
  Forall range_ok (collect_cmaps m) /\
  (length (collect_cmaps m) <= length m)%nat.
Proof.
  induction m as [|p l IH] using rev_ind; intros Ha Hhi.
  - cbn. auto.
  - rewrite keys_app in Ha, Hhi. apply above_app in Ha. destruct Ha as [Hal Hap].
    destruct IH as [Hv [Hok Hlen]]; [assumption|intros; apply Hhi, in_or_app; auto|].
    assert (Hp : 0 < fst p < u16_max).
    { split; [|apply Hhi, in_or_app; right; left; reflexivity].
      destruct Hap as [Hap _].
      destruct l as [|x l0]; [exact Hap|].
      destruct (@exists_last _ (x :: l0) ltac:(discriminate)) as [l' [a Hl]].
      rewrite Hl in Hal, Hap.
      rewrite keys_app in Hal, Hap. cbn [keys map] in Hal, Hap.
      rewrite last_last in Hap.
      assert (0 < fst a); [|lia].
      apply (above_In _ _ _ Hal), in_or_app. right. left. reflexivity. }
    rewrite collect_cmaps_snoc, keys_app, length_app. cbn [keys map length].
    destruct (collect_cmaps l) as [|x xs] eqn:Hc.
    + rewrite collect_step_nil.
      assert (l = []) by (destruct l; [reflexivity|];
        exfalso; apply (collect_cmaps_nonempty (p0 :: l)); [discriminate|exact Hc]).
      subst l. unfold visited, range_codes, new_cmap. cbn [flat_map codeBegin codeEnd].
      rewrite to_u16_id by (unfold u16_max in *; lia).
      replace (fst p - fst p + 1) with 1 by lia. cbn.
      repeat split; auto.
      constructor; [|constructor].
      unfold range_ok. cbn. rewrite ?to_u16_id by (unfold u16_max in *; lia).
      repeat split; try lia. eauto.
    + destruct (@exists_last _ (x :: xs) ltac:(discriminate)) as [pre [b Hb]].
      rewrite Hb in *. clear Hb x xs.
      destruct (@exists_last _ l) as [l' [a Hl]].
      { intros ->. destruct pre; discriminate. }
      subst l. pose proof (collect_back_end l' a) as Hend.
      rewrite Hc, back_snoc in Hend.
      assert (Ha : 0 < fst a < fst p).
      { rewrite keys_app in Hal, Hap. cbn [keys map] in Hal, Hap.
        rewrite last_last in Hap. destruct Hap as [Hap _].
        split; [|exact Hap].
        apply (above_In _ _ _ Hal), in_or_app. right. left. reflexivity. }
      rewrite to_u16_id in Hend by (unfold u16_max in *; lia).
      rewrite collect_step_snoc. unfold starts_range. rewrite Hend.
      apply Forall_app in Hok. destruct Hok as [Hpre Hbok].
      inversion Hbok as [|? ? Hbk _]; subst.
      destruct (Z.eqb_spec (fst p) 0); [lia|]. cbn [orb].
      destruct (Z.eqb_spec (fst a) (fst p - 1)) as [E|E]; cbn [negb].
      * rewrite to_u16_id by (unfold u16_max in *; lia).
        replace (fst p) with (codeEnd b + 1) by lia.
        rewrite visited_app in Hv |- *. unfold visited at 2. cbn [flat_map].
        rewrite app_nil_r.
        destruct Hbk as [Hb1 [Hb2 [Hb3 Hb4]]].
        rewrite range_codes_extend by lia.
        rewrite app_assoc. unfold visited at 2 in Hv. cbn [flat_map] in Hv.
        rewrite app_nil_r in Hv. rewrite Hv.
        repeat split; [| rewrite !length_app in *; cbn [length] in *; lia].
        apply Forall_app. split; [assumption|]. constructor; [|constructor].
        unfold range_ok. cbn [with_end codeBegin codeEnd mappingMethod data].
        repeat split; try lia; assumption.
      * rewrite visited_app, Hv. unfold visited, range_codes, new_cmap.
        cbn [flat_map codeBegin codeEnd].
        rewrite to_u16_id by (unfold u16_max in *; lia).
        replace (fst p - fst p + 1) with 1 by lia.
        cbn [Z.to_nat Pos.to_nat Pos.iter_op Nat.add zrange_from app].
        repeat split; [| rewrite !length_app in *; cbn [length] in *; lia].
        apply Forall_app. split; [apply Forall_app; split; assumption|].
        constructor; [|constructor].
        unfold range_ok. cbn. rewrite ?to_u16_id by (unfold u16_max in *; lia).
        repeat split; try lia. eauto.
Qed.

(* ------------------------------------------------------------------ *)
(** ** AtlasBuilder *)

Section AtlasFacts.

Context {IM : Imaging}.
Variable face : FT_Face.
Variable faceMap : FaceMap.
Variable baseline : Z.

Lemma glyph_fold_app ks1 ks2 st :
  glyph_fold face faceMap baseline (ks1 ++ ks2) st = (st' <- glyph_fold face faceMap baseline ks1 st ;; glyph_fold face faceMap baseline ks2 st').
Proof.
  revert st. induction ks1 as [|k ks1 IH]; intros st; cbn; [reflexivity|].
  destruct (glyph_body face faceMap baseline k st); cbn; auto.
Qed.

Lemma glyph_body_returns k st : glyph_body face faceMap baseline k st <> OutOfFuel.
Proof.
  unfold glyph_body.
  destruct (FT_Load_Glyph face _); [|discriminate].
  destruct (cfntIndex (at_key k faceMap) mod 170 =? 0); cbn [st_sheet].
  - destruct (_ <? _); cbn; [|discriminate].
    destruct (_ <? _); cbn; discriminate.
  - destruct (st_sheet st); [|discriminate].
    destruct (_ <? _); cbn; [|discriminate].
    destruct (_ <? _); cbn; discriminate.
Qed.

Lemma glyph_fold_returns ks st : glyph_fold face faceMap baseline ks st <> OutOfFuel.
Proof.
  revert st. induction ks as [|k ks IH]; intros st; cbn; [discriminate|].
  pose proof (glyph_body_returns k st).
  destruct (glyph_body face faceMap baseline k st); cbn; auto.
Qed.

(** Whatever the fuel, the loop over one range either runs out of it or
    does what the pass over its code points does. *)
Lemma code_loop_fold fuel : forall c cEnd st,
  0 <= c -> cEnd < u16_max -> c <= cEnd + 1 ->
  code_loop face faceMap baseline fuel c cEnd st = OutOfFuel \/
  code_loop face faceMap baseline fuel c cEnd st =
  glyph_fold face faceMap baseline (zrange_from c (Z.to_nat (cEnd - c + 1))) st.
Proof.
  induction fuel as [|fuel IH]; intros c cEnd st Hc He Hle; [left; reflexivity|].
  cbn [code_loop]. destruct (Z.leb_spec c cEnd).
  - replace (Z.to_nat (cEnd - c + 1)) with (S (Z.to_nat (cEnd - (c + 1) + 1))) by lia.
    cbn [zrange_from glyph_fold].
    destruct (glyph_body face faceMap baseline c st) as [st'| |] eqn:Hb; cbn [bind];
      [|right; reflexivity|left; reflexivity].
    rewrite to_u16_id by (unfold u16_max in *; lia).
    apply IH; lia.
  - right. replace (Z.to_nat (cEnd - c + 1)) with O by lia. reflexivity.
Qed.

Lemma code_loop_enough fuel : forall c cEnd st,
  0 <= c -> cEnd < u16_max -> c <= cEnd + 1 ->
  (Z.to_nat (cEnd - c + 1) < fuel)%nat ->
  code_loop face faceMap baseline fuel c cEnd st =
  glyph_fold face faceMap baseline (zrange_from c (Z.to_nat (cEnd - c + 1))) st.
Proof.
  induction fuel as [|fuel IH]; intros c cEnd st Hc He Hle Hf; [lia|].
  cbn [code_loop]. destruct (Z.leb_spec c cEnd).
  - replace (Z.to_nat (cEnd - c + 1)) with (S (Z.to_nat (cEnd - (c + 1) + 1))) in * by lia.
    cbn [zrange_from glyph_fold].
    destruct (glyph_body face faceMap baseline c st) as [st'| |] eqn:Hb; cbn [bind];
      try reflexivity.
    rewrite to_u16_id by (unfold u16_max in *; lia).
    apply IH; lia.
  - replace (Z.to_nat (cEnd - c + 1)) with O by lia. reflexivity.
Qed.

Lemma cmap_loop_fold fuel cms : forall st,
  Forall range_ok cms ->
  cmap_loop face faceMap baseline fuel cms st = OutOfFuel \/
  cmap_loop face faceMap baseline fuel cms st = glyph_fold face faceMap baseline (visited cms) st.
Proof.
  induction cms as [|cm cms IH]; intros st Hok; [right; reflexivity|].
  inversion Hok as [|? ? Hcm Hrest]; subst.
  destruct Hcm as [Hb [He _]].
  cbn [cmap_loop visited flat_map]. fold (visited cms).
  rewrite glyph_fold_app. unfold range_codes.
  destruct (code_loop_fold fuel (codeBegin cm) (codeEnd cm) st) as [->| ->];
    try lia; [left; reflexivity|].
  destruct (glyph_fold face faceMap baseline _ st); cbn [bind]; auto.
Qed.

Lemma cmap_loop_enough fuel cms : forall st,
  Forall range_ok cms ->
  (length (visited cms) < fuel)%nat ->
  cmap_loop face faceMap baseline fuel cms st = glyph_fold face faceMap baseline (visited cms) st.
Proof.
  induction cms as [|cm cms IH]; intros st Hok Hf; [reflexivity|].
  inversion Hok as [|? ? Hcm Hrest]; subst.
  destruct Hcm as [Hb [He _]].
  cbn [cmap_loop visited flat_map] in *. fold (visited cms) in *.
  rewrite length_app in Hf. unfold range_codes in *.
  rewrite zrange_from_length in Hf.
  rewrite glyph_fold_app, code_loop_enough by lia.
  destruct (glyph_fold face faceMap baseline _ st); cbn [bind]; auto.
  apply IH; [assumption|lia].
Qed.

End AtlasFacts.

Lemma zrange_length n : length (zrange n) = Z.to_nat n.
Proof. apply zrange_from_length. Qed.

(** At most 386 glyph indices below 0xFFFF are multiples of 170. *)
Lemma multiples_bound l :
  NoDup l -> (forall x, In x l -> 0 <= x < u16_max) ->
  (length (filter opens_sheet l) <= 386)%nat.
Proof.
  intros Hnd Hr.
  set (l' := filter opens_sheet l).
  assert (Hl' : forall x, In x l' -> 0 <= x < u16_max /\ x mod 170 = 0).
  { intros x Hx. apply filter_In in Hx. destruct Hx as [Hx Hm].
    split; [auto|]. apply Z.eqb_eq. exact Hm. }
  rewrite <- (length_map (fun x => Z.to_nat (x / 170)) l').
  replace 386%nat with (length (seq 0 386)) by apply length_seq.
  apply NoDup_incl_length.
  - apply NoDup_map_NoDup_ForallPairs; [|apply NoDup_filter; assumption].
    intros a b Ha Hb Heq.
    destruct (Hl' a Ha) as [Ha1 Ha2]. destruct (Hl' b Hb) as [Hb1 Hb2].
    pose proof (Z.div_mod a 170 ltac:(lia)). pose proof (Z.div_mod b 170 ltac:(lia)).
    assert (a / 170 = b / 170).
    { apply Z2Nat.inj; [apply Z.div_pos; lia|apply Z.div_pos; lia|exact Heq]. }
    lia.
  - intros n Hn. apply in_map_iff in Hn. destruct Hn as [x [<- Hx]].
    destruct (Hl' x Hx) as [Hx1 Hx2]. apply in_seq.
    assert (x / 170 < 386) by (apply Z.div_lt_upper_bound; unfold u16_max in *; lia).
    assert (0 <= x / 170) by (apply Z.div_pos; lia). lia.
Qed.

Lemma fold_left_preserves {A B : Type} (P : A -> Prop) (f : A -> B -> A) l :
  (forall a b, P a -> P (f a b)) -> forall a, P a -> P (fold_left f l a).
Proof.
  intros Hf. induction l as [|b l IH]; intros a Ha; cbn; auto.
Qed.

Section AtlasInvariants.

Context {IM : Imaging}.
Variable face : FT_Face.
Variable faceMap : FaceMap.
Variable baseline : Z.

Lemma draw_glyph_geometry s x y g :
  columns (draw_glyph s x y baseline g) = columns s /\
  rows (draw_glyph s x y baseline g) = rows s.
Proof.
  unfold draw_glyph.
  apply (fold_left_preserves
           (fun s' => columns s' = columns s /\ rows s' = rows s)); [|auto].
  intros s1 y0 H1.
  apply (fold_left_preserves
           (fun s' => columns s' = columns s /\ rows s' = rows s)); [|auto].
  intros s2 x0 H2. cbv zeta. destruct (_ || _); auto.
Qed.

(** A sheet adds half as many bytes as it has pixels. *)
Lemma appendSheet_size d s :
  columns s = 256 -> rows s = 512 ->
  size (appendSheet d s) = size d + 65536.
Proof.
  intros Hc Hr. unfold appendSheet, size.
  rewrite length_app, !length_map, zrange_length.
  rewrite swizzle_columns, swizzle_rows, Hc, Hr.
  change ((to_u32 (256 * 512) + 1) / 2) with 65536. lia.
Qed.

Lemma flush_sheet_inv st :
  atlas_inv st ->
  atlas_inv (flush_sheet st) /\
  st_numSheets (flush_sheet st) = st_numSheets st + opened st /\
  st_widths (flush_sheet st) = st_widths st.
Proof.
  intros [Hs Hd Hc Hw]. unfold flush_sheet, opened.
  destruct (st_sheet st) as [s|] eqn:Hsheet.
  - destruct (Hs s eq_refl) as [Hcol Hrow].
    split; [|cbn; auto]. split; cbn [st_sheet st_sheetData st_numSheets st_widths].
    + intros s0 E. apply Hs. congruence.
    + rewrite appendSheet_size by assumption. lia.
    + lia.
    + assumption.
  - split; [|cbn; split; [lia|reflexivity]]. split; auto.
    intros s0 E. apply Hs. congruence.
Qed.

Lemma width_info_ok g : width_ok (width_info g).
Proof.
  unfold width_ok, width_info. cbn.
  auto using to_i8_range, to_u8_range.
Qed.

(** One glyph keeps the invariant; it adds at most one width entry, and
    opens a sheet only when its glyph index is a multiple of 170. *)
Lemma glyph_body_inv k st st' :
  atlas_inv st ->
  glyph_body face faceMap baseline k st = Done st' ->
  atlas_inv st' /\
  (length (st_widths st') <= S (length (st_widths st)))%nat /\
  st_numSheets st' + opened st' <=
  st_numSheets st + opened st +
  (if cfntIndex (at_key k faceMap) mod 170 =? 0 then 1 else 0).
Proof.
  intros Hinv. unfold glyph_body.
  destruct (FT_Load_Glyph face _) as [g|].
  2:{ intros H. inversion H; subst. repeat split; try apply Hinv; auto.
      destruct (_ =? _); lia. }
  destruct (cfntIndex (at_key k faceMap) mod 170 =? 0) eqn:Hm; cbn [st_sheet].
  - destruct (flush_sheet_inv st Hinv) as [[Hs Hd Hc Hw] [Hn Hws]].
    cbn [columns rows new_sheet].
    destruct (_ <? 256); cbn [asserting bind]; [|discriminate].
    destruct (_ <? 512); cbn [asserting bind]; [|discriminate].
    intros H. inversion H; subst; clear H. unfold opened in *.
    cbn [st_sheet st_sheetData st_numSheets st_widths].
    split; [|split; [rewrite length_app; cbn [length]; lia|lia]].
    split; cbn [st_sheet st_sheetData st_numSheets st_widths]; auto.
    + intros s Hsome. inversion Hsome; subst.
      destruct (draw_glyph_geometry new_sheet
                  (cfntIndex (at_key k faceMap) mod 170 mod 10 * 24)
                  (cfntIndex (at_key k faceMap) mod 170 / 10 * 30) g) as [-> ->].
      auto.
    + apply Forall_app. split; [apply Hinv|].
      constructor; [apply width_info_ok|constructor].
  - destruct (st_sheet st) as [s|] eqn:Hsheet; [|discriminate].
    destruct (_ <? columns s); cbn [asserting bind]; [|discriminate].
    destruct (_ <? rows s); cbn [asserting bind]; [|discriminate].
    intros H. inversion H; subst; clear H. unfold opened.
    cbn [st_sheet st_sheetData st_numSheets st_widths]. rewrite Hsheet.
    destruct Hinv as [Hs Hd Hc Hw].
    split; [|split; [rewrite length_app; cbn [length]; lia|lia]].
    split; cbn [st_sheet st_sheetData st_numSheets st_widths]; auto.
    + intros s' Hsome. inversion Hsome; subst.
      destruct (draw_glyph_geometry s
                  (cfntIndex (at_key k faceMap) mod 170 mod 10 * 24)
                  (cfntIndex (at_key k faceMap) mod 170 / 10 * 30) g) as [-> ->].
      auto.
    + apply Forall_app. split; [assumption|].
      constructor; [apply width_info_ok|constructor].
Qed.

Lemma glyph_fold_inv ks : forall st st',
  atlas_inv st ->
  glyph_fold face faceMap baseline ks st = Done st' ->
  atlas_inv st' /\
  (length (st_widths st') <= length (st_widths st) + length ks)%nat /\
  st_numSheets st' + opened st' <=
  st_numSheets st + opened st +
  Z.of_nat (length (filter (fun k => opens_sheet (cfntIndex (at_key k faceMap))) ks)).
Proof.
  induction ks as [|k ks IH]; intros st st' Hinv Hrun.
  - cbn in Hrun. inversion Hrun; subst. split; [assumption|].
    cbn [filter length]. lia.
  - cbn [glyph_fold] in Hrun.
    destruct (glyph_body face faceMap baseline k st) as [st1| |] eqn:Hb;
      cbn [bind] in Hrun; try discriminate.
    destruct (glyph_body_inv k st st1 Hinv Hb) as [Hinv1 [Hw1 Hn1]].
    destruct (IH st1 st' Hinv1 Hrun) as [Hinv' [Hw' Hn']].
    split; [assumption|]. cbn [filter length]. unfold opens_sheet at 1.
    destruct (cfntIndex (at_key k faceMap) mod 170 =? 0); cbn [length]; lia.
Qed.

End AtlasInvariants.

(* ------------------------------------------------------------------ *)
(** ** What every constructed atlas satisfies *)

Lemma atlas_init_inv {IM : Imaging} : atlas_inv atlas_init.
Proof. split; cbn; try discriminate; auto; lia. Qed.

Lemma indexed_keys_bound m n :
  indexed m n -> forall k, In k (keys m) -> k < u16_max.
Proof.
  intros [_ He _] k Hk. apply in_map_iff in Hk. destruct Hk as [kv [<- Hin]].
  rewrite Forall_forall in He. apply (He kv Hin).
Qed.

Lemma indexed_length m n : indexed m n -> Z.of_nat (length m) < u16_max.
Proof.
  intros Hi.
  pose proof (above_length 0 u16_max (keys m) (ix_keys _ _ Hi)
                (indexed_keys_bound m n Hi) ltac:(unfold u16_max; lia)) as H.
  unfold keys in H. rewrite length_map in H. lia.
Qed.

(** The glyphs that open a sheet are no more than the multiples of 170
    among the glyph indices. *)
Lemma sheet_openers_bound m n :
  indexed m n -> n <= u16_max ->
  (length (filter (fun k => opens_sheet (cfntIndex (at_key k m))) (keys m))
   <= 386)%nat.
Proof.
  intros Hi Hn.
  rewrite <- (length_map (fun k => cfntIndex (at_key k m))).
  rewrite <- filter_map_swap.
  replace (map (fun k => cfntIndex (at_key k m)) (keys m)) with (indices m).
  - apply multiples_bound; [apply (ix_nodup _ _ Hi)|].
    intros x Hx. apply in_map_iff in Hx. destruct Hx as [kv [<- Hin]].
    pose proof (ix_entries _ _ Hi) as He. rewrite Forall_forall in He.
    specialize (He kv Hin). lia.
  - rewrite <- (map_map (fun k => at_key k m) cfntIndex).
    rewrite (at_key_keys 0 m (ix_keys _ _ Hi)).
    unfold indices. rewrite map_map. reflexivity.
Qed.

Section Constructed.

Context {IM : Imaging} {MB : Members}.

(** The constructor's loops amount to one pass over the code points of the
    map, in ascending order. *)
Lemma ctor_pass face fuel m n st baseline :
  indexed m n ->
  cmap_loop face m baseline fuel (collect_cmaps m) atlas_init = Done st ->
  glyph_fold face m baseline (keys m) atlas_init = Done st.
Proof.
  intros Hi Hrun.
  destruct (collect_cmaps_visits m (ix_keys _ _ Hi) (indexed_keys_bound m n Hi))
    as [Hv [Hok _]].
  destruct (cmap_loop_fold face m baseline fuel (collect_cmaps m) atlas_init Hok)
    as [H|H]; [congruence|].
  rewrite <- Hv, <- H. exact Hrun.
Qed.

Lemma BCFNT_ctor_ok face fuel b : BCFNT_ctor face fuel = Done b -> atlas_ok b.
Proof.
  unfold BCFNT_ctor.
  destruct (build_faceMap face fuel) as [m| |] eqn:Hm; cbn [bind]; try discriminate.
  destruct (build_faceMap_indexed face fuel m Hm) as [n [Hi Hn]].
  destruct m as [|p m'] eqn:Em.
  - intros H. inversion H; subst; clear H.
    split; cbn; auto; unfold u16_max; lia.
  - rewrite <- Em in *. clear Em p m'.
    destruct (cmap_loop face m _ fuel (collect_cmaps m) atlas_init) as [st| |] eqn:Hl;
      cbn [bind]; try discriminate.
    intros H. inversion H; subst; clear H.
    apply (ctor_pass face fuel m n st _ Hi) in Hl.
    destruct (glyph_fold_inv face m _ (keys m) atlas_init st atlas_init_inv Hl)
      as [Hinv [Hw Hs]].
    destruct (flush_sheet_inv st Hinv) as [[_ Hd Hc Hws] [Hnum Heq]].
    destruct (collect_cmaps_visits m (ix_keys _ _ Hi) (indexed_keys_bound m n Hi))
      as [_ [Hok Hlen]].
    pose proof (indexed_length m n Hi) as Hml.
    pose proof (sheet_openers_bound m n Hi ltac:(lia)) as Hb.
    split; cbn [cmaps widths sheetData numSheets]; unfold coalesceCMAP, size.
    + exact Hok.
    + exact Hws.
    + rewrite Heq. cbn [atlas_init st_widths length] in Hw.
      unfold keys in Hw. rewrite length_map in Hw. lia.
    + lia.
    + exact Hd.
    + rewrite Hnum. cbn [atlas_init st_numSheets st_sheet] in Hs.
      unfold opened in Hs at 2. cbn [atlas_init st_sheet] in Hs.
      lia.
Qed.

End Constructed.

(* ------------------------------------------------------------------ *)
(** ** The container, field by field *)

Ltac le_fields :=
  rewrite ?put_u32_le, ?put_u16_le, ?put_u8_le; unfold put_str;
  rewrite <- ?app_assoc; reflexivity.

Lemma write_cfnt_block o fs nb : write_cfnt o fs nb = o ++ cfnt_block fs nb.
Proof. unfold write_cfnt, cfnt_block. le_fields. Qed.

Lemma write_finf_block o b l : write_finf o b l = o ++ finf_block b l.
Proof. unfold write_finf, finf_block. le_fields. Qed.

Lemma write_tglp_block o b l : write_tglp o b l = o ++ tglp_block b l.
Proof. unfold write_tglp, tglp_block. le_fields. Qed.

Lemma write_widths_bytes ws : forall o, write_widths o ws = o ++ width_bytes ws.
Proof.
  unfold write_widths.
  induction ws as [|w ws IH]; intros o; cbn [fold_left width_bytes flat_map].
  - rewrite app_nil_r. reflexivity.
  - rewrite IH. unfold put_u8. rewrite <- !app_assoc. reflexivity.
Qed.

Lemma write_cwdh_block o b : write_cwdh o b = o ++ cwdh_block b.
Proof.
  unfold write_cwdh, cwdh_block, cwdh_header. rewrite write_widths_bytes.
  rewrite ?put_u32_le, ?put_u16_le. unfold put_str.
  rewrite <- ?app_assoc. reflexivity.
Qed.

Lemma size_app {A : Type} (l1 l2 : list A) : size (l1 ++ l2) = size l1 + size l2.
Proof. unfold size. rewrite length_app. lia. Qed.

Lemma size_nonneg {A : Type} (l : list A) : 0 <= size l.
Proof. unfold size. lia. Qed.

Lemma size_cfnt_block fs nb : size (cfnt_block fs nb) = 0x14.
Proof. reflexivity. Qed.

Lemma size_finf_block b l : size (finf_block b l) = 0x20.
Proof. reflexivity. Qed.

Lemma size_tglp_block b l : size (tglp_block b l) = 0x20.
Proof. reflexivity. Qed.

Lemma size_cwdh_header b : size (cwdh_header b) = 0x10.
Proof. reflexivity. Qed.

Lemma size_width_bytes ws : size (width_bytes ws) = 3 * size ws.
Proof.
  unfold size. induction ws as [|w ws IH]; [reflexivity|].
  cbn [width_bytes flat_map app length]. fold (width_bytes ws). lia.
Qed.

Lemma size_cmap_block cm off is_last : size (cmap_block cm off is_last) = 22.
Proof. reflexivity. Qed.

Lemma size_cmap_blocks cms : forall off,
  size (concat (cmap_block_list cms off)) = 22 * size cms.
Proof.
  induction cms as [|cm cms IH]; intros off; [reflexivity|].
  cbn [cmap_block_list concat]. rewrite size_app, IH, size_cmap_block.
  unfold size. cbn [length]. lia.
Qed.

Lemma write_cmap_block o cm off is_last offset :
  data cm = CMAPDirect offset ->
  put_u16 (write_cmap_header o cm off (to_u32 (0x14 + 0x2)) is_last)
          (to_u16 offset) =
  o ++ cmap_block cm off is_last.
Proof.
  intros Hd. unfold write_cmap_header, cmap_block, direct_offset. rewrite Hd.
  destruct is_last; le_fields.
Qed.

(** Whatever [write_cmaps] returns is the output followed by the blocks. *)
Lemma write_cmaps_blocks cms : forall off o o',
  write_cmaps cms off o = Done o' ->
  o' = o ++ concat (cmap_block_list cms off).
Proof.
  induction cms as [|cm rest IH]; intros off o o' H.
  - cbn in H. inversion H. cbn. rewrite app_nil_r. reflexivity.
  - cbn [write_cmaps] in H.
    destruct (size o =? off); cbn [asserting bind] in H; [|discriminate].
    destruct (mappingMethod cm) eqn:Hm; try discriminate.
    destruct (data cm) as [offset| |] eqn:Hd; try discriminate.
    cbn [bind] in H. rewrite (write_cmap_block _ _ _ _ _ Hd) in H.
    apply IH in H. rewrite H.
    cbn [cmap_block_list concat]. rewrite app_assoc. reflexivity.
Qed.

Lemma write_cmaps_ok cms : forall off o,
  Forall range_ok cms ->
  size o = off -> 0 <= off -> off + 22 * size cms < 2 ^ 32 ->
  write_cmaps cms off o = Done (o ++ concat (cmap_block_list cms off)).
Proof.
  induction cms as [|cm rest IH]; intros off o Hok Hs H0 Hlt.
  - cbn. rewrite app_nil_r. reflexivity.
  - inversion Hok as [|? ? Hcm Hrest]; subst.
    destruct Hcm as [_ [_ [Hm [offset Hd]]]].
    cbn [write_cmaps]. rewrite Z.eqb_refl, Hm, Hd. cbn [asserting bind].
    rewrite (write_cmap_block _ _ _ _ _ Hd).
    change (2 ^ 32) with 4294967296 in Hlt.
    unfold size in Hlt. cbn [length] in Hlt. fold (size o) in Hlt.
    change (to_u32 (0x14 + 0x2)) with 22 in *.
    rewrite IH; auto.
    + cbn [cmap_block_list concat]. rewrite app_assoc. reflexivity.
    + rewrite size_app, size_cmap_block, to_u32_id; lia.
    + apply to_u32_range.
    + rewrite to_u32_id by lia.
      change (2 ^ 32) with 4294967296. unfold size in *. lia.
Qed.

Lemma cmap_sizes_ok cms : forall fs,
  Forall range_ok cms -> 0 <= fs -> fs + 22 * size cms < 2 ^ 32 ->
  cmap_sizes cms fs = Done (fs + 22 * size cms).
Proof.
  induction cms as [|cm rest IH]; intros fs Hok H0 Hlt.
  - cbn. f_equal. unfold size. cbn. lia.
  - inversion Hok as [|? ? Hcm Hrest]; subst.
    destruct Hcm as [_ [_ [Hm _]]].
    cbn [cmap_sizes]. rewrite Hm.
    unfold size in *. cbn [length] in *.
    rewrite (to_u32_id (fs + 0x14)) by lia.
    rewrite (to_u32_id (fs + 0x14 + 0x2)) by lia.
    rewrite IH; auto; try lia. f_equal. lia.
Qed.

Lemma atlas_ok_total b :
  atlas_ok b ->
  0x64 + 3 * size (widths b) + 22 * size (cmaps b) + size (sheetData b) < 2 ^ 32.
Proof.
  intros [_ _ Hw Hc Hd Hs]. rewrite Hd. unfold u16_max in *.
  change (2 ^ 32) with 4294967296. lia.
Qed.

Lemma compute_layout_ok b : atlas_ok b -> compute_layout b = Done (layout_of b).
Proof.
  intros Hok. pose proof (atlas_ok_total b Hok) as Ht.
  pose proof (size_nonneg (widths b)). pose proof (size_nonneg (cmaps b)).
  pose proof (size_nonneg (sheetData b)).
  change (2 ^ 32) with 4294967296 in Ht.
  unfold compute_layout.
  change (to_u32 (0 + 0x14)) with 0x14.
  change (to_u32 (0x14 + 0x20)) with 0x34.
  change (to_u32 (0x34 + 0x20)) with 0x54.
  change (to_u32 (0x54 + 0x10)) with 0x64.
  rewrite (to_u32_id (0x64 + 3 * size (widths b))) by lia.
  rewrite cmap_sizes_ok; [|apply Hok|lia|change (2 ^ 32) with 4294967296; lia].
  cbn [bind]. rewrite to_u32_id by lia. reflexivity.
Qed.

Lemma serialize_buffer_container b out :
  serialize_buffer b = Done out ->
  exists l, compute_layout b = Done l /\ out = container b l.
Proof.
  unfold serialize_buffer.
  destruct (compute_layout b) as [l| |]; cbn [bind]; try discriminate.
  rewrite write_cfnt_block, write_finf_block, write_tglp_block, write_cwdh_block.
  repeat (destruct (asserting _); cbn [bind]; try discriminate).
  destruct (write_cmaps _ _ _) as [o| |] eqn:Hw; cbn [bind]; try discriminate.
  repeat (destruct (asserting _); cbn [bind]; try discriminate).
  intros H. inversion H; subst; clear H.
  exists l. split; [reflexivity|].
  apply write_cmaps_blocks in Hw. rewrite Hw. unfold container, cfnt_block.
  rewrite le_bytes_to_u32. cbn [app]. rewrite <- !app_assoc. reflexivity.
Qed.

Lemma asserting_eq x y : x = y -> asserting (x =? y) = Done tt.
Proof. intros ->. rewrite Z.eqb_refl. reflexivity. Qed.

Ltac block_sizes :=
  rewrite ?size_app, ?size_cmap_blocks; unfold cwdh_block;
  rewrite ?size_app, ?size_width_bytes;
  cbn [layout_of finfOffset tglpOffset cwdhOffset cmapOffset sheetOffset fileSize];
  change (@size Z []) with 0;
  rewrite ?size_cfnt_block, ?size_finf_block, ?size_tglp_block, ?size_cwdh_header;
  lia.

(** On an atlas the constructor made, no [assert] of [serialize] fires. *)
Lemma serialize_buffer_ok b :
  atlas_ok b -> serialize_buffer b = Done (container b (layout_of b)).
Proof.
  intros Hok. pose proof (atlas_ok_total b Hok) as Ht.
  pose proof (size_nonneg (widths b)). pose proof (size_nonneg (cmaps b)).
  pose proof (size_nonneg (sheetData b)).
  unfold serialize_buffer.
  rewrite compute_layout_ok by assumption. cbn [bind].
  rewrite write_cfnt_block, write_finf_block, write_tglp_block, write_cwdh_block.
  rewrite asserting_eq by reflexivity. cbn [bind].
  rewrite asserting_eq by reflexivity. cbn [bind].
  rewrite asserting_eq by reflexivity. cbn [bind].
  rewrite write_cmaps_ok;
    [| apply Hok | block_sizes | cbn [layout_of cmapOffset]; lia
     | cbn [layout_of cmapOffset]; lia].
  cbn [bind]. rewrite asserting_eq by block_sizes. cbn [bind].
  rewrite asserting_eq by block_sizes. cbn [bind].
  unfold container, cfnt_block. rewrite le_bytes_to_u32.
  cbn [app]. rewrite <- !app_assoc. reflexivity.
Qed.

Lemma size_cmap_blocks_firstn cms : forall off k,
  (k <= length cms)%nat ->
  size (concat (firstn k (cmap_block_list cms off))) = 22 * Z.of_nat k.
Proof.
  induction cms as [|cm cms IH]; intros off k Hk.
  - cbn in Hk. replace k with O by lia. reflexivity.
  - destruct k as [|k]; [reflexivity|].
    cbn [cmap_block_list firstn concat].
    rewrite size_app, size_cmap_block, IH by (cbn in Hk; lia). lia.
Qed.

(** C1: for every atlas the constructor returns, [serialize] builds its
    buffer without any of its assertions failing; the buffer is the CFNT
    header, FINF, TGLP, CWDH, the CMAP blocks and the sheet data in this
    order; its length is the precomputed file size; and the bytes before
    FINF, TGLP, CWDH, the k-th CMAP block and the sheet data number
    exactly the precomputed offset of that section. *)
Theorem serialize_sections_at_precomputed_offsets
    {IM : Imaging} {MB : Members} (face : FT_Face) (fuel : nat) (b : BCFNT) :
  BCFNT_ctor face fuel = Done b ->
  exists l out,
    compute_layout b = Done l /\
    serialize_buffer b = Done out /\
    size out = fileSize l /\
    let cfnt := cfnt_block (fileSize l) (3 + size (cmaps b)) in
    let finf := finf_block b l in
    let tglp := tglp_block b l in
    let cwdh := cwdh_block b in
    let cmap := cmap_block_list (cmaps b) (cmapOffset l) in
    out = cfnt ++ finf ++ tglp ++ cwdh ++ concat cmap ++ sheetData b /\
    size cfnt = finfOffset l /\
    size (cfnt ++ finf) = tglpOffset l /\
    size (cfnt ++ finf ++ tglp) = cwdhOffset l /\
    (forall k, (k <= length (cmaps b))%nat ->
       size (cfnt ++ finf ++ tglp ++ cwdh ++ concat (firstn k cmap)) =
       cmapOffset l + 22 * Z.of_nat k) /\
    size (cfnt ++ finf ++ tglp ++ cwdh ++ concat cmap) = sheetOffset l.
Proof.
  intros Hctor. apply BCFNT_ctor_ok in Hctor.
  exists (layout_of b), (container b (layout_of b)).
  pose proof (size_nonneg (widths b)). pose proof (size_nonneg (cmaps b)).
  split; [apply compute_layout_ok; assumption|].
  split; [apply serialize_buffer_ok; assumption|].
  split; [unfold container; block_sizes|].
  cbv zeta. split; [reflexivity|].
  split; [block_sizes|]. split; [block_sizes|]. split; [block_sizes|].
  split; [|block_sizes].
  intros k Hk. rewrite !size_app, size_cmap_blocks_firstn by assumption.
  block_sizes.
Qed.

Lemma finished_the_atlas o : finished o = true -> o = Done (the_atlas o).
Proof. destruct o; cbn; congruence. Qed.

Lemma serialize_sections_witness :
  exists l out,
    compute_layout (the_atlas (BCFNT_ctor face_ABC 10)) = Done l /\
    serialize_buffer (the_atlas (BCFNT_ctor face_ABC 10)) = Done out /\
    size out = fileSize l /\
    let b := the_atlas (BCFNT_ctor face_ABC 10) in
    let cfnt := cfnt_block (fileSize l) (3 + size (cmaps b)) in
    let finf := finf_block b l in
    let tglp := tglp_block b l in
    let cwdh := cwdh_block b in
    let cmap := cmap_block_list (cmaps b) (cmapOffset l) in
    out = cfnt ++ finf ++ tglp ++ cwdh ++ concat cmap ++ sheetData b /\
    size cfnt = finfOffset l /\
    size (cfnt ++ finf) = tglpOffset l /\
    size (cfnt ++ finf ++ tglp) = cwdhOffset l /\
    (forall k, (k <= length (cmaps b))%nat ->
       size (cfnt ++ finf ++ tglp ++ cwdh ++ concat (firstn k cmap)) =
       cmapOffset l + 22 * Z.of_nat k) /\
    size (cfnt ++ finf ++ tglp ++ cwdh ++ concat cmap) = sheetOffset l.
Proof.
  apply (serialize_sections_at_precomputed_offsets face_ABC 10).
  apply finished_the_atlas. reflexivity.
Defined.

Lemma coalescer_witness :
  (forall pre run post c,
      map_10_ABC_100 = pre ++ run ++ post ->
      run <> [] ->
      keys run = zrange_from c (length run) ->
      ~ In (c - 1) (keys map_10_ABC_100) ->
      ~ In (c + Z.of_nat (length run)) (keys map_10_ABC_100) ->
      collect_cmaps map_10_ABC_100 =
      collect_cmaps pre ++
      [{| codeBegin := c; codeEnd := c + Z.of_nat (length run) - 1;
          mappingMethod := CMAP_TYPE_DIRECT;
          data := CMAPDirect (cfntIndex (snd (hd (0, CharMap_default) run))) |}]
      ++ collect_cmaps post) /\
  (forall pre a b post,
      map_10_ABC_100 = pre ++ a :: b :: post ->
      fst b <> fst a + 1 ->
      exists e rest,
        collect_cmaps map_10_ABC_100 =
        collect_cmaps (pre ++ [a]) ++
        {| codeBegin := fst b; codeEnd := e;
           mappingMethod := CMAP_TYPE_DIRECT;
           data := CMAPDirect (cfntIndex (snd b)) |} :: rest).
Proof.
  apply (coalescer_emits_one_range_per_run map_10_ABC_100).
  - cbn. lia.
  - cbn. intros k Hk. lia.
Defined.

(** The three ranges of that map. *)
Example coalescer_example :
  collect_cmaps map_10_ABC_100 =
  [{| codeBegin := 10; codeEnd := 10; mappingMethod := CMAP_TYPE_DIRECT;
      data := CMAPDirect 0 |};
   {| codeBegin := 65; codeEnd := 67; mappingMethod := CMAP_TYPE_DIRECT;
      data := CMAPDirect 1 |};
   {| codeBegin := 100; codeEnd := 100; mappingMethod := CMAP_TYPE_DIRECT;
      data := CMAPDirect 4 |}].
Proof. reflexivity. Qed.

(* ------------------------------------------------------------------ *)
(** ** Byte order *)

(** C10: whatever buffer [serialize] builds is the container in which
    every 16-bit and 32-bit field (the byte-order mark, the sizes, offsets
    and counts, the range bounds and the Direct payload) is laid down
    least-significant byte first; the byte-order mark 0xFEFF reads FF FE;
    the two stream operators for multi-byte values write exactly this
    encoding; and the first byte of the encoding has weight 1, the next
    256 and so on. *)
Theorem container_fields_little_endian (b : BCFNT) (out : list Z) :
  serialize_buffer b = Done out ->
  (exists l, compute_layout b = Done l /\ out = container b l) /\
  firstn 2 (skipn 4 out) = [0xFF; 0xFE] /\
  (forall o v,
      put_u16 o (to_u16 v) = o ++ le_bytes 2 v /\
      put_u32 o (to_u32 v) = o ++ le_bytes 4 v) /\
  (forall n v,
      Forall is_byte (le_bytes n v) /\
      le_value (le_bytes n v) = v mod 256 ^ Z.of_nat n).
Proof.
  intros Hs. destruct (serialize_buffer_container b out Hs) as [l [Hl ->]].
  split; [exists l; auto|].
  split; [reflexivity|].
  split.
  - intros o v. split; [apply put_u16_le|apply put_u32_le].
  - intros n v. split; [apply le_bytes_is_byte|apply le_value_le_bytes].
Qed.

Lemma finished_the_buffer o : finished o = true -> o = Done (the_buffer o).
Proof. destruct o; cbn; congruence. Qed.

Lemma container_fields_witness :
  (exists l,
      compute_layout (the_atlas (BCFNT_ctor face_ABC_unrendered 10)) = Done l /\
      the_buffer (serialize_buffer (the_atlas (BCFNT_ctor face_ABC_unrendered 10))) =
      container (the_atlas (BCFNT_ctor face_ABC_unrendered 10)) l) /\
  firstn 2 (skipn 4
    (the_buffer (serialize_buffer (the_atlas (BCFNT_ctor face_ABC_unrendered 10)))))
  = [0xFF; 0xFE] /\
  (forall o v,
      put_u16 o (to_u16 v) = o ++ le_bytes 2 v /\
      put_u32 o (to_u32 v) = o ++ le_bytes 4 v) /\
  (forall n v,
      Forall is_byte (le_bytes n v) /\
      le_value (le_bytes n v) = v mod 256 ^ Z.of_nat n).
Proof.
  apply (container_fields_little_endian
           (the_atlas (BCFNT_ctor face_ABC_unrendered 10))).
  apply finished_the_buffer. reflexivity.
Defined.

(** The 122 bytes of that atlas: four blocks and one CMAP block. *)
Example container_example :
  serialize_buffer (the_atlas (BCFNT_ctor face_ABC_unrendered 10)) =
  Done [67; 70; 78; 84; 255; 254; 20; 0; 3; 0; 0; 0; 122; 0; 0; 0; 4; 0; 0; 0;
        70; 73; 78; 70; 32; 0; 0; 0; 1; 19; 0; 0; 0; 0; 0; 1;
        60; 0; 0; 0; 92; 0; 0; 0; 108; 0; 0; 0; 20; 18; 15; 0;
        84; 71; 76; 80; 32; 0; 0; 0; 24; 30; 15; 16; 0; 0; 0; 0; 0; 0; 11; 0;
        10; 0; 10; 0; 0; 1; 0; 2; 122; 0; 0; 0;
        67; 87; 68; 72; 16; 0; 0; 0; 0; 0; 0; 0; 0; 0; 0; 0;
        67; 77; 65; 80; 22; 0; 0; 0; 65; 0; 67; 0; 0; 0; 0; 0; 0; 0; 0; 0; 0; 0].
Proof. reflexivity. Qed.

(* ------------------------------------------------------------------ *)
(** ** The width block read back *)

Lemma decode_width_bytes ws rest :
  Forall width_ok ws -> decode_widths (length ws) (width_bytes ws ++ rest) = ws.
Proof.
  induction 1 as [|w ws Hw Hws IH]; [reflexivity|].
  cbn [length width_bytes flat_map app decode_widths]. fold (width_bytes ws).
  rewrite IH. destruct Hw as [Hl [Hg Hc]].
  rewrite to_i8_to_u8, !to_u8_id by assumption. destruct w; reflexivity.
Qed.

Lemma skipn_size {A : Type} (l1 l2 : list A) n :
  size l1 = n -> skipn (Z.to_nat n) (l1 ++ l2) = l2.
Proof.
  intros <-. unfold size. rewrite Nat2Z.id, skipn_app, skipn_all, Nat.sub_diag.
  reflexivity.
Qed.

(** C6: for every atlas the constructor returns, the bytes [serialize]
    lays down after the 16-byte header of the width block, read three at
    a time as a signed left bearing, a glyph width and an advance width,
    are exactly the width entries recorded during construction, in their
    order; and the entry count in the header is their number. *)
Theorem width_block_round_trip
    {IM : Imaging} {MB : Members} (face : FT_Face) (fuel : nat) (b : BCFNT) :
  BCFNT_ctor face fuel = Done b ->
  exists l out,
    compute_layout b = Done l /\
    serialize_buffer b = Done out /\
    decode_widths (length (widths b))
      (skipn (Z.to_nat (cwdhOffset l + 0x10)) out) = widths b /\
    le_value (firstn 2 (skipn (Z.to_nat (cwdhOffset l + 10)) out)) =
    size (widths b).
Proof.
  intros Hctor. apply BCFNT_ctor_ok in Hctor.
  exists (layout_of b), (container b (layout_of b)).
  split; [apply compute_layout_ok; assumption|].
  split; [apply serialize_buffer_ok; assumption|].
  unfold container, cwdh_block. split.
  - rewrite !app_assoc. rewrite <- (app_assoc _ (width_bytes (widths b))).
    rewrite <- (app_assoc _ (width_bytes (widths b) ++ _)).
    rewrite skipn_size by reflexivity.
    rewrite <- app_assoc. apply decode_width_bytes. apply Hctor.
  - unfold cwdh_header.
    set (n := size (widths b)).
    match goal with
    | |- le_value (firstn 2 (skipn _ ?X)) = _ =>
        replace X with
          ((cfnt_block (fileSize (layout_of b)) (3 + size (cmaps b)) ++
            finf_block b (layout_of b) ++ tglp_block b (layout_of b) ++
            bytes_of_string "CWDH" ++ le_bytes 4 (0x10 + 3 * n) ++ le_bytes 2 0)
           ++ le_bytes 2 n ++ le_bytes 4 0 ++ width_bytes (widths b) ++
              concat (cmap_block_list (cmaps b) (cmapOffset (layout_of b))) ++
              sheetData b)
          by (rewrite <- !app_assoc; reflexivity)
    end.
    rewrite skipn_size by reflexivity.
    cbn [le_bytes app firstn le_value].
    pose proof (ok_nwidths b Hctor) as Hn. fold n in Hn.
    pose proof (size_nonneg (widths b)) as H0. fold n in H0.
    unfold u16_max in Hn.
    pose proof (Z.div_mod n 256 ltac:(lia)).
    rewrite (Z.mod_small (n / 256)); [lia|].
    split; [apply Z.div_pos; lia|apply Z.div_lt_upper_bound; lia].
Qed.

Lemma width_block_witness :
  exists l out,
    compute_layout (the_atlas (BCFNT_ctor face_ABC 10)) = Done l /\
    serialize_buffer (the_atlas (BCFNT_ctor face_ABC 10)) = Done out /\
    decode_widths (length (widths (the_atlas (BCFNT_ctor face_ABC 10))))
      (skipn (Z.to_nat (cwdhOffset l + 0x10)) out) =
    widths (the_atlas (BCFNT_ctor face_ABC 10)) /\
    le_value (firstn 2 (skipn (Z.to_nat (cwdhOffset l + 10)) out)) =
    size (widths (the_atlas (BCFNT_ctor face_ABC 10))).
Proof.
  apply (width_block_round_trip face_ABC 10).
  apply finished_the_atlas. reflexivity.
Defined.

(** The three entries of that atlas. *)
Example width_block_example :
  widths (the_atlas (BCFNT_ctor face_ABC 10)) =
  [{| left := -1; glyphWidth := 2; charWidth := 3 |};
   {| left := -1; glyphWidth := 2; charWidth := 3 |};
   {| left := -1; glyphWidth := 2; charWidth := 3 |}].
Proof. reflexivity. Qed.

(* ------------------------------------------------------------------ *)
(** ** Glyph indices *)

(** C2 as stated fails.  The indices follow the order of the
    enumeration: 'C', reported first, has glyph index 0 and 'A' has glyph
    index 1, in the map and in the ranges of the finished atlas, so the
    indices do not ascend with the code points. *)
Lemma glyph_indices_follow_enumeration :
  build_faceMap face_CA 10 =
  Done [(65, {| code := 65; faceIndex := 2; cfntIndex := 1 |});
        (67, {| code := 67; faceIndex := 1; cfntIndex := 0 |})] /\
  omap (fun b => map (fun cm => (codeBegin cm, codeEnd cm, data cm)) (cmaps b))
       (BCFNT_ctor face_CA 10) =
  Done [(65, 65, CMAPDirect 1); (67, 67, CMAPDirect 0)].
Proof. split; reflexivity. Qed.

Lemma number_from_In n l a :
  In a (number_from n l) ->
  n <= cfntIndex (snd a) < n + Z.of_nat (length l) /\ In (fst a) (codes l).
Proof.
  revert n. induction l as [|[c fi] l IH]; intros n H; [contradiction|].
  cbn [number_from In] in H. cbn [length codes map In fst].
  rewrite Nat2Z.inj_succ. destruct H as [<-|H].
  - cbn. split; [lia|auto].
  - destruct (IH _ H) as [Hn Hin]. split; [lia|right; exact Hin].
Qed.

Lemma number_from_monotone lo l : forall n a b,
  above lo (codes l) ->
  In a (number_from n l) -> In b (number_from n l) ->
  fst a < fst b -> cfntIndex (snd a) < cfntIndex (snd b).
Proof.
  revert lo. induction l as [|[c fi] l IH]; intros lo n a b Ha Hina Hinb Hlt;
    [contradiction|].
  cbn [codes map fst above] in Ha. destruct Ha as [_ Ha].
  cbn [number_from In] in Hina, Hinb.
  destruct Hina as [<-|Hina]; destruct Hinb as [<-|Hinb].
  - cbn in Hlt. lia.
  - destruct (number_from_In _ _ _ Hinb) as [Hn _]. cbn. lia.
  - destruct (number_from_In _ _ _ Hina) as [_ Hin].
    pose proof (above_In _ _ _ Ha Hin). cbn in Hlt. lia.
  - eapply IH; eauto.
Qed.

Lemma zrange_from_above k : forall lo n, lo < n -> above lo (zrange_from n k).
Proof.
  induction k as [|k IH]; intros lo n H; cbn; [exact I|].
  split; [assumption|apply IH; lia].
Qed.

(** C2, as amended: when the face enumerates its code points in ascending
    order, all of them below 0xFFFF, the enumeration loop returns, and the
    glyph indices it assigned are exactly 0, 1, 2, ... in ascending order
    of the code points: they are unique, dense from 0 and strictly
    increasing with the code point. *)
Theorem glyph_indices_of_ascending_enumeration
    (face : FT_Face) (l : list (N * Z)) (fuel : nat) :
  face_enumerates face l ->
  above 0 (codes l) ->
  (forall x, In x (codes l) -> x < u16_max) ->
  (length l < fuel)%nat ->
  exists m,
    build_faceMap face fuel = Done m /\
    keys m = codes l /\
    indices m = zrange_from 0 (length l) /\
    NoDup (indices m) /\
    (forall i, In i (indices m) <-> 0 <= i < Z.of_nat (length l)) /\
    (forall a b, In a m -> In b m -> fst a < fst b ->
                 cfntIndex (snd a) < cfntIndex (snd b)).
Proof.
  intros He Ha Hr Hf. exists (number_from 0 l).
  split; [apply build_faceMap_ascending; assumption|].
  split; [apply keys_number_from|].
  split; [apply indices_number_from|].
  rewrite indices_number_from.
  split; [apply (above_NoDup (-1))|split].
  - apply zrange_from_above. lia.
  - intros i. rewrite zrange_from_In. lia.
  - intros a b. apply (number_from_monotone 0); assumption.
Qed.

Lemma glyph_indices_witness :
  exists m,
    build_faceMap face_ABC 10 = Done m /\
    keys m = codes (code_run 65 3) /\
    indices m = zrange_from 0 (length (code_run 65 3)) /\
    NoDup (indices m) /\
    (forall i, In i (indices m) <-> 0 <= i < Z.of_nat (length (code_run 65 3))) /\
    (forall a b, In a m -> In b m -> fst a < fst b ->
                 cfntIndex (snd a) < cfntIndex (snd b)).
Proof.
  apply (glyph_indices_of_ascending_enumeration face_ABC (code_run 65 3) 10).
  - cbn. repeat split; discriminate.
  - cbn. lia.
  - cbn. unfold u16_max. intros x Hx. lia.
  - cbn. lia.
Defined.

(* ------------------------------------------------------------------ *)
(** ** Code points out of range *)

(** One in-range code point before the out-of-range one changes nothing. *)
Lemma index_loop_stuck_next face fuel c fi m n :
  c <> 0%N -> n <> u16_max ->
  u16_max <= Z.of_N (fst (FT_Get_Next_Char face c)) ->
  index_loop face fuel c fi m n = OutOfFuel.
Proof.
  intros Hc Hn Hnext. destruct fuel as [|fuel]; [reflexivity|].
  cbn [index_loop]. destruct (N.eqb_spec c 0); [contradiction|].
  destruct (Z.leb_spec u16_max (Z.of_N c)).
  - apply index_loop_stuck. assumption.
  - destruct (Z.eqb_spec n u16_max); [contradiction|]. cbn [negb asserting bind].
    destruct (FT_Get_Next_Char face c) as [c' fi'].
    apply index_loop_stuck. assumption.
Qed.

(** C4 fails on the code: once the enumeration reaches a code point at or
    above 0xFFFF, line 127 continues the loop without asking for the next
    code point, so the enumeration loop does not return whatever the fuel,
    and neither does the constructor. *)
Theorem out_of_range_code_never_returns :
  (forall (face : FT_Face) (fuel : nat) (c : N) (fi : Z) (m : FaceMap) (n : Z),
      (u16_max <=? Z.of_N c) = true ->
      index_loop face fuel c fi m n = OutOfFuel) /\
  (forall fuel, BCFNT_ctor face_A_10000 fuel = OutOfFuel).
Proof.
  split.
  - intros face fuel c fi m n H. apply index_loop_stuck. apply Z.leb_le. exact H.
  - intros fuel. unfold BCFNT_ctor, build_faceMap.
    change (FT_Get_First_Char face_A_10000) with (65%N, 1). cbv iota beta.
    rewrite index_loop_stuck_next; [reflexivity|discriminate|discriminate|].
    unfold u16_max. cbn. lia.
Qed.

(* ------------------------------------------------------------------ *)
(** ** The replacement glyph *)

Lemma ctor_altIndex {IM : Imaging} {MB : Members} face fuel m b :
  build_faceMap face fuel = Done m -> m <> [] ->
  BCFNT_ctor face fuel = Done b ->
  altIndex b = select_altIndex m.
Proof.
  intros Hm Hne. unfold BCFNT_ctor. rewrite Hm. cbn [bind].
  destruct m as [|p m']; [congruence|].
  destruct (cmap_loop _ _ _ _ _ _); cbn [bind]; try discriminate.
  intros H. inversion H. reflexivity.
Qed.

(** C8: when the map of indexed code points is not empty, the replacement
    index of the atlas is the glyph index of U+FFFD if that code point is
    indexed; otherwise that of '?' if indexed; otherwise that of the space
    if indexed; otherwise 0. *)
Theorem replacement_glyph_priority
    {IM : Imaging} {MB : Members} (face : FT_Face) (fuel : nat) (m : FaceMap) (b : BCFNT) :
  build_faceMap face fuel = Done m ->
  m <> [] ->
  BCFNT_ctor face fuel = Done b ->
  (forall cm, In (0xFFFD, cm) m -> altIndex b = cfntIndex cm) /\
  (~ In 0xFFFD (keys m) ->
   forall cm, In (63, cm) m -> altIndex b = cfntIndex cm) /\
  (~ In 0xFFFD (keys m) -> ~ In 63 (keys m) ->
   forall cm, In (32, cm) m -> altIndex b = cfntIndex cm) /\
  (~ In 0xFFFD (keys m) -> ~ In 63 (keys m) -> ~ In 32 (keys m) ->
   altIndex b = 0).
Proof.
  intros Hm Hne Hb. rewrite (ctor_altIndex face fuel m b Hm Hne Hb).
  destruct (build_faceMap_indexed face fuel m Hm) as [n [[Ha _ _] _]].
  assert (Hin : forall k cm, In (k, cm) m ->
                count k m = true /\ at_key k m = cm).
  { intros k cm H. split; [|eapply at_key_In; eauto].
    apply count_In. apply (in_map fst _ _ H). }
  assert (Hout : forall k, ~ In k (keys m) -> count k m = false).
  { intros k H. destruct (count k m) eqn:E; [|reflexivity].
    apply count_In in E. contradiction. }
  unfold select_altIndex. repeat split.
  - intros cm H. destruct (Hin _ _ H) as [-> ->]. reflexivity.
  - intros H1 cm H. rewrite (Hout _ H1).
    destruct (Hin _ _ H) as [-> ->]. reflexivity.
  - intros H1 H2 cm H. rewrite (Hout _ H1), (Hout _ H2).
    destruct (Hin _ _ H) as [-> ->]. reflexivity.
  - intros H1 H2 H3. rewrite (Hout _ H1), (Hout _ H2), (Hout _ H3). reflexivity.
Qed.

Lemma replacement_glyph_witness :
  let m := map_space_question_A in
  let b := the_atlas (BCFNT_ctor face_space_question_A 10) in
  (forall cm, In (0xFFFD, cm) m -> altIndex b = cfntIndex cm) /\
  (~ In 0xFFFD (keys m) ->
   forall cm, In (63, cm) m -> altIndex b = cfntIndex cm) /\
  (~ In 0xFFFD (keys m) -> ~ In 63 (keys m) ->
   forall cm, In (32, cm) m -> altIndex b = cfntIndex cm) /\
  (~ In 0xFFFD (keys m) -> ~ In 63 (keys m) -> ~ In 32 (keys m) ->
   altIndex b = 0).
Proof.
  apply (replacement_glyph_priority face_space_question_A 10
           map_space_question_A).
  - reflexivity.
  - discriminate.
  - apply finished_the_atlas. reflexivity.
Defined.

(** There the replacement is '?', glyph index 1. *)
Example replacement_glyph_example :
  altIndex (the_atlas (BCFNT_ctor face_space_question_A 10)) = 1.
Proof. reflexivity. Qed.

(* ------------------------------------------------------------------ *)
(** ** Fixed-point metrics *)

(** C7 as stated fails: the left bearing of -1/64 pixel is stored as -1,
    whereas division by 64 with truncation gives 0. *)
Lemma negative_bearing_is_floored :
  map left (widths (the_atlas (BCFNT_ctor face_ABC 10))) = [-1; -1; -1] /\
  Z.quot (horiBearingX sample_glyph) 64 = 0.
Proof. split; reflexivity. Qed.

Lemma shiftr_6 v : Z.shiftr v 6 = v / 64.
Proof. rewrite Z.shiftr_div_pow2 by lia. reflexivity. Qed.

Section Metrics.

Context {IM : Imaging} {MB : Members}.

Lemma glyph_body_floored face m baseline k st st' :
  Forall (floored_entry face) (st_widths st) ->
  glyph_body face m baseline k st = Done st' ->
  Forall (floored_entry face) (st_widths st').
Proof.
  intros Hw. unfold glyph_body.
  destruct (FT_Load_Glyph face _) as [g|] eqn:Hg; [|intros H; inversion H; subst; auto].
  assert (Hnew : Forall (floored_entry face) (st_widths st ++ [width_info g])).
  { apply Forall_app. split; [assumption|]. constructor; [|constructor].
    exists (faceIndex (at_key k m)), g. unfold width_info.
    cbn [left glyphWidth charWidth]. rewrite !shiftr_6. auto. }
  destruct (_ =? 0); cbn [st_sheet].
  - destruct (asserting _); cbn [bind]; try discriminate.
    destruct (asserting _); cbn [bind]; try discriminate.
    intros H. inversion H; subst. exact Hnew.
  - destruct (st_sheet st); try discriminate.
    destruct (asserting _); cbn [bind]; try discriminate.
    destruct (asserting _); cbn [bind]; try discriminate.
    intros H. inversion H; subst. exact Hnew.
Qed.

Lemma glyph_fold_floored face m baseline ks : forall st st',
  Forall (floored_entry face) (st_widths st) ->
  glyph_fold face m baseline ks st = Done st' ->
  Forall (floored_entry face) (st_widths st').
Proof.
  induction ks as [|k ks IH]; intros st st' Hw Hrun.
  - cbn in Hrun. inversion Hrun; subst. assumption.
  - cbn [glyph_fold] in Hrun.
    destruct (glyph_body face m baseline k st) as [st1| |] eqn:Hb;
      cbn [bind] in Hrun; try discriminate.
    eapply IH; [|exact Hrun]. eapply glyph_body_floored; eauto.
Qed.

Lemma width_info_floored g : width_info g = floored g.
Proof. unfold width_info, floored. rewrite !shiftr_6. reflexivity. Qed.

(** One glyph adds its floored entry when it loads, and nothing when it
    does not. *)
Lemma glyph_body_floored_widths face m baseline k st st' :
  glyph_body face m baseline k st = Done st' ->
  st_widths st' =
  st_widths st ++ match FT_Load_Glyph face (faceIndex (at_key k m)) with
                  | Some g => [floored g]
                  | None => []
                  end.
Proof.
  unfold glyph_body.
  destruct (FT_Load_Glyph face _) as [g|] eqn:Hg;
    [|intros H; inversion H; subst; rewrite app_nil_r; reflexivity].
  rewrite <- width_info_floored.
  destruct (_ =? 0); cbn [st_sheet].
  - destruct (asserting _); cbn [bind]; try discriminate.
    destruct (asserting _); cbn [bind]; try discriminate.
    intros H. inversion H; subst. reflexivity.
  - destruct (st_sheet st); try discriminate.
    destruct (asserting _); cbn [bind]; try discriminate.
    destruct (asserting _); cbn [bind]; try discriminate.
    intros H. inversion H; subst. reflexivity.
Qed.

Lemma glyph_fold_floored_widths face m baseline suf : forall st st',
  Forall (fun kv => at_key (fst kv) m = snd kv) suf ->
  glyph_fold face m baseline (keys suf) st = Done st' ->
  st_widths st' = st_widths st ++ floored_widths face suf.
Proof.
  induction suf as [|kv suf IH]; intros st st' Hat Hrun.
  - cbn in Hrun. inversion Hrun; subst. cbn. rewrite app_nil_r. reflexivity.
  - inversion Hat as [|? ? Hkv Hrest]; subst.
    cbn [keys map glyph_fold] in Hrun. fold (keys suf) in Hrun.
    destruct (glyph_body face m baseline (fst kv) st) as [st1| |] eqn:Hb;
      cbn [bind] in Hrun; try discriminate.
    apply glyph_body_floored_widths in Hb. rewrite Hkv in Hb.
    rewrite (IH st1 st' Hrest Hrun), Hb.
    unfold floored_widths. cbn [flat_map]. rewrite <- app_assoc. reflexivity.
Qed.

(** C7, as amended: every metric of the atlas is the fixed-point value
    shifted right by 6, that is divided by 64 rounding toward minus
    infinity, and then converted to the type that holds it: the five face
    metrics to the type of their members, the three metrics of each glyph
    to their 8-bit fields (a signed one for the left bearing).  The width
    table is exactly the floored entries of the glyphs the face returned
    for the code points of the map, one for each glyph and in the order of
    the code points, so that no stored value is anything else.  Rounding
    down is truncation exactly when the value is not negative or is a
    multiple of 64. *)
Theorem metrics_are_divided_by_64_rounding_down
    (face : FT_Face) (fuel : nat) (b : BCFNT) :
  BCFNT_ctor face fuel = Done b ->
  lineFeed b = metric_member (metrics_height face / 64) /\
  height b = metric_member ((bbox_yMax face - bbox_yMin face) / 64) /\
  width b = metric_member ((bbox_xMax face - bbox_xMin face) / 64) /\
  maxWidth b = metric_member (metrics_max_advance face / 64) /\
  ascent b = metric_member (metrics_ascender face / 64) /\
  (exists m,
      build_faceMap face fuel = Done m /\
      widths b = floored_widths face m) /\
  Forall (floored_entry face) (widths b) /\
  (forall v, 0 <= v \/ v mod 64 = 0 <-> v / 64 = Z.quot v 64).
Proof.
  intros Hb.
  assert (Hq : forall v, 0 <= v \/ v mod 64 = 0 <-> v / 64 = Z.quot v 64).
  { intros v. pose proof (Z.div_mod v 64 ltac:(lia)).
    pose proof (Z.mod_pos_bound v 64 ltac:(lia)).
    pose proof (Z.quot_rem' v 64).
    destruct (Z_lt_le_dec v 0) as [Hneg|Hpos].
    - pose proof (Z.rem_bound_pos_neg v 64 ltac:(lia) ltac:(lia)). lia.
    - pose proof (Z.rem_bound_pos_pos v 64 ltac:(lia) ltac:(lia)). lia. }
  revert Hb. unfold BCFNT_ctor.
  destruct (build_faceMap face fuel) as [m| |] eqn:Hm; cbn [bind]; try discriminate.
  destruct (build_faceMap_indexed face fuel m Hm) as [n [Hi Hn]].
  destruct m as [|p m'] eqn:Em.
  - intros H. inversion H; subst; clear H.
    cbn [lineFeed height width maxWidth ascent widths]. rewrite !shiftr_6.
    repeat split; auto; try apply Hq.
    exists []. split; reflexivity.
  - rewrite <- Em in *. clear Em p m'.
    destruct (cmap_loop face m _ fuel (collect_cmaps m) atlas_init) as [st| |] eqn:Hl;
      cbn [bind]; try discriminate.
    intros H. inversion H; subst; clear H.
    cbn [lineFeed height width maxWidth ascent widths]. rewrite !shiftr_6.
    apply (ctor_pass face fuel m n st _ Hi) in Hl.
    assert (Hflush : st_widths (flush_sheet st) = st_widths st)
      by (unfold flush_sheet; destruct (st_sheet st); reflexivity).
    assert (Hat : Forall (fun kv => at_key (fst kv) m = snd kv) m).
    { apply Forall_forall. intros [k v] Hin.
      apply (at_key_In 0 m k v (ix_keys _ _ Hi) Hin). }
    pose proof (glyph_fold_floored_widths face m _ m atlas_init st Hat Hl) as Hw.
    cbn [atlas_init st_widths app] in Hw.
    apply glyph_fold_floored in Hl; [|constructor].
    repeat split; auto; try apply Hq.
    + exists m. split; [reflexivity|]. rewrite Hflush. exact Hw.
    + rewrite Hflush. exact Hl.
Qed.

End Metrics.

Lemma metrics_witness :
  let b := the_atlas (BCFNT_ctor face_ABC 10) in
  lineFeed b = metric_member (metrics_height face_ABC / 64) /\
  height b = metric_member ((bbox_yMax face_ABC - bbox_yMin face_ABC) / 64) /\
  width b = metric_member ((bbox_xMax face_ABC - bbox_xMin face_ABC) / 64) /\
  maxWidth b = metric_member (metrics_max_advance face_ABC / 64) /\
  ascent b = metric_member (metrics_ascender face_ABC / 64) /\
  (exists m,
      build_faceMap face_ABC 10 = Done m /\
      widths b = floored_widths face_ABC m) /\
  Forall (floored_entry face_ABC) (widths b) /\
  (forall v, 0 <= v \/ v mod 64 = 0 <-> v / 64 = Z.quot v 64).
Proof.
  apply (metrics_are_divided_by_64_rounding_down face_ABC 10).
  apply finished_the_atlas. reflexivity.
Defined.

(* ------------------------------------------------------------------ *)
(** ** Sheet accounting *)

(** C5 as stated fails: with 170 glyphs rasterized out of 171 indexed,
    two sheets are finalized, not ceil (170 / 170) = 1. *)
Lemma failed_glyph_keeps_its_cell :
  omap (fun b => (length (widths b), numSheets b)) (BCFNT_ctor face_171 200) =
  Done (170%nat, 2) /\
  (170 + 169) / 170 = 1.
Proof. split; reflexivity. Qed.

Section Sheets.

Context {IM : Imaging}.
Variable face : FT_Face.
Variable m : FaceMap.
Variable baseline : Z.

Lemma cell_fits k :
  0 <= k ->
  (k mod 170 mod 10 * 24 + 24 <? 256) = true /\
  (k mod 170 / 10 * 30 + 30 <? 512) = true.
Proof.
  intros Hk. pose proof (Z.mod_pos_bound k 170 ltac:(lia)).
  pose proof (Z.mod_pos_bound (k mod 170) 10 ltac:(lia)).
  assert (k mod 170 / 10 < 17) by (apply Z.div_lt_upper_bound; lia).
  assert (0 <= k mod 170 / 10) by (apply Z.div_pos; lia).
  split; apply Z.ltb_lt; lia.
Qed.

Lemma glyph_body_sheets c k st :
  sheet_inv k st -> 0 <= k ->
  cfntIndex (at_key c m) = k ->
  (opens_sheet k = true -> loads face (at_key c m) = true) ->
  exists st',
    glyph_body face m baseline c st = Done st' /\
    sheet_inv (k + 1) st' /\
    length (st_widths st') =
    (length (st_widths st) + (if loads face (at_key c m) then 1 else 0))%nat.
Proof.
  intros [Hinv [H0 Hpos]] Hk Hidx Hopen.
  destruct (cell_fits k Hk) as [Hx Hy].
  assert (Hdone : forall st',
             glyph_body face m baseline c st = Done st' ->
             (0 < k + 1 -> st_sheet st' <> None /\ st_numSheets st' = k / 170) ->
             sheet_inv (k + 1) st').
  { intros st' Hb Hs. split; [|split; [lia|]].
    - apply (glyph_body_inv face m baseline c st st' Hinv Hb).
    - intros Hk1. replace (k + 1 - 1) with k by lia. auto. }
  unfold loads in *. unfold opens_sheet in Hopen.
  unfold glyph_body in *. rewrite Hidx in *.
  destruct (FT_Load_Glyph face (faceIndex (at_key c m))) as [g|].
  - destruct (Z.eqb_spec (k mod 170) 0) as [E|E]; cbn [st_sheet] in *.
    + cbn [new_sheet columns rows] in *. rewrite Hx, Hy in *.
      cbn [asserting bind] in *. eexists. split; [reflexivity|].
      split; [|cbn [st_widths]; rewrite length_app; cbn [length]; lia].
      apply Hdone; [reflexivity|]. intros _. cbn [st_sheet st_numSheets].
      split; [discriminate|].
      unfold flush_sheet.
      destruct (Z.eq_dec k 0) as [->|Hne].
      * destruct (H0 eq_refl) as [-> ->]. reflexivity.
      * destruct (Hpos ltac:(lia)) as [Hs Hn].
        destruct (st_sheet st); [|congruence]. cbn [st_numSheets]. rewrite Hn.
        Z.div_mod_to_equations. lia.
    + assert (0 < k) by (destruct (Z.eq_dec k 0) as [->|]; [cbn in E|]; lia).
      destruct (Hpos ltac:(lia)) as [Hs Hn].
      destruct (st_sheet st) as [s|] eqn:Hsheet; [|congruence].
      destruct (ai_sheet _ Hinv s Hsheet) as [Hc Hr]. rewrite Hc, Hr, Hx, Hy in *.
      cbn [asserting bind] in *. eexists. split; [reflexivity|].
      split; [|cbn [st_widths]; rewrite length_app; cbn [length]; lia].
      apply Hdone; [reflexivity|]. intros _. cbn [st_sheet st_numSheets].
      split; [discriminate|]. rewrite Hn. Z.div_mod_to_equations. lia.
  - exists st. split; [reflexivity|]. split; [|lia].
    apply Hdone; [reflexivity|]. intros _.
    destruct (Z.eqb_spec (k mod 170) 0) as [E|E];
      [specialize (Hopen eq_refl); discriminate|].
    assert (0 < k) by (destruct (Z.eq_dec k 0) as [->|]; [cbn in E|]; lia).
    destruct (Hpos ltac:(lia)) as [Hs Hn]. split; [assumption|].
    rewrite Hn. Z.div_mod_to_equations. lia.
Qed.

Lemma glyph_fold_sheets suf : forall k st,
  sheet_inv k st -> 0 <= k ->
  indices suf = zrange_from k (length suf) ->
  Forall (fun kv => at_key (fst kv) m = snd kv) suf ->
  Forall (fun kv => opens_sheet (cfntIndex (snd kv)) = true ->
                    loads face (snd kv) = true) suf ->
  exists st',
    glyph_fold face m baseline (keys suf) st = Done st' /\
    sheet_inv (k + Z.of_nat (length suf)) st' /\
    length (st_widths st') =
    (length (st_widths st) +
     length (filter (fun kv => loads face (snd kv)) suf))%nat.
Proof.
  induction suf as [|kv suf IH]; intros k st Hinv Hk Hidx Hat Hld.
  - exists st. cbn. rewrite Z.add_0_r. auto.
  - inversion Hat as [|? ? Hat1 Hat2]; subst.
    inversion Hld as [|? ? Hld1 Hld2]; subst.
    cbn [indices map length zrange_from] in Hidx. injection Hidx as Hi1 Hi2.
    destruct (glyph_body_sheets (fst kv) k st Hinv Hk) as [st1 [Hb [Hinv1 Hw1]]].
    + rewrite Hat1. exact Hi1.
    + rewrite Hat1, <- Hi1. exact Hld1.
    + destruct (IH (k + 1) st1 Hinv1 ltac:(lia) Hi2 Hat2 Hld2)
        as [st' [Hf [Hinv' Hw']]].
      exists st'. cbn [keys map glyph_fold]. rewrite Hb. cbn [bind].
      split; [exact Hf|]. cbn [length]. rewrite Nat2Z.inj_succ.
      split; [replace (k + Z.succ (Z.of_nat (length suf)))
                with (k + 1 + Z.of_nat (length suf)) by lia; exact Hinv'|].
      rewrite Hw', Hw1. cbn [filter]. rewrite Hat1.
      destruct (loads face (snd kv)); cbn [length]; lia.
Qed.

End Sheets.

Lemma number_from_at_key lo n l :
  above lo (codes l) ->
  Forall (fun kv => at_key (fst kv) (number_from n l) = snd kv) (number_from n l).
Proof.
  intros Ha. apply Forall_forall. intros [k v] Hin. cbn [fst snd].
  apply (at_key_In lo); [rewrite keys_number_from; exact Ha|exact Hin].
Qed.

(** C5, as amended: the sheets are counted by glyph index, not by
    rasterized glyph.  When the face enumerates N code points in ascending
    order, all below 0xFFFF, and every glyph whose index is a multiple of
    170 rasterizes, the constructor returns with ceil (N / 170) sheets
    recorded, each of 65536 bytes in the sheet data, and with one width
    entry for each glyph that rasterized, G of them; so when every glyph
    rasterizes, the sheets number ceil (G / 170), and none when N is 0. *)
Theorem sheet_count_of_ascending_enumeration
    {IM : Imaging} {MB : Members} (face : FT_Face) (l : list (N * Z)) (fuel : nat) :
  face_enumerates face l ->
  above 0 (codes l) ->
  (forall x, In x (codes l) -> x < u16_max) ->
  (length l < fuel)%nat ->
  Forall (fun kv => opens_sheet (cfntIndex (snd kv)) = true ->
                    loads face (snd kv) = true) (number_from 0 l) ->
  exists b,
    BCFNT_ctor face fuel = Done b /\
    numSheets b = (Z.of_nat (length l) + 169) / 170 /\
    size (sheetData b) = 65536 * numSheets b /\
    length (widths b) =
    length (filter (fun kv => loads face (snd kv)) (number_from 0 l)) /\
    (forallb (fun kv => loads face (snd kv)) (number_from 0 l) = true ->
     numSheets b = (Z.of_nat (length (widths b)) + 169) / 170).
Proof.
  intros He Ha Hr Hf Hld.
  pose proof (build_faceMap_ascending face l fuel He Ha Hr Hf) as Hm.
  assert (Hall : forall b,
    numSheets b = (Z.of_nat (length l) + 169) / 170 ->
    length (widths b) =
    length (filter (fun kv => loads face (snd kv)) (number_from 0 l)) ->
    forallb (fun kv => loads face (snd kv)) (number_from 0 l) = true ->
    numSheets b = (Z.of_nat (length (widths b)) + 169) / 170).
  { intros b Hn Hw Hallb. rewrite Hn, Hw.
    rewrite forallb_filter_id by exact Hallb.
    rewrite length_number_from. reflexivity. }
  unfold BCFNT_ctor. rewrite Hm. cbn [bind].
  destruct l as [|[c fi] l'] eqn:El.
  - cbn [number_from]. eexists. split; [reflexivity|].
    cbn. repeat split; auto.
  - rewrite <- El in *.
    assert (Hi : exists n, indexed (number_from 0 l) n /\ 0 <= n <= u16_max)
      by (apply (build_faceMap_indexed face fuel); exact Hm).
    destruct Hi as [n [Hi Hn]].
    destruct (collect_cmaps_visits _ (ix_keys _ _ Hi)
                (indexed_keys_bound _ n Hi)) as [Hv [Hok _]].
    assert (Hlen : (0 < length (number_from 0 l))%nat)
      by (rewrite length_number_from, El; cbn; lia).
    destruct (number_from 0 l) as [|p m'] eqn:Hmm; [cbn in Hlen; lia|].
    rewrite <- Hmm in *. clear Hmm p m'.
    rewrite cmap_loop_enough; [|exact Hok|].
    2:{ rewrite Hv. unfold keys. rewrite length_map, length_number_from.
        exact Hf. }
    rewrite Hv.
    destruct (glyph_fold_sheets face (number_from 0 l)
                (to_i32 (Z.shiftr (metrics_ascender face) 6))
                (number_from 0 l) 0 atlas_init)
      as [st [Hfold [[Hinv [_ Hpos]] Hw]]].
    + split; [apply atlas_init_inv|]. split; [auto|lia].
    + lia.
    + rewrite indices_number_from, length_number_from. reflexivity.
    + apply (number_from_at_key 0). exact Ha.
    + exact Hld.
    + rewrite Hfold. cbn [bind]. eexists. split; [reflexivity|].
      cbn [numSheets sheetData widths].
      destruct (flush_sheet_inv st Hinv) as [[_ Hd _ _] [Hnum Hws]].
      rewrite length_number_from in Hpos.
      destruct (Hpos ltac:(rewrite length_number_from in Hlen; lia)) as [Hs Hcount].
      assert (Hsheets : st_numSheets (flush_sheet st) =
                        (Z.of_nat (length l) + 169) / 170).
      { rewrite Hnum, Hcount. unfold opened.
        destruct (st_sheet st); [|congruence].
        rewrite length_number_from in Hlen.
        Z.div_mod_to_equations. lia. }
      split; [exact Hsheets|]. split; [exact Hd|].
      assert (Hwidths : length (st_widths (flush_sheet st)) =
                        length (filter (fun kv => loads face (snd kv))
                                       (number_from 0 l))).
      { rewrite Hws, Hw. reflexivity. }
      split; [exact Hwidths|].
      intros Hallb.
      apply (Hall {| lineFeed := 0; height := 0; width := 0; maxWidth := 0;
                     ascent := 0; altIndex := 0; cmaps := [];
                     widths := st_widths (flush_sheet st); sheetData := [];
                     numSheets := st_numSheets (flush_sheet st) |});
        assumption.
Qed.

Lemma sheet_count_witness :
  exists b,
    BCFNT_ctor face_ABC 10 = Done b /\
    numSheets b = (Z.of_nat (length (code_run 65 3)) + 169) / 170 /\
    size (sheetData b) = 65536 * numSheets b /\
    length (widths b) =
    length (filter (fun kv => loads face_ABC (snd kv))
                   (number_from 0 (code_run 65 3))) /\
    (forallb (fun kv => loads face_ABC (snd kv))
             (number_from 0 (code_run 65 3)) = true ->
     numSheets b = (Z.of_nat (length (widths b)) + 169) / 170).
Proof.
  apply (sheet_count_of_ascending_enumeration face_ABC (code_run 65 3) 10).
  - cbn. repeat split; discriminate.
  - cbn. lia.
  - cbn. unfold u16_max. intros x Hx. lia.
  - cbn. lia.
  - cbn. repeat constructor.
Defined.

(* ------------------------------------------------------------------ *)
(** ** Persistence *)

Lemma firstn_plus {A : Type} (a b : nat) : forall l : list A,
  firstn (a + b) l = firstn a l ++ firstn b (skipn a l).
Proof.
  induction a as [|a IH]; intros l; [reflexivity|].
  destruct l as [|x l]; cbn; [rewrite firstn_nil; reflexivity|].
  f_equal. apply IH.
Qed.

Lemma written_snoc ws w : written (ws ++ [w]) = written ws + wc_rc w.
Proof. induction ws as [|x ws IH]; cbn; [lia|rewrite IH; lia]. Qed.

Lemma retries_snoc output ws w : forall off,
  retries output off ws ->
  wc_offset w = off + written ws ->
  wc_requested w = size output - (off + written ws) ->
  retries output off (ws ++ [w]).
Proof.
  induction ws as [|x ws IH]; intros off Hr Ho Hq; cbn in *.
  - rewrite Z.add_0_r in *. auto.
  - destruct Hr as [H1 [H2 H3]]. repeat split; auto.
    apply IH; [assumption|lia|lia].
Qed.

Section Persist.

Variable env : IOEnv.
Variable output : list Z.

Lemma write_loop_returns fuel : forall offset f,
  writing output offset f ->
  (Z.to_nat (size output - offset) < fuel)%nat ->
  exists ret f',
    write_loop env fuel output offset f = Done (ret, f') /\
    closed f' = true /\
    retries output 0 (calls f') /\
    content f' = firstn (Z.to_nat (written (calls f'))) output /\
    (ret = true ->
     content f' = output /\ fclose_ok env = true /\
     Forall (fun w => unrecoverable w = false) (calls f')) /\
    (ret = false ->
     fclose_ok env = false \/
     Exists (fun w => unrecoverable w = true) (calls f')).
Proof.
  induction fuel as [|fuel IH]; intros offset f Hw Hf; [lia|].
  destruct Hw as [Ho Hwr Hc Hr Hs].
  cbn [write_loop]. destruct (Z.ltb_spec offset (size output)) as [Hlt|Hge].
  - unfold fwrite.
    set (req := size output - offset).
    set (rc := Z.min req (Z.of_nat (fwrite_accepts env (length (calls f))))).
    set (err := fwrite_error env (length (calls f))).
    set (w := {| wc_offset := offset; wc_requested := req; wc_rc := rc;
                 wc_error := err |}).
    set (f' := {| content := content f ++
                             firstn (Z.to_nat rc) (skipn (Z.to_nat offset) output);
                  calls := calls f ++ [w]; closed := closed f |}).
    assert (Hrc : 0 <= rc <= req) by (subst rc req; lia).
    assert (Hret : retries output 0 (calls f ++ [w])).
    { apply retries_snoc; auto; cbn; rewrite Hwr; subst req; lia. }
    assert (Hcont : content f' = firstn (Z.to_nat (offset + rc)) output).
    { subst f'. cbn [content]. rewrite Hc, Z2Nat.inj_add by lia.
      symmetry. apply firstn_plus. }
    destruct (negb (rc =? req) && ((rc =? 0) || err)) eqn:Hbad.
    + exists false, (fclose f'). split; [reflexivity|].
      split; [reflexivity|]. cbn [fclose calls content f'].
      split; [exact Hret|]. rewrite written_snoc, Hwr. cbn [wc_rc w].
      split; [exact Hcont|]. split; [discriminate|].
      intros _. right. apply Exists_app. right. constructor. exact Hbad.
    + assert (Hpos : 0 < rc).
      { destruct (Z.eqb_spec rc req); [lia|]. cbn [negb andb] in Hbad.
        apply orb_false_iff in Hbad. destruct Hbad as [Hz _].
        apply Z.eqb_neq in Hz. lia. }
      apply IH; [|subst req; lia].
      split; cbn [calls content f']; auto.
      * subst req. lia.
      * rewrite written_snoc, Hwr. reflexivity.
      * apply Forall_app. split; [assumption|]. constructor; [exact Hbad|constructor].
  - assert (Heq : offset = size output) by lia.
    assert (Hall : content f = output).
    { rewrite Hc, Heq. unfold size. rewrite Nat2Z.id. apply firstn_all. }
    destruct (fclose_ok env) eqn:Hclose.
    + exists true, (fclose f). split; [reflexivity|]. split; [reflexivity|].
      cbn [fclose calls content]. rewrite Hwr.
      repeat split; auto; discriminate.
    + exists false, (fclose f). split; [reflexivity|]. split; [reflexivity|].
      cbn [fclose calls content]. rewrite Hwr.
      repeat split; auto; discriminate.
Qed.

End Persist.

Lemma writing_start output :
  writing output 0 {| content := []; calls := []; closed := false |}.
Proof.
  split; cbn; auto. pose proof (size_nonneg output). lia.
Qed.

Lemma sound_calls_have_no_failure ws :
  Forall (fun w => unrecoverable w = false) ws ->
  Exists (fun w => unrecoverable w = true) ws -> False.
Proof.
  intros Hf He. apply Exists_exists in He. destruct He as [w [Hin Hw]].
  rewrite Forall_forall in Hf. specialize (Hf w Hin). congruence.
Qed.

(** C9: once the buffer is built, [serialize] returns (it does not abort
    and does not loop); every call of [fwrite] offers the whole suffix
    that is still unwritten; the file holds the bytes written so far and
    is closed whenever it was opened; the result is false exactly when the
    file could not be opened, or a call of [fwrite] wrote less than asked
    and either wrote nothing or left the error indicator set, or [fclose]
    failed; and when the result is true the file holds every byte of the
    buffer. *)
Theorem serialize_persists_or_reports
    (env : IOEnv) (fuel : nat) (b : BCFNT) (out : list Z) :
  serialize_buffer b = Done out ->
  (length out < fuel)%nat ->
  exists ret file,
    serialize env fuel b = Done (ret, file) /\
    (ret = false <->
     fopen_ok env = false \/ fclose_ok env = false \/
     exists f, file = Some f /\
               Exists (fun w => unrecoverable w = true) (calls f)) /\
    (ret = true ->
     exists f, file = Some f /\ content f = out /\ closed f = true) /\
    (forall f, file = Some f ->
               closed f = true /\ retries out 0 (calls f) /\
               content f = firstn (Z.to_nat (written (calls f))) out).
Proof.
  intros Hs Hf. unfold serialize. rewrite Hs. cbn [bind]. unfold persist.
  destruct (fopen_ok env) eqn:Hopen.
  - destruct (write_loop_returns env out fuel 0 _ (writing_start out))
      as [ret [f' [Hrun [Hcl [Hret [Hcont [Htrue Hfalse]]]]]]].
    { rewrite Z.sub_0_r. unfold size. rewrite Nat2Z.id. exact Hf. }
    rewrite Hrun. cbn [bind fst snd]. exists ret, (Some f').
    split; [reflexivity|]. split; [|split].
    + split.
      * intros Hr. destruct (Hfalse Hr) as [H|H]; [auto|].
        right. right. exists f'. auto.
      * intros H. destruct ret; [|reflexivity].
        destruct (Htrue eq_refl) as [_ [Hc Hall]].
        destruct H as [H|[H|[f [Hf' He]]]]; try congruence.
        inversion Hf'; subst.
        exfalso. eapply sound_calls_have_no_failure; eauto.
    + intros Hr. destruct (Htrue Hr) as [Hc _]. exists f'. auto.
    + intros f Hf'. inversion Hf'; subst. auto.
  - exists false, None. split; [reflexivity|].
    split; [split; auto|]. split; [discriminate|]. intros f Hf'. discriminate.
Qed.

Lemma serialize_persists_witness :
  exists ret file,
    serialize env_50 200 atlas_ABC_unrendered = Done (ret, file) /\
    (ret = false <->
     fopen_ok env_50 = false \/ fclose_ok env_50 = false \/
     exists f, file = Some f /\
               Exists (fun w => unrecoverable w = true) (calls f)) /\
    (ret = true ->
     exists f, file = Some f /\
               content f = the_buffer (serialize_buffer atlas_ABC_unrendered) /\
               closed f = true) /\
    (forall f, file = Some f ->
               closed f = true /\
               retries (the_buffer (serialize_buffer atlas_ABC_unrendered)) 0 (calls f) /\
               content f =
               firstn (Z.to_nat (written (calls f)))
                      (the_buffer (serialize_buffer atlas_ABC_unrendered))).
Proof.
  apply (serialize_persists_or_reports env_50 200 atlas_ABC_unrendered).
  - apply finished_the_buffer. reflexivity.
  - apply Nat.ltb_lt. reflexivity.
Defined.

(** Three calls write the 122 bytes of that atlas, 50, 50 and 22 at a
    time; on the failing stream the second call ends the run. *)
Example serialize_persists_example :
  omap (fun r => (fst r,
                  option_map (fun f => (map wc_rc (calls f), length (content f),
                                        closed f)) (snd r)))
       (serialize env_50 200 atlas_ABC_unrendered) =
  Done (true, Some ([50; 50; 22], 122%nat, true)) /\
  omap (fun r => (fst r,
                  option_map (fun f => (map wc_rc (calls f), length (content f),
                                        closed f)) (snd r)))
       (serialize env_disk_full 200 atlas_ABC_unrendered) =
  Done (false, Some ([50; 0], 50%nat, true)).
Proof. split; reflexivity. Qed.

(* ================================================================== *)
(** * Further properties *)

(** ** Ranges the serializer does not write *)

Lemma cmap_sizes_other cms : forall fs,
  Exists (fun cm => mappingMethod cm <> CMAP_TYPE_DIRECT) cms ->
  cmap_sizes cms fs = Aborted.
Proof.
  induction cms as [|cm cms IH]; intros fs H; [inversion H|].
  cbn [cmap_sizes].
  destruct (mappingMethod cm) eqn:Hm; try reflexivity.
  apply IH. inversion H as [? ? Hx|? ? Hx]; subst; [congruence|assumption].
Qed.

(** X1: an atlas that holds a range whose mapping method is not Direct is
    not serialized: the size computation reaches [abort ()] (line 279)
    before any byte is written and before the file is opened, whatever the
    file system would have answered. *)
Theorem serialize_rejects_other_mappings (env : IOEnv) (fuel : nat) (b : BCFNT) :
  Exists (fun cm => mappingMethod cm <> CMAP_TYPE_DIRECT) (cmaps b) ->
  compute_layout b = Aborted /\
  serialize_buffer b = Aborted /\
  serialize env fuel b = Aborted.
Proof.
  intros H.
  assert (Hl : compute_layout b = Aborted).
  { unfold compute_layout. rewrite cmap_sizes_other by assumption. reflexivity. }
  assert (Hb : serialize_buffer b = Aborted).
  { unfold serialize_buffer. rewrite Hl. reflexivity. }
  repeat split; try assumption.
  unfold serialize. rewrite Hb. reflexivity.
Qed.

Lemma serialize_rejects_witness :
  compute_layout atlas_with_table = Aborted /\
  serialize_buffer atlas_with_table = Aborted /\
  serialize env_50 10 atlas_with_table = Aborted.
Proof.
  apply (serialize_rejects_other_mappings env_50 10 atlas_with_table).
  constructor. cbn. discriminate.
Defined.

(** ** The face without code points *)

(** X2: when the face reports no code point at all, the constructor
    returns at line 135 with an atlas that has no range, no width entry and
    no sheet, and the serializer turns it into a file of exactly 0x64
    bytes: the header records that length and three blocks, and the
    character-map pointer of the font-info block, [cmapOffset + 8], is 0x6C,
    which lies beyond the end of the file. *)
Theorem empty_face_gives_header_only_file
    {IM : Imaging} {MB : Members} (face : FT_Face) (fuel : nat) :
  fst (FT_Get_First_Char face) = 0%N ->
  (0 < fuel)%nat ->
  exists b out,
    BCFNT_ctor face fuel = Done b /\
    cmaps b = [] /\ widths b = [] /\ sheetData b = [] /\
    serialize_buffer b = Done out /\
    size out = 0x64 /\
    le_value (firstn 4 (skipn 12 out)) = 0x64 /\
    le_value (firstn 4 (skipn 16 out)) = 3 /\
    le_value (firstn 4 (skipn 0x2C out)) = 0x6C /\
    size out < le_value (firstn 4 (skipn 0x2C out)).
Proof.
  intros Hc Hf.
  destruct fuel as [|fuel]; [lia|].
  unfold BCFNT_ctor, build_faceMap.
  destruct (FT_Get_First_Char face) as [c fi]. cbn [fst] in Hc. subst c.
  cbn [index_loop N.eqb bind].
  eexists. eexists.
  split; [reflexivity|]. cbn [cmaps widths sheetData].
  repeat (split; [reflexivity|]).
  reflexivity.
Qed.

Lemma empty_face_witness :
  exists b out,
    BCFNT_ctor face_empty 1 = Done b /\
    cmaps b = [] /\ widths b = [] /\ sheetData b = [] /\
    serialize_buffer b = Done out /\
    size out = 0x64 /\
    le_value (firstn 4 (skipn 12 out)) = 0x64 /\
    le_value (firstn 4 (skipn 16 out)) = 3 /\
    le_value (firstn 4 (skipn 0x2C out)) = 0x6C /\
    size out < le_value (firstn 4 (skipn 0x2C out)).
Proof.
  apply (empty_face_gives_header_only_file face_empty 1); [reflexivity|lia].
Defined.

(** ** What the constructor records, whatever the order of the enumeration *)

Lemma emplace_length k v m : (length (emplace k v m) <= S (length m))%nat.
Proof.
  induction m as [|[k' v'] m IH]; cbn [emplace length]; [lia|].
  destruct (k <? k'); cbn [length]; [lia|].
  destruct (k =? k'); cbn [length]; lia.
Qed.

(** Each entry of the map costs the enumeration loop one unit of fuel. *)
Lemma index_loop_length face fuel : forall c fi m n m',
  index_loop face fuel c fi m n = Done m' ->
  (length m' < length m + fuel)%nat.
Proof.
  induction fuel as [|fuel IH]; intros c fi m n m' H; [discriminate|].
  cbn [index_loop] in H.
  destruct (c =? 0)%N; [inversion H; subst; lia|].
  destruct (u16_max <=? Z.of_N c).
  - apply IH in H. lia.
  - destruct (asserting _); cbn [bind] in H; try discriminate.
    destruct (FT_Get_Next_Char face c) as [c' fi'].
    apply IH in H.
    pose proof (emplace_length (Z.of_N c)
                  {| code := Z.of_N c; faceIndex := fi; cfntIndex := n |} m).
    lia.
Qed.

Lemma build_faceMap_length face fuel m :
  build_faceMap face fuel = Done m -> (length m < fuel)%nat.
Proof.
  unfold build_faceMap. destruct (FT_Get_First_Char face) as [c fi].
  intros H. apply index_loop_length in H. cbn [length] in H. lia.
Qed.

Lemma at_key_all lo m :
  above lo (keys m) -> Forall (fun kv => at_key (fst kv) m = snd kv) m.
Proof.
  intros Ha. apply Forall_forall. intros [k v] Hin.
  apply (at_key_In lo); assumption.
Qed.

(** A cell lies inside the 256x512 sheet, whatever the glyph index. *)
Lemma cell_in_sheet k :
  0 <= k mod 170 mod 10 * 24 /\ k mod 170 mod 10 * 24 + 24 < 256 /\
  0 <= k mod 170 / 10 * 30 /\ k mod 170 / 10 * 30 + 30 < 512.
Proof.
  pose proof (Z.mod_pos_bound k 170 ltac:(lia)).
  pose proof (Z.mod_pos_bound (k mod 170) 10 ltac:(lia)).
  assert (k mod 170 / 10 < 17) by (apply Z.div_lt_upper_bound; lia).
  assert (0 <= k mod 170 / 10) by (apply Z.div_pos; lia).
  lia.
Qed.

Section Recorded.

Context {IM : Imaging}.
Variable face : FT_Face.
Variable m : FaceMap.
Variable baseline : Z.

(** The body of the loop with the two assertions on the cell discharged:
    they hold of every glyph index. *)
Lemma glyph_body_cases c st :
  atlas_inv st ->
  glyph_body face m baseline c st =
  let idx := cfntIndex (at_key c m) in
  match FT_Load_Glyph face (faceIndex (at_key c m)) with
  | None => Done st
  | Some g =>
      if opens_sheet idx then
        Done {| st_widths := st_widths st ++ [width_info g];
                st_sheet := Some (draw_glyph new_sheet (idx mod 170 mod 10 * 24)
                                             (idx mod 170 / 10 * 30) baseline g);
                st_sheetData := st_sheetData (flush_sheet st);
                st_numSheets := st_numSheets (flush_sheet st) |}
      else
        match st_sheet st with
        | None => Aborted
        | Some s =>
            Done {| st_widths := st_widths st ++ [width_info g];
                    st_sheet := Some (draw_glyph s (idx mod 170 mod 10 * 24)
                                                 (idx mod 170 / 10 * 30) baseline g);
                    st_sheetData := st_sheetData st;
                    st_numSheets := st_numSheets st |}
        end
  end.
Proof.
  intros Hinv. unfold glyph_body, opens_sheet. cbv zeta.
  destruct (FT_Load_Glyph face _) as [g|]; [|reflexivity].
  destruct (cell_in_sheet (cfntIndex (at_key c m))) as [_ [Hx [_ Hy]]].
  destruct (cfntIndex (at_key c m) mod 170 =? 0); cbn [st_sheet].
  - cbn [columns rows new_sheet].
    rewrite (proj2 (Z.ltb_lt _ _) Hx), (proj2 (Z.ltb_lt _ _) Hy). reflexivity.
  - destruct (st_sheet st) as [s|] eqn:Hs; [|reflexivity].
    destruct (ai_sheet _ Hinv s Hs) as [-> ->].
    rewrite (proj2 (Z.ltb_lt _ _) Hx), (proj2 (Z.ltb_lt _ _) Hy). reflexivity.
Qed.

Lemma glyph_body_records c st st' :
  atlas_inv st ->
  glyph_body face m baseline c st = Done st' ->
  st_widths st' =
  st_widths st ++ match FT_Load_Glyph face (faceIndex (at_key c m)) with
                  | Some g => [width_info g]
                  | None => []
                  end /\
  st_numSheets st' + opened st' =
  st_numSheets st + opened st +
  (if loads face (at_key c m) && opens_sheet (cfntIndex (at_key c m))
   then 1 else 0).
Proof.
  intros Hinv. rewrite glyph_body_cases by assumption. cbv zeta.
  unfold loads.
  destruct (FT_Load_Glyph face _) as [g|].
  2:{ intros H. inversion H; subst. rewrite app_nil_r. cbn [andb].
      split; [reflexivity|lia]. }
  destruct (opens_sheet _); cbn [andb].
  - intros H. inversion H; subst; clear H.
    cbn [st_widths st_numSheets]. split; [reflexivity|].
    destruct (flush_sheet_inv st Hinv) as [_ [-> _]].
    unfold opened. cbn [st_sheet]. destruct (st_sheet st); lia.
  - destruct (st_sheet st) as [s|] eqn:Hs; [|discriminate].
    intros H. inversion H; subst; clear H.
    cbn [st_widths st_numSheets]. split; [reflexivity|].
    unfold opened. cbn [st_sheet]. rewrite Hs. lia.
Qed.

Lemma glyph_fold_records suf : forall st st',
  atlas_inv st ->
  Forall (fun kv => at_key (fst kv) m = snd kv) suf ->
  glyph_fold face m baseline (keys suf) st = Done st' ->
  st_widths st' = st_widths st ++ recorded_widths face suf /\
  st_numSheets st' + opened st' =
  st_numSheets st + opened st + Z.of_nat (length (sheet_openers face suf)).
Proof.
  induction suf as [|kv suf IH]; intros st st' Hinv Hat Hrun.
  - cbn in Hrun. inversion Hrun; subst. cbn. rewrite app_nil_r.
    split; [reflexivity|lia].
  - inversion Hat as [|? ? Hkv Hrest]; subst.
    cbn [keys map glyph_fold] in Hrun. fold (keys suf) in Hrun.
    destruct (glyph_body face m baseline (fst kv) st) as [st1| |] eqn:Hb;
      cbn [bind] in Hrun; try discriminate.
    destruct (glyph_body_records _ _ _ Hinv Hb) as [Hw Hn].
    destruct (glyph_body_inv face m baseline _ _ _ Hinv Hb) as [Hinv1 _].
    destruct (IH st1 st' Hinv1 Hrest Hrun) as [Hw' Hn'].
    rewrite Hkv in Hw, Hn.
    split.
    + rewrite Hw', Hw. unfold recorded_widths. cbn [flat_map].
      rewrite <- app_assoc. reflexivity.
    + unfold sheet_openers in *. cbn [filter].
      destruct (loads face (snd kv) && opens_sheet (cfntIndex (snd kv)));
        cbn [length]; lia.
Qed.

(** Once a sheet is open, no later glyph ends the run. *)
Lemma glyph_fold_open ks : forall st,
  atlas_inv st -> st_sheet st <> None ->
  exists st', glyph_fold face m baseline ks st = Done st'.
Proof.
  induction ks as [|k ks IH]; intros st Hinv Hs; [eexists; reflexivity|].
  cbn [glyph_fold].
  destruct (glyph_body face m baseline k st) as [st1| |] eqn:Hb; cbn [bind].
  - destruct (glyph_body_inv face m baseline _ _ _ Hinv Hb) as [Hinv1 _].
    apply IH; [assumption|].
    rewrite glyph_body_cases in Hb by assumption. cbv zeta in Hb.
    destruct (FT_Load_Glyph face _); [|inversion Hb; subst; assumption].
    destruct (opens_sheet _); [inversion Hb; subst; discriminate|].
    destruct (st_sheet st); [inversion Hb; subst; discriminate|discriminate].
  - exfalso. rewrite glyph_body_cases in Hb by assumption. cbv zeta in Hb.
    destruct (FT_Load_Glyph face _); [|discriminate].
    destruct (opens_sheet _); [discriminate|].
    destruct (st_sheet st); [discriminate|congruence].
  - exfalso. exact (glyph_body_returns face m baseline k st Hb).
Qed.

(** With no sheet open, the run depends on the first glyph that
    rasterizes. *)
Lemma glyph_fold_first suf : forall st,
  atlas_inv st -> st_sheet st = None ->
  Forall (fun kv => at_key (fst kv) m = snd kv) suf ->
  finished (glyph_fold face m baseline (keys suf) st) =
  match first_loaded face suf with
  | None => true
  | Some kv => opens_sheet (cfntIndex (snd kv))
  end.
Proof.
  induction suf as [|kv suf IH]; intros st Hinv Hs Hat; [reflexivity|].
  inversion Hat as [|? ? Hkv Hrest]; subst.
  cbn [keys map glyph_fold]. fold (keys suf).
  unfold first_loaded. cbn [find]. fold (first_loaded face suf).
  pose proof (glyph_body_cases (fst kv) st Hinv) as Hb. cbv zeta in Hb.
  rewrite Hkv in Hb. unfold loads.
  destruct (FT_Load_Glyph face (faceIndex (snd kv))) as [g|].
  - destruct (opens_sheet (cfntIndex (snd kv))) eqn:Ho.
    + rewrite Hb. cbn [bind].
      destruct (glyph_body_inv face m baseline _ _ _ Hinv Hb) as [Hinv1 _].
      match goal with |- finished (glyph_fold _ _ _ _ ?s) = _ =>
        destruct (glyph_fold_open (keys suf) s Hinv1) as [st' ->] end;
        [cbn [st_sheet]; discriminate|reflexivity].
    + rewrite Hb, Hs. reflexivity.
  - rewrite Hb. cbn [bind]. apply IH; assumption.
Qed.

End Recorded.

Section ConstructedRecords.

Context {IM : Imaging} {MB : Members}.

(** With a map that is not empty, the constructor is the pass over the
    code points of the map followed by the last flush: the fuel that
    sufficed for the enumeration suffices for the loops over the ranges. *)
Lemma ctor_unfold face fuel m :
  build_faceMap face fuel = Done m -> m <> [] ->
  BCFNT_ctor face fuel =
  (st <- glyph_fold face m (to_i32 (Z.shiftr (metrics_ascender face) 6))
                    (keys m) atlas_init ;;
   Done {| lineFeed := metric_member (Z.shiftr (metrics_height face) 6);
           height := metric_member (Z.shiftr (bbox_yMax face - bbox_yMin face) 6);
           width := metric_member (Z.shiftr (bbox_xMax face - bbox_xMin face) 6);
           maxWidth := metric_member (Z.shiftr (metrics_max_advance face) 6);
           ascent := metric_member (Z.shiftr (metrics_ascender face) 6);
           altIndex := select_altIndex m;
           cmaps := collect_cmaps m;
           widths := st_widths (flush_sheet st);
           sheetData := st_sheetData (flush_sheet st);
           numSheets := st_numSheets (flush_sheet st) |}).
Proof.
  intros Hm Hne. unfold BCFNT_ctor. rewrite Hm. cbn [bind].
  destruct (build_faceMap_indexed face fuel m Hm) as [n [Hi Hn]].
  pose proof (build_faceMap_length face fuel m Hm) as Hlen.
  destruct (collect_cmaps_visits m (ix_keys _ _ Hi) (indexed_keys_bound m n Hi))
    as [Hv [Hok _]].
  destruct m as [|p m'] eqn:Em; [congruence|]. rewrite <- Em in *.
  rewrite cmap_loop_enough; [rewrite Hv; reflexivity|assumption|].
  rewrite Hv. unfold keys. rewrite length_map. assumption.
Qed.

(** X3: the width table of a constructed atlas holds one entry for each
    code point of the map whose glyph rasterized, in ascending order of
    the code points, and nothing for a glyph that failed to load: the
    [continue] of line 181 skips the [emplace_back] of line 184.  The
    position of an entry in the table is therefore the number of glyphs
    that rasterized before it, not the glyph index. *)
Theorem width_table_lists_rasterized_glyphs (face : FT_Face) (fuel : nat) (b : BCFNT) :
  BCFNT_ctor face fuel = Done b ->
  exists m,
    build_faceMap face fuel = Done m /\
    widths b = recorded_widths face m /\
    length (widths b) = length (filter (fun kv => loads face (snd kv)) m).
Proof.
  intros Hrun.
  destruct (build_faceMap face fuel) as [m| |] eqn:Hm;
    try (unfold BCFNT_ctor in Hrun; rewrite Hm in Hrun; discriminate).
  exists m. split; [reflexivity|].
  assert (Hw : widths b = recorded_widths face m).
  { destruct (build_faceMap_indexed face fuel m Hm) as [n [Hi Hn]].
    destruct m as [|p m'] eqn:Em.
    - unfold BCFNT_ctor in Hrun. rewrite Hm in Hrun. cbn [bind] in Hrun.
      inversion Hrun; subst. reflexivity.
    - rewrite <- Em in *.
      rewrite (ctor_unfold face fuel m Hm) in Hrun by (rewrite Em; discriminate).
      destruct (glyph_fold face m _ (keys m) atlas_init) as [st| |] eqn:Hf;
        cbn [bind] in Hrun; try discriminate.
      inversion Hrun; subst b; clear Hrun. cbn [widths].
      destruct (glyph_fold_records face m _ m atlas_init st atlas_init_inv
                  (at_key_all 0 m (ix_keys _ _ Hi)) Hf) as [Hw _].
      destruct (glyph_fold_inv face m _ (keys m) atlas_init st atlas_init_inv Hf)
        as [Hinv _].
      destruct (flush_sheet_inv st Hinv) as [_ [_ ->]].
      rewrite Hw. reflexivity. }
  split; [exact Hw|]. rewrite Hw. clear.
  unfold recorded_widths, loads.
  induction m as [|kv m IH]; [reflexivity|]. cbn [flat_map filter].
  rewrite length_app, IH.
  destruct (FT_Load_Glyph face (faceIndex (snd kv))); reflexivity.
Qed.

(** X4: the sheet count of a constructed atlas is the number of code
    points whose glyph rasterized and whose glyph index is a multiple of
    170 (lines 191-200 and the flush of lines 237-241), and the sheet data
    holds 65536 bytes for each of them. *)
Theorem sheets_are_counted_by_opening_glyphs (face : FT_Face) (fuel : nat) (b : BCFNT) :
  BCFNT_ctor face fuel = Done b ->
  exists m,
    build_faceMap face fuel = Done m /\
    numSheets b = Z.of_nat (length (sheet_openers face m)) /\
    size (sheetData b) = 65536 * Z.of_nat (length (sheet_openers face m)).
Proof.
  intros Hrun.
  destruct (build_faceMap face fuel) as [m| |] eqn:Hm;
    try (unfold BCFNT_ctor in Hrun; rewrite Hm in Hrun; discriminate).
  exists m. split; [reflexivity|].
  pose proof (ok_data _ (BCFNT_ctor_ok face fuel b Hrun)) as Hd.
  assert (Hs : numSheets b = Z.of_nat (length (sheet_openers face m))).
  { destruct (build_faceMap_indexed face fuel m Hm) as [n [Hi Hn]].
    destruct m as [|p m'] eqn:Em.
    - unfold BCFNT_ctor in Hrun. rewrite Hm in Hrun. cbn [bind] in Hrun.
      inversion Hrun; subst. reflexivity.
    - rewrite <- Em in *.
      rewrite (ctor_unfold face fuel m Hm) in Hrun by (rewrite Em; discriminate).
      destruct (glyph_fold face m _ (keys m) atlas_init) as [st| |] eqn:Hf;
        cbn [bind] in Hrun; try discriminate.
      inversion Hrun; subst b; clear Hrun. cbn [numSheets].
      destruct (glyph_fold_records face m _ m atlas_init st atlas_init_inv
                  (at_key_all 0 m (ix_keys _ _ Hi)) Hf) as [_ Hn'].
      destruct (glyph_fold_inv face m _ (keys m) atlas_init st atlas_init_inv Hf)
        as [Hinv _].
      destruct (flush_sheet_inv st Hinv) as [_ [-> _]].
      unfold opened in Hn' at 2. cbn [atlas_init st_sheet st_numSheets] in Hn'.
      lia. }
  split; [exact Hs|]. rewrite Hd, Hs. reflexivity.
Qed.

(** X5: once the enumeration has returned a map, the constructor does
    not run out of fuel, and it returns an atlas exactly when no glyph
    rasterizes or the first glyph that does, in ascending order of the
    code points, has a glyph index that is a multiple of 170.  Otherwise
    that glyph meets no open sheet and [assert (sheet)] of line 202 ends
    the run.  The two assertions on the cell (lines 209-210) never fail. *)
Theorem constructor_returns_iff_first_glyph_opens_a_sheet
    (face : FT_Face) (fuel : nat) (m : FaceMap) :
  build_faceMap face fuel = Done m ->
  BCFNT_ctor face fuel <> OutOfFuel /\
  finished (BCFNT_ctor face fuel) =
  match first_loaded face m with
  | None => true
  | Some kv => opens_sheet (cfntIndex (snd kv))
  end.
Proof.
  intros Hm.
  destruct m as [|p m'] eqn:Em.
  - unfold BCFNT_ctor. rewrite Hm. cbn [bind]. split; [discriminate|reflexivity].
  - rewrite <- Em in *.
    rewrite (ctor_unfold face fuel m Hm) by (rewrite Em; discriminate).
    destruct (build_faceMap_indexed face fuel m Hm) as [n [Hi Hn]].
    pose proof (glyph_fold_first face m
                  (to_i32 (Z.shiftr (metrics_ascender face) 6)) m atlas_init
                  atlas_init_inv eq_refl (at_key_all 0 m (ix_keys _ _ Hi))) as Hf.
    pose proof (glyph_fold_returns face m
                  (to_i32 (Z.shiftr (metrics_ascender face) 6)) (keys m) atlas_init)
      as Hr.
    rewrite <- Hf.
    destruct (glyph_fold face m _ (keys m) atlas_init); cbn [bind finished];
      split; try reflexivity; try discriminate; congruence.
Qed.

End ConstructedRecords.

Lemma width_table_witness :
  exists m,
    build_faceMap face_CA 10 = Done m /\
    widths (the_atlas (BCFNT_ctor face_CA 10)) = recorded_widths face_CA m /\
    length (widths (the_atlas (BCFNT_ctor face_CA 10))) =
    length (filter (fun kv => loads face_CA (snd kv)) m).
Proof.
  apply (width_table_lists_rasterized_glyphs face_CA 10).
  apply finished_the_atlas. reflexivity.
Defined.

Lemma sheets_counted_witness :
  exists m,
    build_faceMap face_171 200 = Done m /\
    numSheets (the_atlas (BCFNT_ctor face_171 200)) =
    Z.of_nat (length (sheet_openers face_171 m)) /\
    size (sheetData (the_atlas (BCFNT_ctor face_171 200))) =
    65536 * Z.of_nat (length (sheet_openers face_171 m)).
Proof.
  apply (sheets_are_counted_by_opening_glyphs face_171 200).
  apply finished_the_atlas. reflexivity.
Defined.

Lemma constructor_returns_witness :
  BCFNT_ctor face_ABC_first_missing 10 <> OutOfFuel /\
  finished (BCFNT_ctor face_ABC_first_missing 10) =
  match first_loaded face_ABC_first_missing (number_from 0 (code_run 65 3)) with
  | None => true
  | Some kv => opens_sheet (cfntIndex (snd kv))
  end.
Proof.
  apply (constructor_returns_iff_first_glyph_opens_a_sheet
           face_ABC_first_missing 10 (number_from 0 (code_run 65 3))).
  reflexivity.
Defined.

(** The run the last witness is about: the glyph of 'A' fails, the glyph
    of 'B' has glyph index 1 and meets no sheet. *)
Example first_glyph_missing_example :
  BCFNT_ctor face_ABC_first_missing 10 = Aborted.
Proof. reflexivity. Qed.

(** ** The ranges of a constructed atlas *)

(** The range that holds the one code point [c] and maps it to [i]. *)
Lemma new_cmap_fields c cm :
  0 <= c < 65536 ->
  new_cmap c cm =
  {| codeBegin := c; codeEnd := c; mappingMethod := CMAP_TYPE_DIRECT;
     data := CMAPDirect (cfntIndex cm) |}.
Proof. intros H. unfold new_cmap. rewrite to_u16_id by assumption. reflexivity. Qed.

(** What the coalescer does with the last entry of an ascending map. *)
Lemma collect_cmaps_step l p :
  above 0 (keys (l ++ [p])) ->
  (forall k, In k (keys (l ++ [p])) -> k < u16_max) ->
  0 < fst p < u16_max /\
  ((l = [] /\ collect_cmaps (l ++ [p]) = [new_cmap (fst p) (snd p)]) \/
   exists l' a pre b,
     l = l' ++ [a] /\ collect_cmaps l = pre ++ [b] /\
     codeEnd b = fst a /\ 0 < fst a < fst p /\
     ((fst p = fst a + 1 /\
       collect_cmaps (l ++ [p]) = pre ++ [with_end b (fst p)]) \/
      (fst p <> fst a + 1 /\
       collect_cmaps (l ++ [p]) = (pre ++ [b]) ++ [new_cmap (fst p) (snd p)]))).
Proof.
  intros Ha Hhi.
  rewrite keys_app in Ha, Hhi. apply above_app in Ha. destruct Ha as [Hal Hap].
  cbn [keys map] in Hap. destruct Hap as [Hap _].
  assert (Hpu : fst p < u16_max) by (apply Hhi, in_or_app; right; left; reflexivity).
  destruct l as [|x l0].
  { cbn in Hap. split; [lia|]. left. split; [reflexivity|].
    cbn [app]. rewrite collect_cmaps_cons. reflexivity. }
  destruct (@exists_last _ (x :: l0) ltac:(discriminate)) as [l' [a Hl]].
  rewrite Hl in *. clear Hl x l0.
  rewrite keys_app in Hal, Hap. cbn [keys map] in Hal, Hap.
  rewrite last_last in Hap.
  assert (Ha0 : 0 < fst a).
  { apply (above_In _ _ _ Hal), in_or_app. right. left. reflexivity. }
  split; [lia|]. right.
  destruct (collect_cmaps (l' ++ [a])) as [|y ys] eqn:Hc.
  { exfalso. apply (collect_cmaps_nonempty (l' ++ [a])); [|exact Hc].
    destruct l'; discriminate. }
  destruct (@exists_last _ (y :: ys) ltac:(discriminate)) as [pre [b Hb]].
  rewrite Hb in *. clear Hb y ys.
  pose proof (collect_back_end l' a) as Hend.
  rewrite Hc, back_snoc in Hend.
  rewrite to_u16_id in Hend by (unfold u16_max in *; lia).
  exists l', a, pre, b. repeat split; try assumption.
  rewrite collect_cmaps_snoc, Hc, collect_step_snoc.
  unfold starts_range. rewrite Hend.
  destruct (Z.eqb_spec (fst p) 0); [lia|]. cbn [orb].
  destruct (Z.eqb_spec (fst a) (fst p - 1)) as [E|E]; cbn [negb].
  - left. split; [lia|]. rewrite to_u16_id by (unfold u16_max in *; lia).
    reflexivity.
  - right. split; [lia|reflexivity].
Qed.

Lemma ranges_apart_snoc cms b c :
  ranges_apart (cms ++ [b]) -> codeEnd b + 1 < codeBegin c ->
  ranges_apart ((cms ++ [b]) ++ [c]).
Proof.
  induction cms as [|a cms IH]; intros H Hc.
  - cbn. auto.
  - destruct cms as [|a' cms'].
    + cbn in H |- *. destruct H as [H1 _]. auto.
    + cbn [app ranges_apart] in H |- *. destruct H as [H1 H2].
      split; [exact H1|]. apply IH; assumption.
Qed.

Lemma ranges_apart_with_end cms b e :
  ranges_apart (cms ++ [b]) -> ranges_apart (cms ++ [with_end b e]).
Proof.
  induction cms as [|a cms IH]; intros H.
  - cbn. auto.
  - destruct cms as [|a' cms'].
    + cbn in H |- *. destruct H as [H1 _]. auto.
    + cbn [app ranges_apart] in H |- *. destruct H as [H1 H2].
      split; [exact H1|]. apply IH; assumption.
Qed.

(** Two ranges the coalescer made one after the other do not touch. *)
Lemma collect_cmaps_apart m :
  above 0 (keys m) ->
  (forall k, In k (keys m) -> k < u16_max) ->
  ranges_apart (collect_cmaps m).
Proof.
  induction m as [|p l IH] using rev_ind; intros Ha Hhi; [exact I|].
  destruct (collect_cmaps_step l p Ha Hhi) as [Hp [[-> ->]|H]]; [exact I|].
  destruct H as [l' [a [pre [b [Hl [Hc [Hend [Hap Hcase]]]]]]]].
  assert (IH' : ranges_apart (collect_cmaps l)).
  { apply IH.
    - rewrite keys_app in Ha. apply above_app in Ha. tauto.
    - intros k Hk. apply Hhi. rewrite keys_app. apply in_or_app. auto. }
  rewrite Hc in IH'.
  destruct Hcase as [[E ->]|[E ->]].
  - apply ranges_apart_with_end. assumption.
  - apply ranges_apart_snoc; [assumption|].
    rewrite new_cmap_fields by (unfold u16_max in *; lia).
    cbn [codeBegin]. lia.
Qed.

(** X6: the ranges of a constructed atlas hold the code points of the
    map and nothing else, each exactly once and in ascending order; every
    range is a Direct one with its first code point not above its last
    one; and two neighbouring ranges never touch, so that no two of them
    could have been one. *)
Theorem ranges_partition_the_code_points
    {IM : Imaging} {MB : Members} (face : FT_Face) (fuel : nat) (b : BCFNT) :
  BCFNT_ctor face fuel = Done b ->
  exists m,
    build_faceMap face fuel = Done m /\
    visited (cmaps b) = keys m /\
    Forall range_ok (cmaps b) /\
    ranges_apart (cmaps b) /\
    (forall c, In c (keys m) <->
               exists cm, In cm (cmaps b) /\ codeBegin cm <= c <= codeEnd cm).
Proof.
  intros Hrun.
  destruct (build_faceMap face fuel) as [m| |] eqn:Hm;
    try (unfold BCFNT_ctor in Hrun; rewrite Hm in Hrun; discriminate).
  exists m. split; [reflexivity|].
  destruct (build_faceMap_indexed face fuel m Hm) as [n [Hi Hn]].
  destruct (collect_cmaps_visits m (ix_keys _ _ Hi) (indexed_keys_bound m n Hi))
    as [Hv [Hok _]].
  pose proof (collect_cmaps_apart m (ix_keys _ _ Hi) (indexed_keys_bound m n Hi))
    as Hap.
  assert (Hc : cmaps b = collect_cmaps m).
  { unfold BCFNT_ctor in Hrun. rewrite Hm in Hrun. cbn [bind] in Hrun.
    destruct m as [|p m'].
    - inversion Hrun; subst. reflexivity.
    - destruct (cmap_loop _ _ _ _ _ _); cbn [bind] in Hrun; try discriminate.
      inversion Hrun; subst. reflexivity. }
  rewrite Hc. repeat split; try assumption.
  - intros Hin. rewrite <- Hv in Hin. unfold visited in Hin.
    apply in_flat_map in Hin. destruct Hin as [cm [Hcm Hr]].
    exists cm. split; [assumption|].
    unfold range_codes in Hr. apply zrange_from_In in Hr.
    rewrite Forall_forall in Hok. destruct (Hok cm Hcm) as [Hb _]. lia.
  - intros [cm [Hcm Hr]]. rewrite <- Hv. unfold visited.
    apply in_flat_map. exists cm. split; [assumption|].
    unfold range_codes. apply zrange_from_In. lia.
Qed.

Lemma ranges_partition_witness :
  exists m,
    build_faceMap face_CA 10 = Done m /\
    visited (cmaps (the_atlas (BCFNT_ctor face_CA 10))) = keys m /\
    Forall range_ok (cmaps (the_atlas (BCFNT_ctor face_CA 10))) /\
    ranges_apart (cmaps (the_atlas (BCFNT_ctor face_CA 10))) /\
    (forall c, In c (keys m) <->
               exists cm, In cm (cmaps (the_atlas (BCFNT_ctor face_CA 10))) /\
                          codeBegin cm <= c <= codeEnd cm).
Proof.
  apply (ranges_partition_the_code_points face_CA 10).
  apply finished_the_atlas. reflexivity.
Defined.

(** ** Direct ranges read back *)

Lemma indices_app m1 m2 : indices (m1 ++ m2) = indices m1 ++ indices m2.
Proof. apply map_app. Qed.

(** The last entry of a map numbered in order has the last number. *)
Lemma indices_last n l p :
  indices (l ++ [p]) = zrange_from n (length (l ++ [p])) ->
  indices l = zrange_from n (length l) /\
  cfntIndex (snd p) = n + Z.of_nat (length l).
Proof.
  rewrite indices_app, length_app. cbn [length indices map].
  replace (length l + 1)%nat with (S (length l)) by lia.
  rewrite zrange_from_snoc. intros H. apply app_inj_tail in H. exact H.
Qed.

(** The first and the last code point of a range are code points of the
    map. *)
Lemma collect_cmaps_ends m cm :
  above 0 (keys m) ->
  (forall k, In k (keys m) -> k < u16_max) ->
  In cm (collect_cmaps m) ->
  In (codeBegin cm) (keys m) /\ In (codeEnd cm) (keys m).
Proof.
  intros Ha Hhi Hin.
  destruct (collect_cmaps_visits m Ha Hhi) as [Hv [Hok _]].
  rewrite Forall_forall in Hok. destruct (Hok cm Hin) as [Hb _].
  rewrite <- Hv. unfold visited.
  split; apply in_flat_map; exists cm; (split; [assumption|]);
    unfold range_codes; apply zrange_from_In; lia.
Qed.

(** In a map whose glyph indices count up with the code points, the
    payload of a range is the glyph index of its first code point and
    the glyph indices of the range follow one another. *)
Lemma collect_cmaps_direct n m :
  above 0 (keys m) ->
  (forall k, In k (keys m) -> k < u16_max) ->
  indices m = zrange_from n (length m) ->
  forall cm kv,
    In cm (collect_cmaps m) -> In kv m ->
    codeBegin cm <= fst kv <= codeEnd cm ->
    cfntIndex (snd kv) = direct_offset cm + (fst kv - codeBegin cm).
Proof.
  induction m as [|p l IH] using rev_ind; intros Ha Hhi Hix cm kv Hcm Hkv Hr;
    [destruct Hkv|].
  destruct (indices_last n l p Hix) as [Hixl Hp].
  assert (Hal : above 0 (keys l)).
  { rewrite keys_app in Ha. apply above_app in Ha. tauto. }
  assert (Hhil : forall k, In k (keys l) -> k < u16_max).
  { intros k Hk. apply Hhi. rewrite keys_app. apply in_or_app. auto. }
  assert (Hlt : forall x, In x (keys l) -> x < fst p).
  { intros x Hx. rewrite keys_app in Ha. cbn [keys map] in Ha.
    apply (above_app_lt 0 (keys l) (fst p) [] x); assumption. }
  specialize (IH Hal Hhil Hixl).
  assert (Hold : forall cm', In cm' (collect_cmaps l) -> codeEnd cm' < fst p).
  { intros cm' Hin. apply Hlt. apply (collect_cmaps_ends l cm' Hal Hhil Hin). }
  destruct (collect_cmaps_step l p Ha Hhi) as [Hpr [[El Ec]|H]].
  - subst l. rewrite Ec in Hcm. destruct Hcm as [<-|[]].
    destruct Hkv as [<-|[]].
    rewrite new_cmap_fields by (unfold u16_max in *; lia).
    unfold direct_offset. cbn. lia.
  - destruct H as [l' [a [pre [b [El [Ec [Hend [Hap Hcase]]]]]]]].
    apply in_app_or in Hkv.
    destruct Hcase as [[E Ecs]|[E Ecs]]; rewrite Ecs in Hcm;
      apply in_app_or in Hcm.
    + destruct Hcm as [Hcm|[<-|[]]].
      * assert (Hcm' : In cm (collect_cmaps l))
          by (rewrite Ec; apply in_or_app; auto).
        destruct Hkv as [Hkv|[<-|[]]]; [apply IH; assumption|].
        specialize (Hold cm Hcm'). lia.
      * cbn [with_end codeBegin codeEnd] in Hr.
        unfold direct_offset. cbn [with_end data codeBegin].
        fold (direct_offset b).
        assert (Hb : In b (collect_cmaps l))
          by (rewrite Ec; apply in_or_app; right; left; reflexivity).
        destruct Hkv as [Hkv|[<-|[]]].
        -- apply IH; try assumption.
           assert (fst kv < fst p) by (apply Hlt, in_map; assumption).
           lia.
        -- assert (Hain : In a l)
             by (rewrite El; apply in_or_app; right; left; reflexivity).
           assert (Hbb : In (codeBegin b) (keys l))
             by (apply (collect_cmaps_ends l b Hal Hhil Hb)).
           assert (Hle : codeBegin b <= fst a).
           { rewrite El, keys_app in Hbb. apply in_app_or in Hbb.
             destruct Hbb as [Hbb|[Hbb|[]]]; [|cbn in Hbb; lia].
             rewrite El, keys_app in Hal. cbn [keys map] in Hal.
             pose proof (above_app_lt 0 (keys l') (fst a) [] _ Hal Hbb). lia. }
           pose proof (IH b a Hb Hain ltac:(lia)) as Hia.
           rewrite El in Hixl. apply indices_last in Hixl.
           destruct Hixl as [_ Hai].
           rewrite El, length_app in Hp. cbn [length] in Hp. lia.
    + destruct Hcm as [Hcm|[<-|[]]].
      * assert (Hcm' : In cm (collect_cmaps l)) by (rewrite Ec; assumption).
        destruct Hkv as [Hkv|[<-|[]]]; [apply IH; assumption|].
        specialize (Hold cm Hcm'). lia.
      * rewrite new_cmap_fields in Hr |- * by (unfold u16_max in *; lia).
        cbn [codeBegin codeEnd] in Hr. unfold direct_offset. cbn [data codeBegin].
        destruct Hkv as [Hkv|[<-|[]]]; [|lia].
        assert (fst kv < fst p) by (apply Hlt, in_map; assumption). lia.
Qed.

Lemma lookup_cmaps_cases cms c :
  (lookup_cmaps cms c = None /\
   forall cm, In cm cms -> ~ codeBegin cm <= c <= codeEnd cm) \/
  exists cm,
    In cm cms /\ codeBegin cm <= c <= codeEnd cm /\
    lookup_cmaps cms c = Some (to_u16 (direct_offset cm + (c - codeBegin cm))).
Proof.
  induction cms as [|cm cms IH]; [left; split; [reflexivity|intros ? []]|].
  cbn [lookup_cmaps].
  destruct (Z.leb_spec (codeBegin cm) c); cbn [andb].
  - destruct (Z.leb_spec c (codeEnd cm)).
    + right. exists cm. split; [left; reflexivity|]. split; [lia|reflexivity].
    + destruct IH as [[Hn Hno]|[cm' [Hin [Hr Hs]]]].
      * left. split; [assumption|]. intros cm' [<-|Hin]; [lia|auto].
      * right. exists cm'. split; [right; assumption|]. auto.
  - destruct IH as [[Hn Hno]|[cm' [Hin [Hr Hs]]]].
    + left. split; [assumption|]. intros cm' [<-|Hin]; [lia|auto].
    + right. exists cm'. split; [right; assumption|]. auto.
Qed.

(** X7: when the face reports its code points in ascending order, the
    Direct ranges of the atlas resolve every code point to the glyph
    index the enumeration loop gave it, and resolve no other code point:
    reading the ranges as payload plus distance from the first code point
    of the range gives back the map of lines 118-133. *)
Theorem direct_ranges_resolve_glyph_indices
    {IM : Imaging} {MB : Members} (face : FT_Face) (l : list (N * Z))
    (fuel : nat) (b : BCFNT) :
  face_enumerates face l ->
  above 0 (codes l) ->
  (forall x, In x (codes l) -> x < u16_max) ->
  (length l < fuel)%nat ->
  BCFNT_ctor face fuel = Done b ->
  forall c, lookup_cmaps (cmaps b) c = glyph_index (number_from 0 l) c.
Proof.
  intros He Ha Hhi Hf Hrun c.
  pose proof (build_faceMap_ascending face l fuel He Ha Hhi Hf) as Hm.
  set (m := number_from 0 l) in *.
  assert (Hk : keys m = codes l) by apply keys_number_from.
  assert (Ham : above 0 (keys m)) by (rewrite Hk; assumption).
  assert (Hhim : forall k, In k (keys m) -> k < u16_max)
    by (rewrite Hk; assumption).
  assert (Hix : indices m = zrange_from 0 (length m)).
  { unfold m. rewrite indices_number_from, length_number_from. reflexivity. }
  assert (Hc : cmaps b = collect_cmaps m).
  { unfold BCFNT_ctor in Hrun. rewrite Hm in Hrun. cbn [bind] in Hrun.
    destruct m as [|p m'].
    - inversion Hrun; subst. reflexivity.
    - destruct (cmap_loop _ _ _ _ _ _); cbn [bind] in Hrun; try discriminate.
      inversion Hrun; subst. reflexivity. }
  rewrite Hc. unfold glyph_index.
  destruct (collect_cmaps_visits m Ham Hhim) as [Hv [Hok _]].
  destruct (lookup_cmaps_cases (collect_cmaps m) c)
    as [[Hn Hno]|[cm [Hin [Hr ->]]]].
  - rewrite Hn. destruct (count c m) eqn:Hcount; [|reflexivity].
    exfalso. apply count_In in Hcount. rewrite <- Hv in Hcount.
    unfold visited in Hcount. apply in_flat_map in Hcount.
    destruct Hcount as [cm [Hcm Hrc]].
    unfold range_codes in Hrc. apply zrange_from_In in Hrc.
    rewrite Forall_forall in Hok. destruct (Hok cm Hcm) as [Hb _].
    apply (Hno cm Hcm). lia.
  - assert (Hkey : In c (keys m)).
    { rewrite <- Hv. unfold visited. apply in_flat_map. exists cm.
      split; [assumption|]. unfold range_codes. apply zrange_from_In. lia. }
    rewrite (proj2 (count_In c m) Hkey).
    apply in_map_iff in Hkey. destruct Hkey as [[k v] [Hfst Hkv]].
    cbn [fst] in Hfst. subst k.
    rewrite (at_key_In 0 m c v Ham Hkv).
    pose proof (collect_cmaps_direct 0 m Ham Hhim Hix cm (c, v) Hin Hkv Hr) as Hd.
    cbn [fst snd] in Hd. rewrite <- Hd.
    destruct (number_from_In 0 l (c, v) Hkv) as [Hi _]. cbn [snd] in Hi.
    pose proof (above_length 0 u16_max (codes l) Ha Hhi ltac:(unfold u16_max; lia))
      as Hlen.
    rewrite length_codes_eq in Hlen.
    rewrite to_u16_id by (unfold u16_max in *; lia). reflexivity.
Qed.

Lemma direct_ranges_witness :
  lookup_cmaps (cmaps (the_atlas (BCFNT_ctor face_space_question_A 10))) 63 =
  glyph_index (number_from 0 [(32%N, 1); (63%N, 2); (65%N, 3)]) 63.
Proof.
  apply (direct_ranges_resolve_glyph_indices face_space_question_A
           [(32%N, 1); (63%N, 2); (65%N, 3)] 10).
  - cbn. repeat split; discriminate.
  - cbn. lia.
  - intros x Hx. cbn in Hx. unfold u16_max. lia.
  - cbn. lia.
  - apply finished_the_atlas. reflexivity.
Defined.

(** What the reader finds for '?', for 'A' and for '@', which the face
    does not have. *)
Example direct_ranges_example :
  map (lookup_cmaps (cmaps (the_atlas (BCFNT_ctor face_space_question_A 10))))
      [63; 65; 64] = [Some 1; Some 2; None].
Proof. reflexivity. Qed.

(** ** Glyph indices, whatever the order of the enumeration *)

Lemma emplace_fresh k v m :
  ~ In k (keys m) -> Permutation (emplace k v m) ((k, v) :: m).
Proof.
  induction m as [|[k' v'] m IH]; cbn; intros Hn; [reflexivity|].
  destruct (k <? k'); [reflexivity|].
  destruct (Z.eqb_spec k k') as [E|E]; [exfalso; apply Hn; left; congruence|].
  rewrite IH by (intros Hin; apply Hn; right; exact Hin). apply perm_swap.
Qed.

(** The face answers one way only. *)
Lemma enumerates_unique next : forall l1 l2 cur,
  enumerates next cur l1 -> enumerates next cur l2 -> l1 = l2.
Proof.
  induction l1 as [|p l1 IH]; intros [|q l2] cur H1 H2; cbn in H1, H2.
  - reflexivity.
  - destruct H2 as [-> [Hq _]]. contradiction.
  - destruct H1 as [-> [Hp _]]. contradiction.
  - destruct H1 as [-> [_ H1]]. destruct H2 as [<- [_ H2]].
    f_equal. eapply IH; eassumption.
Qed.

Lemma enumerates_suffix next : forall l1 q l2 cur,
  enumerates next cur (l1 ++ q :: l2) -> enumerates next (next (fst q)) l2.
Proof.
  induction l1 as [|p l1 IH]; intros q l2 cur H; cbn in H.
  - tauto.
  - destruct H as [_ [_ H]]. eapply IH. exact H.
Qed.

(** An enumeration that ends reports no code point twice. *)
Lemma enumerates_NoDup next : forall l cur,
  enumerates next cur l -> NoDup (codes l).
Proof.
  induction l as [|p l IH]; intros cur H; cbn [codes map]; constructor.
  - cbn in H. destruct H as [_ [_ H]]. intros Hin.
    apply in_map_iff in Hin. destruct Hin as [q [Hq Hin]].
    apply N2Z.inj in Hq.
    apply in_split in Hin. destruct Hin as [l1 [l2 ->]].
    pose proof (enumerates_suffix next l1 q l2 _ H) as Hs.
    rewrite Hq in Hs.
    pose proof (enumerates_unique next _ _ _ H Hs) as E.
    apply (f_equal (@length _)) in E. rewrite length_app in E. cbn in E. lia.
  - cbn in H. destruct H as [_ [_ H]]. eapply IH. exact H.
Qed.

(** Distinct code points below [hi] and above 0 are fewer than [hi]. *)
Lemma distinct_codes_bound l hi :
  NoDup l -> (forall x, In x l -> 0 < x < hi) ->
  Z.of_nat (length l) <= hi - 1 \/ hi <= 0.
Proof.
  intros Hnd Hr. destruct (Z.le_gt_cases hi 0) as [|Hhi]; [right; assumption|left].
  assert (H : (length l <= length (zrange_from 1 (Z.to_nat (hi - 1))))%nat).
  { apply NoDup_incl_length; [assumption|].
    intros x Hx. apply zrange_from_In. specialize (Hr x Hx). lia. }
  rewrite zrange_from_length in H. lia.
Qed.

Lemma number_from_app n l1 l2 :
  number_from n (l1 ++ l2) =
  number_from n l1 ++ number_from (n + Z.of_nat (length l1)) l2.
Proof.
  revert n. induction l1 as [|[c fi] l1 IH]; intros n; cbn [app number_from length].
  - rewrite Z.add_0_r. reflexivity.
  - rewrite IH. cbn [app]. do 3 f_equal. lia.
Qed.

Lemma number_from_nth l : forall n i c fi,
  nth_error l i = Some (c, fi) ->
  In (Z.of_N c, {| code := Z.of_N c; faceIndex := fi;
                   cfntIndex := n + Z.of_nat i |}) (number_from n l).
Proof.
  induction l as [|[c0 fi0] l IH]; intros n i c fi H; [destruct i; discriminate|].
  destruct i as [|i]; cbn in H.
  - inversion H; subst. left. rewrite Z.add_0_r. reflexivity.
  - right. replace (n + Z.of_nat (S i)) with (n + 1 + Z.of_nat i) by lia.
    apply IH. exact H.
Qed.

(** The enumeration loop on any enumeration that ends: the map holds the
    entries numbered in the order of the enumeration. *)
Lemma index_loop_numbers face :
  forall l fuel cur m n,
    enumerates (FT_Get_Next_Char face) cur l ->
    NoDup (keys m ++ codes l) ->
    (forall x, In x (codes l) -> x < u16_max) ->
    above 0 (keys m) ->
    0 <= n -> n + Z.of_nat (length l) <= u16_max ->
    (length l < fuel)%nat ->
    exists m',
      index_loop face fuel (fst cur) (snd cur) m n = Done m' /\
      Permutation m' (m ++ number_from n l) /\
      above 0 (keys m').
Proof.
  induction l as [|[c fi] l IH]; intros fuel cur m n He Hnd Hr Ha Hn Hlen Hf;
    (destruct fuel as [|fuel]; [cbn in Hf; lia|]); cbn [index_loop].
  - cbn in He. rewrite He. cbn. rewrite app_nil_r. eauto.
  - cbn in He. destruct He as [-> [Hc He]]. cbn [fst snd] in *.
    destruct (N.eqb_spec c 0); [contradiction|].
    assert (Z.of_N c < u16_max) by (apply Hr; left; reflexivity).
    destruct (Z.leb_spec u16_max (Z.of_N c)); [lia|].
    cbn [length] in Hlen.
    destruct (Z.eqb_spec n u16_max); [lia|]. cbn [negb asserting bind].
    rewrite to_u16_id by (unfold u16_max in *; lia).
    set (v := {| code := Z.of_N c; faceIndex := fi; cfntIndex := n |}).
    assert (Hfresh : ~ In (Z.of_N c) (keys m)).
    { intros Hin. cbn [codes map] in Hnd. apply NoDup_remove_2 in Hnd.
      apply Hnd, in_or_app. left. exact Hin. }
    pose proof (emplace_fresh (Z.of_N c) v m Hfresh) as Hperm.
    destruct (FT_Get_Next_Char face c) as [c' fi'] eqn:Hnext.
    change c' with (fst (c', fi')). change fi' with (snd (c', fi')) at 2.
    destruct (IH fuel (c', fi') (emplace (Z.of_N c) v m) (n + 1)) as [m' [Hrun [Hp Ha']]].
    + exact He.
    + apply (Permutation_NoDup (l := (Z.of_N c :: keys m) ++ codes l)).
      * apply Permutation_app_tail. symmetry.
        change (Z.of_N c :: keys m) with (keys ((Z.of_N c, v) :: m)).
        unfold keys. apply Permutation_map. exact Hperm.
      * cbn [app]. cbn [codes map] in Hnd.
        apply (Permutation_NoDup (l := keys m ++ Z.of_N c :: map (fun p => Z.of_N (fst p)) l));
          [|exact Hnd].
        symmetry. apply Permutation_middle.
    + intros x Hx. apply Hr. right. exact Hx.
    + apply emplace_above; [lia|assumption].
    + lia.
    + lia.
    + cbn in Hf. lia.
    + exists m'. split; [exact Hrun|]. split; [|exact Ha'].
      rewrite Hp. cbn [number_from]. fold v.
      rewrite Hperm. cbn [app]. apply Permutation_middle.
Qed.

(** X8: whatever the order in which the face reports its code points,
    as long as all of them are below 0xFFFF the enumeration loop returns the
    map that holds every reported code point once, under ascending keys,
    with the face index reported for it and with its position in the
    enumeration as its glyph index (lines 123-133: [cfntIndex++] at each
    [emplace]).  The glyph index follows the order of the enumeration, not
    the order of the code points. *)
Theorem glyph_index_is_position_in_enumeration
    (face : FT_Face) (l : list (N * Z)) (fuel : nat) :
  face_enumerates face l ->
  (forall x, In x (codes l) -> x < u16_max) ->
  (length l < fuel)%nat ->
  exists m,
    build_faceMap face fuel = Done m /\
    Permutation m (number_from 0 l) /\
    above 0 (keys m) /\
    (forall i c fi,
        nth_error l i = Some (c, fi) ->
        count (Z.of_N c) m = true /\
        at_key (Z.of_N c) m =
        {| code := Z.of_N c; faceIndex := fi; cfntIndex := Z.of_nat i |}).
Proof.
  intros He Hr Hf.
  pose proof (enumerates_NoDup _ _ _ He) as Hnd.
  assert (Hpos : forall x, In x (codes l) -> 0 < x < u16_max).
  { intros x Hx. split; [|auto].
    apply in_map_iff in Hx. destruct Hx as [p [<- Hp]].
    apply in_split in Hp. destruct Hp as [l1 [l2 ->]].
    clear - He. unfold face_enumerates in He.
    revert He. generalize (FT_Get_First_Char face).
    induction l1 as [|q l1 IH]; intros cur He; cbn in He.
    - destruct He as [_ [Hne _]]. lia.
    - destruct He as [_ [_ He]]. eapply IH. exact He. }
  destruct (distinct_codes_bound (codes l) u16_max Hnd Hpos) as [Hlen|Hlen];
    [|unfold u16_max in Hlen; lia].
  rewrite length_codes_eq in Hlen.
  unfold build_faceMap.
  destruct (FT_Get_First_Char face) as [c fi] eqn:Hfirst.
  change c with (fst (c, fi)). change fi with (snd (c, fi)) at 2.
  rewrite <- Hfirst.
  destruct (index_loop_numbers face l fuel (FT_Get_First_Char face) [] 0)
    as [m [Hrun [Hp Ha]]]; auto; try lia; [exact I|].
  exists m. split; [exact Hrun|]. split; [exact Hp|]. split; [exact Ha|].
  intros i c0 fi0 Hnth.
  pose proof (number_from_nth l 0 i c0 fi0 Hnth) as Hin.
  rewrite Z.add_0_l in Hin.
  apply (Permutation_in _ (Permutation_sym Hp)) in Hin.
  split.
  - apply count_In. apply (in_map fst) in Hin. exact Hin.
  - apply (at_key_In 0 m _ _ Ha Hin).
Qed.

Lemma glyph_index_position_witness :
  exists m,
    build_faceMap face_CA 10 = Done m /\
    Permutation m (number_from 0 [(67%N, 1); (65%N, 2)]) /\
    above 0 (keys m) /\
    (forall i c fi,
        nth_error [(67%N, 1); (65%N, 2)] i = Some (c, fi) ->
        count (Z.of_N c) m = true /\
        at_key (Z.of_N c) m =
        {| code := Z.of_N c; faceIndex := fi; cfntIndex := Z.of_nat i |}).
Proof.
  apply (glyph_index_is_position_in_enumeration face_CA [(67%N, 1); (65%N, 2)] 10).
  - cbn. repeat split; discriminate.
  - intros x Hx. cbn in Hx. unfold u16_max. lia.
  - cbn. lia.
Defined.

(** ** The calls of [fwrite] *)

Lemma Forall_removelast {A : Type} (P : A -> Prop) (l : list A) :
  Forall P l -> Forall P (removelast l).
Proof.
  induction l as [|a l IH]; intros H; [constructor|].
  inversion H; subst. cbn [removelast].
  destruct l; [constructor|]. constructor; auto.
Qed.

Section Calls.

Variable env : IOEnv.
Variable output : list Z.

(** Every call but the last one advances, and there are no more calls
    than bytes. *)
Lemma write_loop_advances fuel : forall offset f ret f',
  0 <= offset <= size output ->
  Z.of_nat (length (calls f)) <= offset ->
  Forall advancing (calls f) ->
  write_loop env fuel output offset f = Done (ret, f') ->
  Forall advancing (removelast (calls f')) /\
  Forall well_formed_call (calls f') /\
  Z.of_nat (length (calls f')) <= size output /\
  (ret = true -> Forall advancing (calls f')).
Proof.
  induction fuel as [|fuel IH]; intros offset f ret f' Ho Hn Hadv Hrun;
    [discriminate|].
  assert (Hwf : Forall well_formed_call (calls f)).
  { eapply Forall_impl; [|exact Hadv]. intros w [H1 _].
    unfold well_formed_call. lia. }
  cbn [write_loop] in Hrun.
  destruct (Z.ltb_spec offset (size output)) as [Hlt|Hge].
  - unfold fwrite in Hrun.
    set (req := size output - offset) in *.
    set (rc := Z.min req (Z.of_nat (fwrite_accepts env (length (calls f))))) in *.
    set (err := fwrite_error env (length (calls f))) in *.
    set (w := {| wc_offset := offset; wc_requested := req; wc_rc := rc;
                 wc_error := err |}) in *.
    assert (Hrc : 0 <= rc <= req) by (subst rc req; lia).
    assert (Hw : well_formed_call w) by (unfold well_formed_call; cbn; subst req; lia).
    destruct (negb (rc =? req) && ((rc =? 0) || err)) eqn:Hbad.
    + inversion Hrun; subst ret f'; clear Hrun. cbn [fclose calls].
      rewrite removelast_last, length_app. cbn [length].
      split; [assumption|]. split; [apply Forall_app; auto|].
      split; [lia|discriminate].
    + assert (Hpos : 0 < rc).
      { destruct (Z.eqb_spec rc req); [subst req; lia|]. cbn [negb andb] in Hbad.
        apply orb_false_iff in Hbad. destruct Hbad as [Hz _].
        apply Z.eqb_neq in Hz. lia. }
      apply IH in Hrun; [exact Hrun|subst req; lia| |]; cbn [calls].
      * rewrite length_app. cbn [length]. lia.
      * apply Forall_app. split; [assumption|]. constructor; [|constructor].
        split; [cbn; lia|exact Hbad].
  - assert (Hres : f' = fclose f) by (destruct (fclose_ok env); congruence).
    subst f'. cbn [fclose calls].
    split; [apply Forall_removelast; assumption|].
    split; [assumption|]. split; [lia|auto].
Qed.

(** On a stream that never sets its error indicator and takes at least
    one byte at each call, the loop writes the whole buffer, however short
    the writes are. *)
Lemma write_loop_completes fuel : forall offset f,
  (forall n, fwrite_error env n = false /\ (0 < fwrite_accepts env n)%nat) ->
  0 <= offset <= size output ->
  content f = firstn (Z.to_nat offset) output ->
  (Z.to_nat (size output - offset) < fuel)%nat ->
  exists f',
    write_loop env fuel output offset f = Done (fclose_ok env, f') /\
    content f' = output /\ closed f' = true.
Proof.
  induction fuel as [|fuel IH]; intros offset f Henv Ho Hc Hf; [lia|].
  cbn [write_loop].
  destruct (Z.ltb_spec offset (size output)) as [Hlt|Hge].
  - unfold fwrite.
    destruct (Henv (length (calls f))) as [Herr Hacc]. rewrite Herr.
    set (req := size output - offset).
    set (rc := Z.min req (Z.of_nat (fwrite_accepts env (length (calls f))))).
    assert (Hrc : 0 < rc <= req) by (subst rc req; lia).
    rewrite orb_false_r.
    destruct (Z.eqb_spec rc 0) as [E|E]; [lia|].
    rewrite andb_false_r.
    apply IH; [assumption|subst req; lia| |subst req; lia].
    cbn [content]. rewrite Hc, Z2Nat.inj_add by lia. symmetry. apply firstn_plus.
  - assert (Heq : offset = size output) by lia.
    assert (Hall : content f = output).
    { rewrite Hc, Heq. unfold size. rewrite Nat2Z.id. apply firstn_all. }
    exists (fclose f). split; [destruct (fclose_ok env); reflexivity|].
    split; [exact Hall|reflexivity].
Qed.

End Calls.

(** X9: the write loop of lines 398-416 never calls [fwrite] for zero
    bytes and makes no more calls than the buffer has bytes: every call
    but the last one wrote at least one byte and did not meet the failure
    test, and no call is counted as having written more than it was asked
    to.  When [serialize] returns true, the last call advanced as well. *)
Theorem fwrite_is_called_at_most_once_per_byte
    (env : IOEnv) (fuel : nat) (b : BCFNT) (out : list Z) (ret : bool) (f : File) :
  serialize_buffer b = Done out ->
  serialize env fuel b = Done (ret, Some f) ->
  (length (calls f) <= length out)%nat /\
  Forall well_formed_call (calls f) /\
  Forall advancing (removelast (calls f)) /\
  (ret = true -> Forall advancing (calls f)).
Proof.
  intros Hs Hrun. unfold serialize in Hrun. rewrite Hs in Hrun.
  cbn [bind] in Hrun. unfold persist in Hrun.
  destruct (fopen_ok env); [|discriminate].
  destruct (write_loop env fuel out 0 _) as [[r f']| |] eqn:Hl;
    cbn [bind fst snd] in Hrun; try discriminate.
  inversion Hrun; subst r f'; clear Hrun.
  apply write_loop_advances in Hl; cbn [calls length].
  - destruct Hl as [H1 [H2 [H3 H4]]]. unfold size in H3.
    repeat split; auto. lia.
  - pose proof (size_nonneg out). lia.
  - lia.
  - constructor.
Qed.

Lemma fwrite_calls_witness :
  let out := the_buffer (serialize_buffer atlas_ABC_unrendered) in
  let f := {| content := out;
              calls := [{| wc_offset := 0; wc_requested := 122; wc_rc := 50;
                           wc_error := false |};
                        {| wc_offset := 50; wc_requested := 72; wc_rc := 50;
                           wc_error := false |};
                        {| wc_offset := 100; wc_requested := 22; wc_rc := 22;
                           wc_error := false |}];
              closed := true |} in
  (length (calls f) <= length out)%nat /\
  Forall well_formed_call (calls f) /\
  Forall advancing (removelast (calls f)) /\
  (true = true -> Forall advancing (calls f)).
Proof.
  intros out f.
  apply (fwrite_is_called_at_most_once_per_byte env_50 200 atlas_ABC_unrendered out true f).
  - apply finished_the_buffer. reflexivity.
  - reflexivity.
Defined.

(** X10: on a stream that opens, never sets its error indicator and
    takes at least one byte at each call, a short write is retried until the
    whole buffer is written, however small the pieces: the file holds
    exactly the buffer and is closed, and [serialize] returns what
    [fclose] reports. *)
Theorem short_writes_are_retried_to_completion
    (env : IOEnv) (fuel : nat) (b : BCFNT) (out : list Z) :
  serialize_buffer b = Done out ->
  (length out < fuel)%nat ->
  fopen_ok env = true ->
  (forall n, fwrite_error env n = false /\ (0 < fwrite_accepts env n)%nat) ->
  exists f,
    serialize env fuel b = Done (fclose_ok env, Some f) /\
    content f = out /\ closed f = true.
Proof.
  intros Hs Hf Hopen Henv. unfold serialize. rewrite Hs. cbn [bind].
  unfold persist. rewrite Hopen.
  destruct (write_loop_completes env out fuel 0
              {| content := []; calls := []; closed := false |} Henv)
    as [f' [Hrun [Hc Hcl]]].
  { pose proof (size_nonneg out). lia. }
  { reflexivity. }
  { rewrite Z.sub_0_r. unfold size. rewrite Nat2Z.id. exact Hf. }
  rewrite Hrun. cbn [bind fst snd]. exists f'. auto.
Qed.

Lemma short_writes_witness :
  exists f,
    serialize env_50 200 atlas_ABC_unrendered = Done (fclose_ok env_50, Some f) /\
    content f = the_buffer (serialize_buffer atlas_ABC_unrendered) /\
    closed f = true.
Proof.
  apply (short_writes_are_retried_to_completion env_50 200 atlas_ABC_unrendered).
  - apply finished_the_buffer. reflexivity.
  - cbn. lia.
  - reflexivity.
  - intros n. cbn. split; [reflexivity|lia].
Defined.

(** ** The file read back through its pointers *)

Lemma length_le_bytes n : forall v, length (le_bytes n v) = n.
Proof. induction n as [|n IH]; intros v; cbn; [reflexivity|]. rewrite IH. reflexivity. Qed.

Lemma read_le_skip n pre l d :
  0 <= d -> read_le n (pre ++ l) (size pre + d) = read_le n l d.
Proof.
  intros Hd. unfold read_le, size.
  rewrite Z2Nat.inj_add, Nat2Z.id by lia.
  rewrite skipn_app, skipn_all2 by lia. cbn [app].
  replace (length pre + Z.to_nat d - length pre)%nat with (Z.to_nat d) by lia.
  reflexivity.
Qed.

Lemma read_le_step n a l d :
  (size a <=? d) = true -> read_le n (a ++ l) d = read_le n l (d - size a).
Proof.
  intros H. apply Z.leb_le in H.
  replace d with (size a + (d - size a)) at 1 by lia.
  apply read_le_skip. lia.
Qed.

Lemma read_le_here n v l : read_le n (le_bytes n v ++ l) 0 = v mod 256 ^ Z.of_nat n.
Proof.
  unfold read_le. cbn [Z.to_nat skipn].
  rewrite firstn_app, length_le_bytes, Nat.sub_diag, firstn_O, app_nil_r.
  rewrite firstn_all2 by (rewrite length_le_bytes; lia).
  apply le_value_le_bytes.
Qed.

Lemma read_bytes_skip n pre l d :
  0 <= d -> read_bytes n (pre ++ l) (size pre + d) = read_bytes n l d.
Proof.
  intros Hd. unfold read_bytes, size.
  rewrite Z2Nat.inj_add, Nat2Z.id by lia.
  rewrite skipn_app, skipn_all2 by lia. cbn [app].
  replace (length pre + Z.to_nat d - length pre)%nat with (Z.to_nat d) by lia.
  reflexivity.
Qed.

(** Strips the fields before the one at the offset read. *)
Ltac field_at_offset :=
  repeat (rewrite read_le_step by reflexivity);
  match goal with
  | |- context [read_le _ _ ?e] => change e with 0
  end;
  rewrite read_le_here.

(** The reader on the blocks of a list of ranges laid down at [off]. *)
Lemma read_cmaps_blocks cms : forall pre post off,
  Forall range_ok cms ->
  Forall (fun cm => 0 <= direct_offset cm < 65536) cms ->
  size pre = off -> 0 <= off -> off + 22 * size cms < 2 ^ 32 ->
  read_cmaps (length cms) (pre ++ concat (cmap_block_list cms off) ++ post) (off + 8) =
  map cmap_fields cms.
Proof.
  induction cms as [|cm rest IH]; intros pre post off Hok Hpay Hs H0 Hlt;
    [reflexivity|].
  inversion Hok as [|? ? Hcm Hrest]; subst.
  inversion Hpay as [|? ? Hp Hprest]; subst.
  destruct Hcm as [Hb [He [Hm [o Hd]]]].
  change (2 ^ 32) with 4294967296 in Hlt.
  unfold size in Hlt. cbn [length] in Hlt. fold (size pre) in *. fold (size rest) in Hlt.
  pose proof (size_nonneg rest) as Hr0.
  cbn [length read_cmaps map cmap_block_list concat].
  change (to_u32 (0x14 + 0x2)) with 22.
  rewrite <- !Z.add_assoc. cbn [Z.add Pos.add Pos.succ].
  rewrite <- !app_assoc.
  rewrite !read_le_skip by lia.
  assert (Hf1 : forall last tl,
             read_le 2 (cmap_block cm (size pre) last ++ tl) 8 = codeBegin cm).
  { intros last tl. unfold cmap_block. rewrite <- !app_assoc.
    field_at_offset. apply Z.mod_small. unfold u16_max in *. cbn. lia. }
  assert (Hf2 : forall last tl,
             read_le 2 (cmap_block cm (size pre) last ++ tl) 10 = codeEnd cm).
  { intros last tl. unfold cmap_block. rewrite <- !app_assoc.
    field_at_offset. apply Z.mod_small. unfold u16_max in *. cbn. lia. }
  assert (Hf3 : forall last tl,
             read_le 2 (cmap_block cm (size pre) last ++ tl) 12 =
             method_tag (mappingMethod cm)).
  { intros last tl. unfold cmap_block. rewrite <- !app_assoc.
    field_at_offset. rewrite Hm. reflexivity. }
  assert (Hf4 : forall tl,
             read_le 4 (cmap_block cm (size pre)
                          (match rest with [] => true | _ => false end) ++ tl) 16 =
             (match rest with [] => 0 | _ => size pre + 22 + 8 end)).
  { intros tl. unfold cmap_block. rewrite <- !app_assoc.
    field_at_offset. change (to_u32 (0x14 + 0x2)) with 22.
    change (256 ^ Z.of_nat 4) with 4294967296.
    destruct rest; [reflexivity|]. apply Z.mod_small.
    unfold size in *. cbn [length] in Hlt. lia. }
  assert (Hf5 : forall last tl,
             read_le 2 (cmap_block cm (size pre) last ++ tl) 20 = direct_offset cm).
  { intros last tl. unfold cmap_block. rewrite <- !app_assoc.
    field_at_offset. apply Z.mod_small. exact Hp. }
  rewrite Hf1, Hf2, Hf3, Hf4, Hf5.
  destruct rest as [|cm' rest']; [reflexivity|].
  set (rest := cm' :: rest') in *.
  destruct (Z.eqb_spec (size pre + 22 + 8) 0) as [E|_]; [lia|].
  unfold cmap_fields at 1. f_equal.
  assert (Hoff : to_u32 (size pre + 22) = size pre + 22).
  { apply to_u32_id. subst rest. unfold size in *. cbn [length] in Hlt. lia. }
  rewrite Hoff, app_assoc.
  apply IH; try assumption.
  - rewrite size_app, size_cmap_block. reflexivity.
  - lia.
  - change (2 ^ 32) with 4294967296. subst rest. unfold size in *.
    cbn [length] in *. lia.
Qed.

Lemma read_bytes_at n pre l off :
  size pre = off -> read_bytes n (pre ++ l) off = firstn n l.
Proof. intros H. unfold read_bytes. rewrite skipn_size by assumption. reflexivity. Qed.

(** The payload of a range is the glyph index of its first code point. *)
Lemma collect_cmaps_payload m :
  above 0 (keys m) ->
  (forall k, In k (keys m) -> k < u16_max) ->
  forall cm, In cm (collect_cmaps m) ->
  exists kv, In kv m /\ codeBegin cm = fst kv /\
             direct_offset cm = cfntIndex (snd kv).
Proof.
  induction m as [|p l IH] using rev_ind; intros Ha Hhi cm Hcm; [destruct Hcm|].
  assert (Hal : above 0 (keys l)).
  { rewrite keys_app in Ha. apply above_app in Ha. tauto. }
  assert (Hhil : forall k, In k (keys l) -> k < u16_max).
  { intros k Hk. apply Hhi. rewrite keys_app. apply in_or_app. auto. }
  specialize (IH Hal Hhil).
  assert (Hnew : exists kv, In kv (l ++ [p]) /\
                   codeBegin (new_cmap (fst p) (snd p)) = fst kv /\
                   direct_offset (new_cmap (fst p) (snd p)) = cfntIndex (snd kv)).
  { exists p. split; [apply in_or_app; right; left; reflexivity|].
    destruct (collect_cmaps_step l p Ha Hhi) as [Hp _].
    rewrite new_cmap_fields by (unfold u16_max in *; lia). split; reflexivity. }
  assert (Hold : forall cm', In cm' (collect_cmaps l) ->
                   exists kv, In kv (l ++ [p]) /\ codeBegin cm' = fst kv /\
                              direct_offset cm' = cfntIndex (snd kv)).
  { intros cm' Hin. destruct (IH cm' Hin) as [kv [Hkv H]].
    exists kv. split; [apply in_or_app; left; assumption|exact H]. }
  destruct (collect_cmaps_step l p Ha Hhi) as [Hp [[-> Ec]|H]].
  - rewrite Ec in Hcm. destruct Hcm as [<-|[]]. exact Hnew.
  - destruct H as [l' [a [pre [b [El [Ec [Hend [Hap Hcase]]]]]]]].
    destruct Hcase as [[E Ecs]|[E Ecs]]; rewrite Ecs in Hcm;
      apply in_app_or in Hcm.
    + destruct Hcm as [Hcm|[<-|[]]].
      * apply Hold. rewrite Ec. apply in_or_app. auto.
      * destruct (Hold b) as [kv H];
          [rewrite Ec; apply in_or_app; right; left; reflexivity|].
        exists kv. exact H.
    + destruct Hcm as [Hcm|[<-|[]]]; [|exact Hnew].
      apply Hold. rewrite Ec. exact Hcm.
Qed.

Section ReadBack.

Context {IM : Imaging} {MB : Members}.

(** The payloads of a constructed atlas are glyph indices. *)
Lemma ctor_payloads face fuel b :
  BCFNT_ctor face fuel = Done b ->
  Forall (fun cm => 0 <= direct_offset cm < 65536) (cmaps b).
Proof.
  intros Hrun. unfold BCFNT_ctor in Hrun.
  destruct (build_faceMap face fuel) as [m| |] eqn:Hm; cbn [bind] in Hrun;
    try discriminate.
  destruct (build_faceMap_indexed face fuel m Hm) as [n [Hi Hn]].
  assert (Hc : cmaps b = collect_cmaps m).
  { destruct m as [|p m'].
    - inversion Hrun; subst. reflexivity.
    - destruct (cmap_loop _ _ _ _ _ _); cbn [bind] in Hrun; try discriminate.
      inversion Hrun; subst. reflexivity. }
  rewrite Hc. apply Forall_forall. intros cm Hcm.
  destruct (collect_cmaps_payload m (ix_keys _ _ Hi) (indexed_keys_bound m n Hi) cm Hcm)
    as [kv [Hkv [_ ->]]].
  pose proof (ix_entries _ _ Hi) as He. rewrite Forall_forall in He.
  specialize (He kv Hkv). unfold u16_max in *. lia.
Qed.

(** X11: the file of a constructed atlas has 0x64 bytes of headers,
    three bytes for each width entry, 22 bytes for each range and 65536
    bytes for each sheet, and its header records that length; the three
    pointers of the font-info block lead eight bytes into the TGLP block,
    the CWDH block and, when there is a range, the first CMAP block, so
    that each block's magic stands eight bytes before the position pointed
    to; and the texture block records the number of sheets, the number of
    texture bytes and the offset at which exactly the sheet data follows
    up to the end of the file. *)
Theorem header_pointers_lead_to_their_blocks
    (face : FT_Face) (fuel : nat) (b : BCFNT) :
  BCFNT_ctor face fuel = Done b ->
  exists out,
    serialize_buffer b = Done out /\
    size out = 0x64 + 3 * size (widths b) + 22 * size (cmaps b)
               + 65536 * numSheets b /\
    read_le 4 out 0x0C = size out /\
    read_bytes 4 out (read_le 4 out 0x24 - 8) = bytes_of_string "TGLP" /\
    read_bytes 4 out (read_le 4 out 0x28 - 8) = bytes_of_string "CWDH" /\
    (cmaps b <> [] ->
     read_bytes 4 out (read_le 4 out 0x2C - 8) = bytes_of_string "CMAP") /\
    read_le 2 out 0x44 = numSheets b /\
    read_le 4 out 0x40 = size (sheetData b) /\
    skipn (Z.to_nat (read_le 4 out 0x50)) out = sheetData b.
Proof.
  intros Hctor. pose proof (BCFNT_ctor_ok face fuel b Hctor) as Hok.
  exists (container b (layout_of b)).
  split; [apply serialize_buffer_ok; assumption|].
  pose proof (atlas_ok_total b Hok) as Ht.
  change (2 ^ 32) with 4294967296 in Ht.
  pose proof (size_nonneg (widths b)) as Hw0.
  pose proof (size_nonneg (cmaps b)) as Hc0.
  pose proof (size_nonneg (sheetData b)) as Hd0.
  pose proof (ok_nwidths b Hok) as Hw1. unfold u16_max in Hw1.
  set (out := container b (layout_of b)).
  assert (Hsize : size out = fileSize (layout_of b)).
  { subst out. unfold container. block_sizes. }
  assert (H0C : read_le 4 out 0x0C = fileSize (layout_of b)).
  { subst out. unfold container, cfnt_block. rewrite <- !app_assoc.
    field_at_offset. apply Z.mod_small.
    change (256 ^ Z.of_nat 4) with 4294967296.
    cbn [layout_of fileSize]. lia. }
  assert (H24 : read_le 4 out 0x24 = 0x34 + 8).
  { subst out. unfold container, cfnt_block, finf_block. rewrite <- !app_assoc.
    field_at_offset. reflexivity. }
  assert (H28 : read_le 4 out 0x28 = 0x54 + 8).
  { subst out. unfold container, cfnt_block, finf_block. rewrite <- !app_assoc.
    field_at_offset. reflexivity. }
  assert (H2C : read_le 4 out 0x2C = 0x64 + 3 * size (widths b) + 8).
  { subst out. unfold container, cfnt_block, finf_block. rewrite <- !app_assoc.
    field_at_offset. cbn [layout_of cmapOffset].
    rewrite to_u32_id by lia. apply Z.mod_small.
    change (256 ^ Z.of_nat 4) with 4294967296. lia. }
  assert (H44 : read_le 2 out 0x44 = numSheets b).
  { subst out. unfold container, cfnt_block, finf_block, tglp_block.
    rewrite <- !app_assoc. field_at_offset. apply Z.mod_small.
    pose proof (ok_sheets b Hok). change (256 ^ Z.of_nat 2) with 65536. lia. }
  assert (H40 : read_le 4 out 0x40 = size (sheetData b)).
  { subst out. unfold container, cfnt_block, finf_block, tglp_block.
    rewrite <- !app_assoc. field_at_offset. apply Z.mod_small.
    change (256 ^ Z.of_nat 4) with 4294967296. lia. }
  assert (H50 : read_le 4 out 0x50 = sheetOffset (layout_of b)).
  { subst out. unfold container, cfnt_block, finf_block, tglp_block.
    rewrite <- !app_assoc. field_at_offset. apply Z.mod_small.
    change (256 ^ Z.of_nat 4) with 4294967296.
    cbn [layout_of sheetOffset]. lia. }
  rewrite H0C, H24, H28, H2C, H44, H40, H50.
  split; [rewrite Hsize; cbn [layout_of fileSize]; rewrite (ok_data b Hok); reflexivity|].
  split; [symmetry; exact Hsize|].
  split.
  { subst out. unfold container. rewrite app_assoc.
    rewrite read_bytes_at by reflexivity. reflexivity. }
  split.
  { subst out. unfold container. rewrite !app_assoc.
    rewrite <- (app_assoc _ (cwdh_block b)).
    rewrite <- (app_assoc _ (cwdh_block b ++ _)).
    rewrite read_bytes_at by reflexivity. reflexivity. }
  split.
  { intros Hne. subst out. unfold container. rewrite !app_assoc.
    rewrite <- (app_assoc _ (concat _)).
    rewrite read_bytes_at by block_sizes.
    destruct (cmaps b) as [|cm rest]; [congruence|]. reflexivity. }
  split; [reflexivity|]. split; [reflexivity|].
  subst out. unfold container. rewrite !app_assoc.
  apply skipn_size. block_sizes.
Qed.

(** X12: the character maps of a constructed atlas can be read back from
    its file: a reader that takes the number of blocks from the header,
    starts at the character-map pointer of the font-info block and follows
    the pointer of each CMAP block to the next one until it reads 0 finds
    the ranges of the atlas, in their order, each with its first and last
    code point, the Direct method and its payload. *)
Theorem character_maps_round_trip
    (face : FT_Face) (fuel : nat) (b : BCFNT) :
  BCFNT_ctor face fuel = Done b ->
  exists out,
    serialize_buffer b = Done out /\
    read_cmaps (Z.to_nat (read_le 4 out 0x10 - 3)) out (read_le 4 out 0x2C) =
    map cmap_fields (cmaps b).
Proof.
  intros Hctor. pose proof (BCFNT_ctor_ok face fuel b Hctor) as Hok.
  exists (container b (layout_of b)).
  split; [apply serialize_buffer_ok; assumption|].
  pose proof (atlas_ok_total b Hok) as Ht.
  change (2 ^ 32) with 4294967296 in Ht.
  pose proof (size_nonneg (widths b)) as Hw0.
  pose proof (size_nonneg (cmaps b)) as Hc0.
  pose proof (size_nonneg (sheetData b)) as Hd0.
  pose proof (ok_nwidths b Hok) as Hw1. unfold u16_max in Hw1.
  set (out := container b (layout_of b)).
  assert (H10 : read_le 4 out 0x10 = 3 + size (cmaps b)).
  { subst out. unfold container, cfnt_block. rewrite <- !app_assoc.
    field_at_offset. apply Z.mod_small.
    change (256 ^ Z.of_nat 4) with 4294967296. lia. }
  assert (H2C : read_le 4 out 0x2C = 0x64 + 3 * size (widths b) + 8).
  { subst out. unfold container, cfnt_block, finf_block. rewrite <- !app_assoc.
    field_at_offset. cbn [layout_of cmapOffset].
    rewrite to_u32_id by lia. apply Z.mod_small.
    change (256 ^ Z.of_nat 4) with 4294967296. lia. }
  rewrite H10, H2C.
  replace (Z.to_nat (3 + size (cmaps b) - 3)) with (length (cmaps b))
    by (unfold size; lia).
  subst out. unfold container. rewrite !app_assoc.
  rewrite <- (app_assoc _ (concat _)).
  cbn [layout_of cmapOffset].
  apply read_cmaps_blocks.
  - apply Hok.
  - apply (ctor_payloads face fuel b Hctor).
  - block_sizes.
  - lia.
  - change (2 ^ 32) with 4294967296. lia.
Qed.

End ReadBack.

Lemma header_pointers_witness :
  exists out,
    serialize_buffer (the_atlas (BCFNT_ctor face_ABC 10)) = Done out /\
    size out = 0x64 + 3 * size (widths (the_atlas (BCFNT_ctor face_ABC 10)))
               + 22 * size (cmaps (the_atlas (BCFNT_ctor face_ABC 10)))
               + 65536 * numSheets (the_atlas (BCFNT_ctor face_ABC 10)) /\
    read_le 4 out 0x0C = size out /\
    read_bytes 4 out (read_le 4 out 0x24 - 8) = bytes_of_string "TGLP" /\
    read_bytes 4 out (read_le 4 out 0x28 - 8) = bytes_of_string "CWDH" /\
    (cmaps (the_atlas (BCFNT_ctor face_ABC 10)) <> [] ->
     read_bytes 4 out (read_le 4 out 0x2C - 8) = bytes_of_string "CMAP") /\
    read_le 2 out 0x44 = numSheets (the_atlas (BCFNT_ctor face_ABC 10)) /\
    read_le 4 out 0x40 = size (sheetData (the_atlas (BCFNT_ctor face_ABC 10))) /\
    skipn (Z.to_nat (read_le 4 out 0x50)) out =
    sheetData (the_atlas (BCFNT_ctor face_ABC 10)).
Proof.
  apply (header_pointers_lead_to_their_blocks face_ABC 10).
  apply finished_the_atlas. reflexivity.
Defined.

Lemma character_maps_witness :
  exists out,
    serialize_buffer (the_atlas (BCFNT_ctor face_space_question_A 10)) = Done out /\
    read_cmaps (Z.to_nat (read_le 4 out 0x10 - 3)) out (read_le 4 out 0x2C) =
    map cmap_fields (cmaps (the_atlas (BCFNT_ctor face_space_question_A 10))).
Proof.
  apply (character_maps_round_trip face_space_question_A 10).
  apply finished_the_atlas. reflexivity.
Defined.

(** What the reader finds in the file of the atlas without sheets. *)
Example character_maps_example :
  let out := the_buffer (serialize_buffer atlas_ABC_unrendered) in
  read_cmaps (Z.to_nat (read_le 4 out 0x10 - 3)) out (read_le 4 out 0x2C) =
  [(65, 67, 0, 0)].
Proof. reflexivity. Qed.

(** ** Sheets as texture bytes *)

Lemma nth_zrange_from n : forall c i d,
  (i < n)%nat -> nth i (zrange_from c n) d = c + Z.of_nat i.
Proof.
  induction n as [|n IH]; intros c i d Hi; [lia|].
  destruct i as [|i]; cbn [zrange_from nth]; [lia|].
  rewrite IH by lia. lia.
Qed.

(** Two nibbles in one byte. *)
Lemma nibbles_pack lo hi :
  0 <= lo < 16 -> 0 <= hi < 16 ->
  to_u8 (Z.lor (Z.shiftl hi 4) (Z.shiftl lo 0)) = lo + 16 * hi.
Proof.
  intros Hlo Hhi.
  assert (Hl : lo = 0 \/ lo = 1 \/ lo = 2 \/ lo = 3 \/ lo = 4 \/ lo = 5 \/
               lo = 6 \/ lo = 7 \/ lo = 8 \/ lo = 9 \/ lo = 10 \/ lo = 11 \/
               lo = 12 \/ lo = 13 \/ lo = 14 \/ lo = 15) by lia.
  assert (Hh : hi = 0 \/ hi = 1 \/ hi = 2 \/ hi = 3 \/ hi = 4 \/ hi = 5 \/
               hi = 6 \/ hi = 7 \/ hi = 8 \/ hi = 9 \/ hi = 10 \/ hi = 11 \/
               hi = 12 \/ hi = 13 \/ hi = 14 \/ hi = 15) by lia.
  clear Hlo Hhi.
  repeat (destruct Hl as [->|Hl]); try subst lo;
    repeat (destruct Hh as [->|Hh]); try subst hi; reflexivity.
Qed.

(** X13: [appendSheet] leaves the bytes already in the buffer where they
    are and adds one byte for every two pixels of the swizzled 256x512
    sheet, 65536 in all, row after row: the byte at position [128 * y + x]
    of the added ones holds the pixels at columns [2 * x] and [2 * x + 1] of
    row [y], and when their 4-bit alphas are nibbles the first one is the
    low nibble of the byte and the second one the high nibble. *)
Theorem appendSheet_packs_two_pixels_per_byte
    {IM : Imaging} (sheetData : list Z) (sheet : Image) :
  columns sheet = 256 -> rows sheet = 512 ->
  exists packed,
    appendSheet sheetData sheet = sheetData ++ packed /\
    size packed = 65536 /\
    forall x y,
      0 <= x < 128 -> 0 <= y < 512 ->
      let lo := alpha4 (swizzle sheet) (2 * x) y in
      let hi := alpha4 (swizzle sheet) (2 * x + 1) y in
      let byte := nth (Z.to_nat (128 * y + x)) packed 0 in
      byte = to_u8 (Z.lor (Z.shiftl hi 4) (Z.shiftl lo 0)) /\
      (0 <= lo < 16 -> 0 <= hi < 16 ->
       byte = lo + 16 * hi /\ byte mod 16 = lo /\ byte / 16 = hi).
Proof.
  intros Hc Hr. unfold appendSheet. cbv zeta.
  rewrite swizzle_columns, swizzle_rows, Hc, Hr.
  change ((to_u32 (256 * 512) + 1) / 2) with 65536.
  eexists. split; [reflexivity|]. split.
  { unfold size. rewrite !length_map, zrange_length. lia. }
  intros x y Hx Hy. cbv zeta.
  set (f := fun i : Z => to_u8 _).
  assert (Hnth : nth (Z.to_nat (128 * y + x))
                     (map f (map (fun k => 2 * k) (zrange 65536))) 0 =
                 f (2 * (128 * y + x))).
  { rewrite map_map.
    rewrite (nth_indep _ 0 (f (2 * 0)))
      by (rewrite length_map, zrange_length; lia).
    rewrite (map_nth (fun k => f (2 * k)) (zrange 65536) 0).
    unfold zrange. rewrite nth_zrange_from by lia.
    rewrite Z2Nat.id by lia. reflexivity. }
  rewrite Hnth. subst f. cbv beta. unfold alpha4.
  replace ((2 * (128 * y + x) + 1) mod 256) with (2 * x + 1)
    by (apply (Z.mod_unique_pos _ _ y); lia).
  replace ((2 * (128 * y + x) + 1) / 256) with y
    by (apply (Z.div_unique_pos _ _ _ (2 * x + 1)); lia).
  replace ((2 * (128 * y + x) + 0) mod 256) with (2 * x)
    by (apply (Z.mod_unique_pos _ _ y); lia).
  replace ((2 * (128 * y + x) + 0) / 256) with y
    by (apply (Z.div_unique_pos _ _ _ (2 * x)); lia).
  split; [reflexivity|].
  intros Hlo Hhi. rewrite nibbles_pack by assumption.
  split; [reflexivity|]. split.
  - symmetry. apply (Z.mod_unique_pos _ _ (quantum_to_bits4
      (alpha (pixel_at (swizzle sheet) (2 * x + 1) y)))); lia.
  - symmetry. apply (Z.div_unique_pos _ _ _ (quantum_to_bits4
      (alpha (pixel_at (swizzle sheet) (2 * x) y)))); lia.
Qed.

Lemma appendSheet_witness :
  exists packed,
    appendSheet [7] gradient_sheet = [7] ++ packed /\
    size packed = 65536 /\
    forall x y,
      0 <= x < 128 -> 0 <= y < 512 ->
      let lo := alpha4 (swizzle gradient_sheet) (2 * x) y in
      let hi := alpha4 (swizzle gradient_sheet) (2 * x + 1) y in
      let byte := nth (Z.to_nat (128 * y + x)) packed 0 in
      byte = to_u8 (Z.lor (Z.shiftl hi 4) (Z.shiftl lo 0)) /\
      (0 <= lo < 16 -> 0 <= hi < 16 ->
       byte = lo + 16 * hi /\ byte mod 16 = lo /\ byte / 16 = hi).
Proof.
  apply (appendSheet_packs_two_pixels_per_byte [7] gradient_sheet); reflexivity.
Defined.

(** ** Glyphs drawn into their cells *)

Lemma fold_left_pointwise {A B : Type} (f g : A -> B -> A) l :
  (forall a b, f a b = g a b) -> forall a, fold_left f l a = fold_left g l a.
Proof.
  intros H. induction l as [|b l IH]; intros a; cbn; [reflexivity|].
  rewrite H. apply IH.
Qed.

Lemma fold_left_map {A B C : Type} (f : A -> B -> A) (k : C -> B) l : forall a,
  fold_left f (map k l) a = fold_left (fun a x => f a (k x)) l a.
Proof. induction l as [|x l IH]; intros a; cbn; [reflexivity|]. apply IH. Qed.

Lemma fold_left_flat_map {A B C : Type} (f : A -> B -> A) (h : C -> list B) l :
  forall a,
    fold_left f (flat_map h l) a = fold_left (fun a y => fold_left f (h y) a) l a.
Proof.
  induction l as [|y l IH]; intros a; cbn; [reflexivity|].
  rewrite fold_left_app. apply IH.
Qed.

Lemma in_bitmap_positions g y x :
  In (y, x) (bitmap_positions g) <->
  0 <= y < bitmap_rows g /\ 0 <= x < bitmap_width g.
Proof.
  unfold bitmap_positions, zrange. rewrite in_flat_map. split.
  - intros [y' [Hy Hin]]. apply in_map_iff in Hin.
    destruct Hin as [x' [E Hx]]. inversion E; subst.
    apply zrange_from_In in Hy. apply zrange_from_In in Hx. lia.
  - intros [Hy Hx]. exists y. split; [apply zrange_from_In; lia|].
    apply in_map_iff. exists x. split; [reflexivity|apply zrange_from_In; lia].
Qed.

(** Two columns less than 2^32 apart do not meet after the conversion to
    [int]. *)
Lemma to_i32_inj a b :
  to_i32 a = to_i32 b -> -4294967296 < a - b < 4294967296 -> a = b.
Proof.
  unfold to_i32. change (2 ^ 31) with 2147483648. change (2 ^ 32) with 4294967296.
  intros H Hd.
  pose proof (Z.div_mod (a + 2147483648) 4294967296 ltac:(lia)).
  pose proof (Z.div_mod (b + 2147483648) 4294967296 ltac:(lia)).
  lia.
Qed.

Section Drawing.

Context {IM : Imaging}.
Variables (sheetX sheetY baseline : Z) (g : Glyph).

(** The two loops as one pass over the bitmap positions. *)
Lemma draw_glyph_blit s :
  draw_glyph s sheetX sheetY baseline g =
  fold_left (blit sheetX sheetY baseline g) (bitmap_positions g) s.
Proof.
  unfold draw_glyph, bitmap_positions.
  rewrite fold_left_flat_map. apply fold_left_pointwise. intros s1 y.
  rewrite fold_left_map. apply fold_left_pointwise. intros s2 x.
  unfold blit, in_cell, cell_pos, coverage_pixel. cbn [fst snd].
  destruct (_ || _); reflexivity.
Qed.

(** After the pass a pixel has the colour of the last position that wrote
    it, or the colour it had. *)
Lemma blit_last_writer X Y l : forall s,
  pixel_at (fold_left (blit sheetX sheetY baseline g) l s) X Y =
  match find (writes sheetX sheetY baseline g X Y) (rev l) with
  | Some yx => coverage_pixel g (snd yx) (fst yx)
  | None => pixel_at s X Y
  end.
Proof.
  induction l as [|yx l IH] using rev_ind; intros s; [reflexivity|].
  rewrite fold_left_app, rev_app_distr. cbn [fold_left rev app find].
  unfold blit at 1, writes at 1. cbv zeta.
  destruct (in_cell _); cbn [andb]; [|apply IH].
  cbn [set_pixel pixel_at].
  destruct ((X =? _) && (Y =? _)); [reflexivity|apply IH].
Qed.

Lemma writes_unique X Y yx1 yx2 :
  bitmap_width g <= 2 ^ 32 -> bitmap_rows g <= 2 ^ 32 ->
  In yx1 (bitmap_positions g) -> In yx2 (bitmap_positions g) ->
  writes sheetX sheetY baseline g X Y yx1 = true ->
  writes sheetX sheetY baseline g X Y yx2 = true ->
  yx1 = yx2.
Proof.
  change (2 ^ 32) with 4294967296.
  intros Hw Hr H1 H2 W1 W2.
  destruct yx1 as [y1 x1], yx2 as [y2 x2].
  apply in_bitmap_positions in H1. apply in_bitmap_positions in H2.
  unfold writes, cell_pos in W1, W2. cbn [fst snd] in W1, W2.
  apply andb_true_iff in W1. destruct W1 as [W1 Wy1].
  apply andb_true_iff in W1. destruct W1 as [_ Wx1].
  apply andb_true_iff in W2. destruct W2 as [W2 Wy2].
  apply andb_true_iff in W2. destruct W2 as [_ Wx2].
  apply Z.eqb_eq in Wx1, Wy1, Wx2, Wy2.
  assert (Ex : x1 + bitmap_left g = x2 + bitmap_left g)
    by (apply to_i32_inj; lia).
  assert (Ey : y1 + (baseline - bitmap_top g) = y2 + (baseline - bitmap_top g))
    by (apply to_i32_inj; lia).
  f_equal; lia.
Qed.

End Drawing.

(** A pixel no bitmap position is drawn to keeps its colour. *)
Lemma draw_glyph_untouched
    {IM : Imaging} (s : Image) (sheetX sheetY baseline : Z) (g : Glyph) X Y :
  (forall x y,
      0 <= x < bitmap_width g -> 0 <= y < bitmap_rows g ->
      in_cell (cell_pos baseline g x y) = true ->
      X <> sheetX + fst (cell_pos baseline g x y) \/
      Y <> sheetY + snd (cell_pos baseline g x y)) ->
  pixel_at (draw_glyph s sheetX sheetY baseline g) X Y = pixel_at s X Y.
Proof.
  intros Hno. rewrite draw_glyph_blit, blit_last_writer.
  destruct (find _ _) as [[y x]|] eqn:Hf; [|reflexivity].
  exfalso. apply find_some in Hf. destruct Hf as [Hin W].
  apply in_rev, in_bitmap_positions in Hin.
  unfold writes in W. cbn [fst snd] in W.
  apply andb_true_iff in W. destruct W as [W Wy].
  apply andb_true_iff in W. destruct W as [Wc Wx].
  apply Z.eqb_eq in Wx, Wy.
  destruct (Hno x y) as [H|H]; try tauto.
Qed.

(** Nothing is drawn outside the cell. *)
Lemma draw_glyph_frame
    {IM : Imaging} (s : Image) (sheetX sheetY baseline : Z) (g : Glyph) X Y :
  ~ (sheetX <= X < sheetX + 24 /\ sheetY <= Y < sheetY + 30) ->
  pixel_at (draw_glyph s sheetX sheetY baseline g) X Y = pixel_at s X Y.
Proof.
  intros Hout. apply draw_glyph_untouched. intros x y Hx Hy Hc.
  unfold in_cell in Hc. apply negb_true_iff in Hc.
  apply orb_false_iff in Hc. destruct Hc as [Hc H4].
  apply orb_false_iff in Hc. destruct Hc as [Hc H3].
  apply orb_false_iff in Hc. destruct Hc as [H1 H2].
  apply Z.ltb_ge in H1, H3. rewrite Z.geb_leb in H2, H4.
  apply Z.leb_gt in H2, H4. lia.
Qed.

(** A bitmap pixel that falls inside the cell is where the bearing and
    the baseline put it, with its coverage as alpha. *)
Lemma draw_glyph_written
    {IM : Imaging} (s : Image) (sheetX sheetY baseline : Z) (g : Glyph) x y :
  bitmap_width g <= 2 ^ 32 -> bitmap_rows g <= 2 ^ 32 ->
  0 <= x < bitmap_width g -> 0 <= y < bitmap_rows g ->
  in_cell (cell_pos baseline g x y) = true ->
  pixel_at (draw_glyph s sheetX sheetY baseline g)
           (sheetX + fst (cell_pos baseline g x y))
           (sheetY + snd (cell_pos baseline g x y)) =
  coverage_pixel g x y.
Proof.
  intros Hw Hr Hx Hy Hc. rewrite draw_glyph_blit, blit_last_writer.
  assert (Hin : In (y, x) (bitmap_positions g))
    by (apply in_bitmap_positions; lia).
  assert (W : writes sheetX sheetY baseline g
                (sheetX + fst (cell_pos baseline g x y))
                (sheetY + snd (cell_pos baseline g x y)) (y, x) = true).
  { unfold writes. cbn [fst snd]. rewrite Hc, !Z.eqb_refl. reflexivity. }
  destruct (find _ _) as [yx|] eqn:Hf.
  - apply find_some in Hf. destruct Hf as [Hin' W'].
    apply in_rev in Hin'.
    rewrite (writes_unique sheetX sheetY baseline g _ _ yx (y, x) Hw Hr Hin' Hin W' W).
    reflexivity.
  - exfalso. apply in_rev in Hin.
    pose proof (find_none _ _ Hf (y, x) Hin) as W'. congruence.
Qed.



(** The 2x2 sample glyph in the second cell of a new sheet: its four
    coverage bytes, one row above the other, and the transparent pixel next
    to them. *)
Example glyph_drawn_example :
  map (fun xy => alpha (pixel_at (draw_glyph new_sheet 24 30 15 sample_glyph)
                                 (fst xy) (snd xy)))
      [(24, 31); (25, 31); (24, 32); (25, 32); (26, 31)] =
  [255 * 257; 128 * 257; 64 * 257; 0; 0].
Proof. reflexivity. Qed.

(** Two cells of a sheet have no pixel in common. *)
Lemma cells_are_disjoint i j X Y :
  i mod 170 <> j mod 170 -> in_cell_of i X Y -> in_cell_of j X Y -> False.
Proof.
  unfold in_cell_of, cell_of. cbn [fst snd]. intros Hne [Hx Hy] [Hx' Hy'].
  pose proof (Z.mod_pos_bound i 170 ltac:(lia)).
  pose proof (Z.mod_pos_bound j 170 ltac:(lia)).
  pose proof (Z.div_mod (i mod 170) 10 ltac:(lia)).
  pose proof (Z.div_mod (j mod 170) 10 ltac:(lia)).
  pose proof (Z.mod_pos_bound (i mod 170) 10 ltac:(lia)).
  pose proof (Z.mod_pos_bound (j mod 170) 10 ltac:(lia)).
  lia.
Qed.

(** X15: a glyph that rasterizes is drawn on the sheet in progress, or on
    a new one when its glyph index is a multiple of 170, and only inside
    the cell of its glyph index: every pixel outside that cell, and so
    every pixel of the cell of any other glyph of the sheet, is as it was.
    The cell lies inside the 256x512 sheet, so the two assertions of lines
    209-210 hold and no pixel outside the sheet is addressed. *)
Theorem glyph_keeps_to_its_own_cell
    {IM : Imaging} (face : FT_Face) (m : FaceMap) (baseline c : Z)
    (st : AtlasState) (g : Glyph) (before : Image) :
  atlas_inv st ->
  FT_Load_Glyph face (faceIndex (at_key c m)) = Some g ->
  sheet_before st (cfntIndex (at_key c m)) = Some before ->
  exists st' after,
    glyph_body face m baseline c st = Done st' /\
    st_sheet st' = Some after /\
    (forall X Y,
        ~ in_cell_of (cfntIndex (at_key c m)) X Y ->
        pixel_at after X Y = pixel_at before X Y) /\
    (forall j X Y,
        j mod 170 <> cfntIndex (at_key c m) mod 170 ->
        in_cell_of j X Y ->
        pixel_at after X Y = pixel_at before X Y) /\
    (forall X Y,
        in_cell_of (cfntIndex (at_key c m)) X Y ->
        0 <= X < columns after /\ 0 <= Y < rows after).
Proof.
  intros Hinv Hg Hb.
  rewrite (glyph_body_cases face m baseline c st Hinv). cbv zeta. rewrite Hg.
  unfold sheet_before in Hb.
  set (idx := cfntIndex (at_key c m)) in *.
  assert (Hgeo : columns before = 256 /\ rows before = 512).
  { destruct (opens_sheet idx).
    - inversion Hb; subst. split; reflexivity.
    - apply (ai_sheet _ Hinv). exact Hb. }
  assert (Hres : exists st',
             (if opens_sheet idx
              then Done {| st_widths := st_widths st ++ [width_info g];
                           st_sheet := Some (draw_glyph new_sheet (idx mod 170 mod 10 * 24)
                                               (idx mod 170 / 10 * 30) baseline g);
                           st_sheetData := st_sheetData (flush_sheet st);
                           st_numSheets := st_numSheets (flush_sheet st) |}
              else match st_sheet st with
                   | Some s =>
                       Done {| st_widths := st_widths st ++ [width_info g];
                               st_sheet := Some (draw_glyph s (idx mod 170 mod 10 * 24)
                                                   (idx mod 170 / 10 * 30) baseline g);
                               st_sheetData := st_sheetData st;
                               st_numSheets := st_numSheets st |}
                   | None => Aborted
                   end) = Done st' /\
             st_sheet st' =
             Some (draw_glyph before (idx mod 170 mod 10 * 24)
                              (idx mod 170 / 10 * 30) baseline g)).
  { destruct (opens_sheet idx).
    - inversion Hb; subst. eexists. split; reflexivity.
    - rewrite Hb. eexists. split; reflexivity. }
  destruct Hres as [st' [Hrun Hafter]].
  exists st', (draw_glyph before (idx mod 170 mod 10 * 24)
                          (idx mod 170 / 10 * 30) baseline g).
  split; [exact Hrun|]. split; [exact Hafter|].
  assert (Hframe : forall X Y, ~ in_cell_of idx X Y ->
             pixel_at (draw_glyph before (idx mod 170 mod 10 * 24)
                                  (idx mod 170 / 10 * 30) baseline g) X Y =
             pixel_at before X Y).
  { intros X Y Hout. apply draw_glyph_frame. exact Hout. }
  split; [exact Hframe|]. split.
  - intros j X Y Hne Hj. apply Hframe. intros Hi.
    apply (cells_are_disjoint j idx X Y Hne Hj Hi).
  - intros X Y [Hx Hy]. unfold cell_of in Hx, Hy. cbn [fst snd] in Hx, Hy.
    destruct (draw_glyph_geometry baseline before (idx mod 170 mod 10 * 24)
                (idx mod 170 / 10 * 30) g) as [-> ->].
    destruct Hgeo as [-> ->].
    pose proof (cell_in_sheet idx). lia.
Qed.

Lemma glyph_keeps_witness :
  exists st' after,
    glyph_body face_ABC (number_from 0 (code_run 65 3)) 15 65 atlas_init = Done st' /\
    st_sheet st' = Some after /\
    (forall X Y,
        ~ in_cell_of (cfntIndex (at_key 65 (number_from 0 (code_run 65 3)))) X Y ->
        pixel_at after X Y = pixel_at new_sheet X Y) /\
    (forall j X Y,
        j mod 170 <> cfntIndex (at_key 65 (number_from 0 (code_run 65 3))) mod 170 ->
        in_cell_of j X Y ->
        pixel_at after X Y = pixel_at new_sheet X Y) /\
    (forall X Y,
        in_cell_of (cfntIndex (at_key 65 (number_from 0 (code_run 65 3)))) X Y ->
        0 <= X < columns after /\ 0 <= Y < rows after).
Proof.
  apply (glyph_keeps_to_its_own_cell face_ABC (number_from 0 (code_run 65 3))
           15 65 atlas_init sample_glyph new_sheet).
  - split; cbn; try discriminate; auto; lia.
  - reflexivity.
  - reflexivity.
Defined.

(** ** The replacement index and the loop over a range *)

Lemma at_key_count k m : count k m = true -> In (k, at_key k m) m.
Proof.
  induction m as [|[k' v'] m IH]; cbn; [discriminate|].
  destruct (Z.eqb_spec k k') as [->|E]; cbn [orb]; [left; reflexivity|].
  intros H. right. apply IH. exact H.
Qed.

Lemma emplace_keeps k v m kv : In kv m -> In kv (emplace k v m).
Proof.
  intros Hin. destruct (emplace_cases k v m) as [->|Hp]; [assumption|].
  apply (Permutation_in _ (Permutation_sym Hp)). right. assumption.
Qed.

(** The first code point the loop meets gets the glyph index 0 and keeps
    it. *)
Lemma index_loop_zero face fuel : forall c fi m n m',
  (m = [] /\ n = 0) \/ In 0 (indices m) ->
  index_loop face fuel c fi m n = Done m' ->
  m' = [] \/ In 0 (indices m').
Proof.
  induction fuel as [|fuel IH]; intros c fi m n m' Hinv H; [discriminate|].
  cbn [index_loop] in H.
  destruct (c =? 0)%N.
  { inversion H; subst. destruct Hinv as [[-> _]|Hin]; auto. }
  destruct (u16_max <=? Z.of_N c); [eapply IH; eassumption|].
  destruct (asserting _); cbn [bind] in H; try discriminate.
  destruct (FT_Get_Next_Char face c) as [c' fi'].
  apply IH in H; [exact H|]. right.
  destruct Hinv as [[-> ->]|Hin].
  - cbn. left. reflexivity.
  - unfold indices in *. apply in_map_iff in Hin. destruct Hin as [kv [E Hkv]].
    apply in_map_iff. exists kv. split; [exact E|].
    apply emplace_keeps. exact Hkv.
Qed.

(** X16: the replacement index of an atlas with at least one code point
    is the glyph index of a code point of the map: that of U+FFFD, of '?'
    or of the space when the map has one of them, and otherwise 0, which
    the first code point the face reported always has (lines 118-146). *)
Theorem replacement_index_names_a_glyph
    {IM : Imaging} {MB : Members} (face : FT_Face) (fuel : nat)
    (m : FaceMap) (b : BCFNT) :
  build_faceMap face fuel = Done m ->
  m <> [] ->
  BCFNT_ctor face fuel = Done b ->
  In (altIndex b) (indices m) /\ 0 <= altIndex b < u16_max.
Proof.
  intros Hm Hne Hrun.
  rewrite (ctor_altIndex face fuel m b Hm Hne Hrun).
  assert (Hin : In (select_altIndex m) (indices m)).
  { unfold select_altIndex.
    assert (Hk : forall k, count k m = true ->
                           In (cfntIndex (at_key k m)) (indices m)).
    { intros k Hc. apply at_key_count in Hc. unfold indices.
      apply in_map_iff. exists (k, at_key k m). split; [reflexivity|exact Hc]. }
    destruct (count 65533 m) eqn:H1; [auto|].
    destruct (count 63 m) eqn:H2; [auto|].
    destruct (count 32 m) eqn:H3; [auto|].
    unfold build_faceMap in Hm. destruct (FT_Get_First_Char face) as [c fi].
    apply index_loop_zero in Hm; [|left; split; reflexivity].
    destruct Hm; [contradiction|assumption]. }
  split; [exact Hin|].
  destruct (build_faceMap_indexed face fuel m Hm) as [n [Hi Hn]].
  unfold indices in Hin. apply in_map_iff in Hin. destruct Hin as [kv [<- Hkv]].
  pose proof (ix_entries _ _ Hi) as He. rewrite Forall_forall in He.
  specialize (He kv Hkv). lia.
Qed.

Lemma replacement_index_witness :
  In (altIndex (the_atlas (BCFNT_ctor face_space_question_A 10)))
     (indices map_space_question_A) /\
  0 <= altIndex (the_atlas (BCFNT_ctor face_space_question_A 10)) < u16_max.
Proof.
  apply (replacement_index_names_a_glyph face_space_question_A 10).
  - reflexivity.
  - discriminate.
  - apply finished_the_atlas. reflexivity.
Defined.

(** X17: the loop over the code points of a range (line 173) counts in
    16 bits.  On a range whose last code point is below 0xFFFF it visits
    the code points from the first to the last one in order and ends, with
    fuel for one pass more than it has code points; on a range whose last
    code point is 0xFFFF its condition never fails, so it does not return:
    it runs on, unless a glyph ends the run. *)
Theorem range_loop_ends_below_0xFFFF
    {IM : Imaging} (face : FT_Face) (m : FaceMap) (baseline : Z)
    (c : Z) (st : AtlasState) :
  0 <= c < 65536 ->
  (forall fuel cEnd,
      c <= cEnd + 1 -> cEnd < u16_max ->
      (Z.to_nat (cEnd - c + 1) < fuel)%nat ->
      code_loop face m baseline fuel c cEnd st =
      glyph_fold face m baseline (zrange_from c (Z.to_nat (cEnd - c + 1))) st) /\
  (forall fuel,
      finished (code_loop face m baseline fuel c u16_max st) = false).
Proof.
  intros Hc. split.
  - intros fuel cEnd Hle He Hf. apply code_loop_enough; try lia.
  - intros fuel. revert c st Hc.
    induction fuel as [|fuel IH]; intros c st Hc; [reflexivity|].
    cbn [code_loop]. unfold u16_max in *.
    destruct (Z.leb_spec c 65535) as [Hle|Hgt]; [|lia].
    destruct (glyph_body face m baseline c st) as [st'| |]; cbn [bind];
      try reflexivity.
    apply IH. apply to_u16_range.
Qed.

Lemma range_loop_witness :
  (forall fuel cEnd,
      65 <= cEnd + 1 -> cEnd < u16_max ->
      (Z.to_nat (cEnd - 65 + 1) < fuel)%nat ->
      code_loop face_ABC (number_from 0 (code_run 65 3)) 15 fuel 65 cEnd atlas_init =
      glyph_fold face_ABC (number_from 0 (code_run 65 3)) 15
                 (zrange_from 65 (Z.to_nat (cEnd - 65 + 1))) atlas_init) /\
  (forall fuel,
      finished (code_loop face_ABC (number_from 0 (code_run 65 3)) 15 fuel 65
                          u16_max atlas_init) = false).
Proof.
  apply (range_loop_ends_below_0xFFFF face_ABC (number_from 0 (code_run 65 3))
           15 65 atlas_init); lia.
Defined.

(** ** The texture as a whole *)

Lemma appendSheet_app {IM : Imaging} d s : appendSheet d s = d ++ appendSheet [] s.
Proof. reflexivity. Qed.

(** A position inside the cell, seen from the sheet. *)
Lemma in_cell_in_cell_of idx p :
  in_cell p = true ->
  in_cell_of idx (fst (cell_of idx) + fst p) (snd (cell_of idx) + snd p).
Proof.
  unfold in_cell, in_cell_of. intros Hc. apply negb_true_iff in Hc.
  apply orb_false_iff in Hc. destruct Hc as [Hc H4].
  apply orb_false_iff in Hc. destruct Hc as [Hc H3].
  apply orb_false_iff in Hc. destruct Hc as [H1 H2].
  apply Z.ltb_ge in H1, H3. rewrite Z.geb_leb in H2, H4.
  apply Z.leb_gt in H2, H4. lia.
Qed.

Section Texture.

Context {IM : Imaging}.
Variable face : FT_Face.
Variable m : FaceMap.
Variable baseline : Z.

(** A glyph drawn into another cell of the sheet leaves a glyph as it
    is. *)
Lemma drawn_kept g i s g' k :
  i mod 170 <> k mod 170 ->
  drawn baseline g i s ->
  drawn baseline g i
        (draw_glyph s (k mod 170 mod 10 * 24) (k mod 170 / 10 * 30) baseline g').
Proof.
  intros Hne Hd x y Hx Hy Hc.
  rewrite draw_glyph_frame; [apply Hd; assumption|].
  intros Hk. apply (cells_are_disjoint i k _ _ Hne (in_cell_in_cell_of i _ Hc)).
  exact Hk.
Qed.

Lemma drawn_new g k s :
  bitmap_width g <= 2 ^ 32 -> bitmap_rows g <= 2 ^ 32 ->
  drawn baseline g k
        (draw_glyph s (k mod 170 mod 10 * 24) (k mod 170 / 10 * 30) baseline g).
Proof.
  intros Hw Hr x y Hx Hy Hc. unfold cell_of. cbn [fst snd].
  apply draw_glyph_written; assumption.
Qed.

(** One glyph keeps what holds of the texture. *)
Lemma texture_step k pre st fin kv :
  texture_inv face baseline k pre st fin ->
  at_key (fst kv) m = snd kv ->
  cfntIndex (snd kv) = k -> 0 <= k ->
  (opens_sheet k = true -> loads face (snd kv) = true) ->
  exists st' fin',
    glyph_body face m baseline (fst kv) st = Done st' /\
    texture_inv face baseline (k + 1) (pre ++ [kv]) st' fin'.
Proof.
  intros [Hinv Hdata Hcount Hgeo H0 Hpos Hidx Hgl] Hat Hk Hk0 Hopen.
  assert (Hidx' : Forall (fun kv0 => 0 <= cfntIndex (snd kv0) < k + 1) (pre ++ [kv])).
  { apply Forall_app. split.
    - eapply Forall_impl; [|exact Hidx]. cbv beta. intros a Ha. lia.
    - constructor; [lia|constructor]. }
  pose proof (glyph_body_cases face m baseline (fst kv) st Hinv) as Hb.
  cbv zeta in Hb. rewrite Hat, Hk in Hb. unfold loads in Hopen.
  destruct (FT_Load_Glyph face (faceIndex (snd kv))) as [g|] eqn:Hg.
  - destruct (opens_sheet k) eqn:Ho.
    + (* a new sheet *)
      assert (Hm : k mod 170 = 0) by (apply Z.eqb_eq; exact Ho).
      destruct (Z.eq_dec k 0) as [E|E].
      * destruct (H0 E) as [Hs Hfin]. subst fin.
        unfold flush_sheet in Hb. rewrite Hs in Hb.
        eexists. exists []. split; [exact Hb|].
        pose proof (glyph_body_inv face m baseline _ _ _ Hinv Hb) as [Hinv' _].
        split; cbn [st_sheet st_sheetData st_numSheets]; auto.
        -- lia.
        -- intros _. split; [discriminate|]. rewrite E. reflexivity.
        -- intros kv' g' Hin Hg' Hw Hr. apply in_app_or in Hin.
           destruct Hin as [Hin|[<-|[]]].
           ++ rewrite Forall_forall in Hidx. specialize (Hidx kv' Hin). lia.
           ++ rewrite Hg in Hg'. inversion Hg'; subst g'. rewrite Hk.
              unfold sheets_so_far. cbn [st_sheet app].
              eexists. split; [rewrite E; reflexivity|].
              apply drawn_new; assumption.
      * destruct (Hpos ltac:(lia)) as [Hs Hn].
        destruct (st_sheet st) as [cur|] eqn:Hcur; [|congruence].
        unfold flush_sheet in Hb. rewrite Hcur in Hb.
        cbn [st_sheetData st_numSheets] in Hb.
        eexists. exists (fin ++ [cur]). split; [exact Hb|].
        pose proof (glyph_body_inv face m baseline _ _ _ Hinv Hb) as [Hinv' _].
        split; cbn [st_sheet st_sheetData st_numSheets]; auto.
        -- rewrite appendSheet_app, Hdata, flat_map_app. cbn [flat_map].
           rewrite app_nil_r. reflexivity.
        -- rewrite length_app. cbn [length]. lia.
        -- apply Forall_app. split; [assumption|].
           constructor; [apply (ai_sheet _ Hinv); exact Hcur|constructor].
        -- lia.
        -- intros _. split; [discriminate|].
           rewrite length_app. cbn [length].
           replace (k + 1 - 1) with k by lia.
           rewrite Nat2Z.inj_add, Hn. cbn. Z.div_mod_to_equations. lia.
        -- intros kv' g' Hin Hg' Hw Hr. apply in_app_or in Hin.
           unfold sheets_so_far. cbn [st_sheet].
           destruct Hin as [Hin|[<-|[]]].
           ++ destruct (Hgl kv' g' Hin Hg' Hw Hr) as [s [Hnth Hd]].
              unfold sheets_so_far in Hnth. rewrite Hcur in Hnth.
              exists s. split; [|exact Hd].
              rewrite nth_error_app1; [exact Hnth|].
              apply nth_error_Some. congruence.
           ++ rewrite Hg in Hg'. inversion Hg'; subst g'. rewrite Hk.
              eexists. split; [|apply drawn_new; assumption].
              rewrite nth_error_app2; rewrite length_app; cbn [length].
              ** replace (Z.to_nat (k / 170) - (length fin + 1))%nat with O;
                   [reflexivity|]. Z.div_mod_to_equations. lia.
              ** Z.div_mod_to_equations. lia.
    + (* the sheet in progress *)
      assert (Hm : k mod 170 <> 0) by (apply Z.eqb_neq; exact Ho).
      assert (Hkpos : 0 < k).
      { destruct (Z.eq_dec k 0) as [->|]; [cbn in Hm; congruence|lia]. }
      destruct (Hpos Hkpos) as [Hs Hn].
      destruct (st_sheet st) as [cur|] eqn:Hcur; [|congruence].
      eexists. exists fin. split; [exact Hb|].
      pose proof (glyph_body_inv face m baseline _ _ _ Hinv Hb) as [Hinv' _].
      split; cbn [st_sheet st_sheetData st_numSheets]; auto.
      * lia.
      * intros _. split; [discriminate|].
        replace (k + 1 - 1) with k by lia. rewrite Hn.
        Z.div_mod_to_equations. lia.
      * intros kv' g' Hin Hg' Hw Hr. apply in_app_or in Hin.
        unfold sheets_so_far. cbn [st_sheet].
        destruct Hin as [Hin|[<-|[]]].
        -- destruct (Hgl kv' g' Hin Hg' Hw Hr) as [s [Hnth Hd]].
           unfold sheets_so_far in Hnth. rewrite Hcur in Hnth.
           rewrite Forall_forall in Hidx. specialize (Hidx kv' Hin).
           set (i := cfntIndex (snd kv')) in *.
           destruct (Nat.lt_ge_cases (Z.to_nat (i / 170)) (length fin)) as [Hlt|Hge].
           ++ exists s. split; [|exact Hd].
              rewrite nth_error_app1 in Hnth |- * by assumption. exact Hnth.
           ++ assert (Hlen : (Z.to_nat (i / 170) < length (fin ++ [cur]))%nat)
                by (apply nth_error_Some; congruence).
              rewrite length_app in Hlen. cbn [length] in Hlen.
              assert (Heq : Z.to_nat (i / 170) = length fin) by lia.
              rewrite Heq in Hnth |- *.
              rewrite nth_error_app2 in Hnth |- * by lia.
              rewrite Nat.sub_diag in Hnth |- *. cbn [nth_error] in Hnth |- *.
              inversion Hnth; subst s.
              eexists. split; [reflexivity|].
              apply drawn_kept; [|exact Hd].
              assert (0 <= i / 170) by (apply Z.div_pos; lia).
              Z.div_mod_to_equations. lia.
        -- rewrite Hg in Hg'. inversion Hg'; subst g'. rewrite Hk.
           eexists. split; [|apply drawn_new; assumption].
           rewrite nth_error_app2.
           ++ replace (Z.to_nat (k / 170) - length fin)%nat with O;
                [reflexivity|]. Z.div_mod_to_equations. lia.
           ++ Z.div_mod_to_equations. lia.
  - (* the glyph does not rasterize *)
    destruct (opens_sheet k) eqn:Ho; [specialize (Hopen eq_refl); discriminate|].
    assert (Hm : k mod 170 <> 0) by (apply Z.eqb_neq; exact Ho).
    assert (Hkpos : 0 < k).
    { destruct (Z.eq_dec k 0) as [->|]; [cbn in Hm; congruence|lia]. }
    destruct (Hpos Hkpos) as [Hs Hn].
    exists st, fin. split; [exact Hb|].
    split; auto.
    + lia.
    + intros _. split; [assumption|].
      replace (k + 1 - 1) with k by lia. rewrite Hn.
      Z.div_mod_to_equations. lia.
    + intros kv' g' Hin Hg' Hw Hr. apply in_app_or in Hin.
      destruct Hin as [Hin|[<-|[]]]; [auto|congruence].
Qed.

Lemma texture_fold suf : forall k pre st fin,
  texture_inv face baseline k pre st fin -> 0 <= k ->
  indices suf = zrange_from k (length suf) ->
  Forall (fun kv => at_key (fst kv) m = snd kv) suf ->
  Forall (fun kv => opens_sheet (cfntIndex (snd kv)) = true ->
                    loads face (snd kv) = true) suf ->
  exists st' fin',
    glyph_fold face m baseline (keys suf) st = Done st' /\
    texture_inv face baseline (k + Z.of_nat (length suf)) (pre ++ suf) st' fin'.
Proof.
  induction suf as [|kv suf IH]; intros k pre st fin Hinv Hk Hidx Hat Hld.
  - exists st, fin. cbn. rewrite Z.add_0_r, app_nil_r. auto.
  - inversion Hat as [|? ? Hat1 Hat2]; subst.
    inversion Hld as [|? ? Hld1 Hld2]; subst.
    cbn [indices map length zrange_from] in Hidx. injection Hidx as Hi1 Hi2.
    destruct (texture_step k pre st fin kv Hinv Hat1 Hi1 Hk)
      as [st1 [fin1 [Hb Hinv1]]].
    { rewrite <- Hi1. exact Hld1. }
    destruct (IH (k + 1) (pre ++ [kv]) st1 fin1 Hinv1 ltac:(lia) Hi2 Hat2 Hld2)
      as [st' [fin' [Hf Hinv']]].
    exists st', fin'. cbn [keys map glyph_fold]. rewrite Hb. cbn [bind].
    split; [exact Hf|]. cbn [length]. rewrite Nat2Z.inj_succ.
    replace (k + Z.succ (Z.of_nat (length suf)))
      with (k + 1 + Z.of_nat (length suf)) by lia.
    rewrite <- app_assoc in Hinv'. exact Hinv'.
Qed.

End Texture.

Lemma texture_start {IM : Imaging} face baseline :
  texture_inv face baseline 0 [] atlas_init [].
Proof.
  split; cbn; auto.
  - exact atlas_init_inv.
  - lia.
  - intros kv g [].
Qed.


